(** * A verified model of the limit order book of [order_book.py]

    The engine keeps two priced queues (Python [heapq] binary heaps stored in
    lists), an index of orders keyed by order id, an append-only trade log, an
    id counter and the last trade price.  The development embeds the engine as
    pure state-passing functions and proves the properties of its
    specification on that embedding.

    Conventions of the embedding:
    - prices and clock readings are Python floats; a finite float is the
      rational [Q] it denotes, and floats are compared with the boolean tests
      of [QArith]: comparison and negation of floats are exact;
    - arithmetic on floats rounds.  Where the engine or a statement observes
      the result of float arithmetic (the mid price, the size of a random
      order) the operation is a member of the class [FloatOps], about which
      nothing is assumed, so that what is proved holds for the arithmetic of
      the machine; [binary64_arithmetic], the arithmetic of doubles, and
      [exact_arithmetic] are two members, for the sample runs.  The prices
      a participant computes for its own orders are computed in exact
      rational arithmetic; no statement depends on them but the two about
      [calculate_spread];
    - quantities and order ids are Python ints, modelled as [Z];
    - sides, order types and owner names are Python strings;
    - each call of [time.time()] is one reading of a [clock : nat -> Q] passed
      to the operation: reading [0] stamps the submitted order, reading
      [S k] stamps the [k]-th trade recorded by the call;
    - an [Order] object is shared by its queue entry and the index; a write to
      its [quantity] through the queue is mirrored in the index under the
      order's id ([reachable_index_ok] shows that the indexed order is the
      queue's order in every reachable state);
    - the participants of [market_maker.py] and [random_trader.py] draw
      random numbers and read the clock: every draw and every reading is an
      input of the operation that makes it; the library functions [round],
      [statistics.pstdev] and [np.exp] are variables of the sections that use
      them; an operation that can raise returns an [option], [None] standing
      for the exception.

    The file has the definitions first (the [heapq] algorithms, the data
    model, the engine, the notions the properties are stated with, the
    participants, sample runs), then the theory of [heapq], the invariants of
    the engine, the properties C1 to C10, and further properties of the
    engine and of the participants, X1 onwards. *)

From Stdlib Require Import ZArith QArith Lia Lqa String.
From stdpp Require Import base option list sorting gmap strings.

Local Open Scope Z_scope.

(** * Python's [heapq] on lists *)

Module Heapq.
Section heapq.
Context {A : Type}.
(** [lt x y] is Python's [x < y] on heap items. *)
Variable lt : A -> A -> bool.

(** The [while pos > startpos] loop of [_siftdown]: [newitem] is held in a
    local while the parents move down; it is written once the loop ends.
    [pos] strictly decreases, so [pos] units of fuel run the loop to its
    exit. *)
Fixpoint _siftdown_loop (fuel : nat) (heap : list A) (startpos pos : nat)
    (newitem : A) : list A :=
  match fuel with
  | O => <[pos := newitem]> heap
  | S fuel' =>
      if (startpos <? pos)%nat then
        let parentpos := ((pos - 1) / 2)%nat in
        match heap !! parentpos with
        | Some parent =>
            if lt newitem parent
            then _siftdown_loop fuel' (<[pos := parent]> heap) startpos parentpos newitem
            else <[pos := newitem]> heap
        | None => <[pos := newitem]> heap
        end
      else <[pos := newitem]> heap
  end.

Definition _siftdown (heap : list A) (startpos pos : nat) : list A :=
  match heap !! pos with
  | Some newitem => _siftdown_loop pos heap startpos pos newitem
  | None => heap
  end.

(** The [while childpos < endpos] loop of [_siftup]: the smaller child is
    moved up until a leaf is reached; the loop returns the heap and the
    position of the leaf left empty. *)
Fixpoint _siftup_loop (fuel : nat) (heap : list A) (pos : nat) : list A * nat :=
  match fuel with
  | O => (heap, pos)
  | S fuel' =>
      let childpos := (2 * pos + 1)%nat in
      match heap !! childpos with
      | None => (heap, pos)
      | Some lchild =>
          let rightpos := (childpos + 1)%nat in
          match heap !! rightpos with
          | Some rchild =>
              if negb (lt lchild rchild)
              then _siftup_loop fuel' (<[pos := rchild]> heap) rightpos
              else _siftup_loop fuel' (<[pos := lchild]> heap) childpos
          | None => _siftup_loop fuel' (<[pos := lchild]> heap) childpos
          end
      end
  end.

Definition _siftup (heap : list A) (pos : nat) : list A :=
  match heap !! pos with
  | Some newitem =>
      let '(heap', leaf) := _siftup_loop (length heap) heap pos in
      _siftdown (<[leaf := newitem]> heap') pos leaf
  | None => heap
  end.

Definition heappush (heap : list A) (item : A) : list A :=
  let heap' := heap ++ [item] in
  _siftdown heap' 0 (length heap' - 1).

(** [heappop] returns the smallest item and the remaining heap; [None]
    stands for the [IndexError] raised on an empty list. *)
Definition heappop (heap : list A) : option (A * list A) :=
  match last heap with
  | None => None
  | Some lastelt =>
      match removelast heap with
      | [] => Some (lastelt, [])
      | returnitem :: rest =>
          Some (returnitem, _siftup (lastelt :: rest) 0)
      end
  end.

(** [for i in reversed(range(n // 2)): _siftup(x, i)] *)
Fixpoint heapify_loop (i : nat) (x : list A) : list A :=
  match i with
  | O => x
  | S i' => heapify_loop i' (_siftup x i')
  end.

Definition heapify (x : list A) : list A :=
  heapify_loop (length x / 2) x.

(** ** The heap invariant *)

(** [le x y] is [not (y < x)]. *)
Definition le (x y : A) : Prop := lt y x = false.

Definition child_of (p c : nat) : Prop :=
  c = (2 * p + 1)%nat \/ c = (2 * p + 2)%nat.

(** Position [pos] lies in the subtree rooted at [root]. *)
Inductive below (root : nat) : nat -> Prop :=
  | below_root : below root root
  | below_child p c : below root p -> child_of p c -> below root c.

(** Every parent at a position from [k] on is not greater than its
    children. *)
Definition heap_from (k : nat) (h : list A) : Prop :=
  forall p c x y, (k <= p)%nat -> child_of p c ->
    h !! p = Some x -> h !! c = Some y -> le x y.

Definition is_heap (h : list A) : Prop := heap_from 0 h.

End heapq.
End Heapq.

(** * The data model of [order_book.py] *)

Record Order := mkOrder {
  order_id : Z;
  side : string;
  price : Q;
  quantity : Z;
  order_type : string;
  timestamp : Q;
  participant_name : string
}.

Record Trade := mkTrade {
  t_timestamp : Q;
  t_price : Q;
  t_quantity : Z;
  t_side : string
}.

(** A queue entry is the tuple [(key, order.timestamp, order)] pushed by
    [add_order]; the key is [-order.price] on the bid side and [order.price]
    on the ask side. *)
Definition entry : Type := Q * Q * Order.

Definition entry_order (e : entry) : Order := e.2.
Definition entry_key (e : entry) : Q := e.1.1.
Definition entry_time (e : entry) : Q := e.1.2.

Record OrderBook := mkOrderBook {
  bids : list entry;
  asks : list entry;
  order_map : gmap Z Order;
  trades : list Trade;
  next_order_id : Z;
  last_trade_price : Q
}.

Definition Qltb (x y : Q) : bool := negb (Qle_bool y x).

(** [Order.__lt__] *)
Definition Order_lt (self other : Order) : bool :=
  Qltb (timestamp self) (timestamp other).

(** Python's [<] on the entry tuples: the first component on which the two
    tuples differ decides.  When the two orders are equal as dataclasses their
    timestamps are equal and [Order_lt] is [false], which is also Python's
    answer for equal tuples. *)
Definition entry_lt (x y : entry) : bool :=
  if negb (Qeq_bool (entry_key x) (entry_key y)) then Qltb (entry_key x) (entry_key y)
  else if negb (Qeq_bool (entry_time x) (entry_time y)) then Qltb (entry_time x) (entry_time y)
  else Order_lt (entry_order x) (entry_order y).

(** ** Field updates *)

Definition set_quantity (q : Z) (o : Order) : Order :=
  mkOrder (order_id o) (side o) (price o) q (order_type o) (timestamp o)
          (participant_name o).

Definition set_bids (h : list entry) (self : OrderBook) : OrderBook :=
  mkOrderBook h (asks self) (order_map self) (trades self) (next_order_id self)
              (last_trade_price self).

Definition set_asks (h : list entry) (self : OrderBook) : OrderBook :=
  mkOrderBook (bids self) h (order_map self) (trades self) (next_order_id self)
              (last_trade_price self).

Definition set_order_map (m : gmap Z Order) (self : OrderBook) : OrderBook :=
  mkOrderBook (bids self) (asks self) m (trades self) (next_order_id self)
              (last_trade_price self).

Definition set_next_order_id (n : Z) (self : OrderBook) : OrderBook :=
  mkOrderBook (bids self) (asks self) (order_map self) (trades self) n
              (last_trade_price self).

(** [self.trades.append(t); self.last_trade_price = trade_price] *)
Definition record_trade (t : Trade) (self : OrderBook) : OrderBook :=
  mkOrderBook (bids self) (asks self) (order_map self) (trades self ++ [t])
              (next_order_id self) (t_price t).

(** [best.quantity = q] where [best] is the order of the first entry of a
    queue: the write is seen in the queue entry ... *)
Definition set_best_quantity (q : Z) (h : list entry) : list entry :=
  match h with
  | (p, t, o) :: rest => (p, t, set_quantity q o) :: rest
  | [] => []
  end.

(** ... and in the index, which holds the same object under the order's id. *)
Definition write_quantity (o : Order) (q : Z) (m : gmap Z Order) : gmap Z Order :=
  alter (set_quantity q) (order_id o) m.

Definition write_best_bid (best_bid : Order) (q : Z) (self : OrderBook) : OrderBook :=
  set_order_map (write_quantity best_bid q (order_map self))
    (set_bids (set_best_quantity q (bids self)) self).

Definition write_best_ask (best_ask : Order) (q : Z) (self : OrderBook) : OrderBook :=
  set_order_map (write_quantity best_ask q (order_map self))
    (set_asks (set_best_quantity q (asks self)) self).

(** [heapq.heappop(h)] with the popped item dropped; the queue is never empty
    where the engine pops. *)
Definition pop (h : list entry) : list entry :=
  match Heapq.heappop entry_lt h with
  | Some (_, h') => h'
  | None => h
  end.

(** What a fill leaves of a queue: the best order is left with quantity [q],
    and popped when that is zero. *)
Definition settle (q : Z) (h : list entry) : list entry :=
  if q =? 0 then pop (set_best_quantity q h) else set_best_quantity q h.

(** * The engine *)

(** [OrderBook.__init__] *)
Definition __init__ : OrderBook :=
  mkOrderBook [] [] ∅ [] 1 100.

(** The body of the loop of [match_orders] once the two best orders cross;
    [now] is the reading of the clock that stamps the trade. *)
Definition cross (now : Q) (best_bid best_ask : Order) (self : OrderBook)
    : OrderBook :=
  let trade_quantity := Z.min (quantity best_bid) (quantity best_ask) in
  let trade_price := price best_ask in
  let trade_side :=
    if Qltb (timestamp best_ask) (timestamp best_bid)
    then "BUY"%string else "SELL"%string in
  let self := record_trade (mkTrade now trade_price trade_quantity trade_side) self in
  let bid_quantity := quantity best_bid - trade_quantity in
  let ask_quantity := quantity best_ask - trade_quantity in
  let self := write_best_bid best_bid bid_quantity self in
  let self := write_best_ask best_ask ask_quantity self in
  let self := if bid_quantity =? 0 then set_bids (pop (bids self)) self else self in
  let self := if ask_quantity =? 0 then set_asks (pop (asks self)) self else self in
  self.

(** The loop of [match_orders].  Every iteration that trades pops at least one
    queue, so [length bids + length asks] units of fuel reach the exit. *)
Fixpoint match_orders_loop (fuel : nat) (clock : nat -> Q) (self : OrderBook)
    : OrderBook :=
  match fuel with
  | O => self
  | S fuel' =>
      match bids self, asks self with
      | (_, _, best_bid) :: _, (_, _, best_ask) :: _ =>
          if Qle_bool (price best_ask) (price best_bid)
          then match_orders_loop fuel' (fun n => clock (S n))
                 (cross (clock O) best_bid best_ask self)
          else self
      | _, _ => self
      end
  end.

Definition match_orders (clock : nat -> Q) (self : OrderBook) : OrderBook :=
  match_orders_loop (length (bids self) + length (asks self)) clock self.

(** The bodies of the two loops of [_handle_market_order]; [remaining] is
    [market_order.quantity], returned as the body leaves it. *)
Definition take_ask (now : Q) (remaining : Z) (best_ask : Order)
    (self : OrderBook) : Z * OrderBook :=
  let trade_quantity := Z.min remaining (quantity best_ask) in
  let trade_price := price best_ask in
  let self := record_trade (mkTrade now trade_price trade_quantity "BUY") self in
  let ask_quantity := quantity best_ask - trade_quantity in
  let self := write_best_ask best_ask ask_quantity self in
  let remaining := remaining - trade_quantity in
  let self := if ask_quantity =? 0 then set_asks (pop (asks self)) self else self in
  (remaining, self).

Definition take_bid (now : Q) (remaining : Z) (best_bid : Order)
    (self : OrderBook) : Z * OrderBook :=
  let trade_quantity := Z.min remaining (quantity best_bid) in
  let trade_price := price best_bid in
  let self := record_trade (mkTrade now trade_price trade_quantity "SELL") self in
  let bid_quantity := quantity best_bid - trade_quantity in
  let self := write_best_bid best_bid bid_quantity self in
  let remaining := remaining - trade_quantity in
  let self := if bid_quantity =? 0 then set_bids (pop (bids self)) self else self in
  (remaining, self).

(** The two loops of [_handle_market_order].  An iteration that does not pop
    the resting order fills the market order, so as many units of fuel as the
    opposite queue has entries reach the exit. *)
Fixpoint market_buy_loop (fuel : nat) (clock : nat -> Q) (remaining : Z)
    (self : OrderBook) : Z * OrderBook :=
  match fuel with
  | O => (remaining, self)
  | S fuel' =>
      if 0 <? remaining then
        match asks self with
        | (_, _, best_ask) :: _ =>
            let '(remaining, self) := take_ask (clock O) remaining best_ask self in
            market_buy_loop fuel' (fun n => clock (S n)) remaining self
        | [] => (remaining, self)
        end
      else (remaining, self)
  end.

Fixpoint market_sell_loop (fuel : nat) (clock : nat -> Q) (remaining : Z)
    (self : OrderBook) : Z * OrderBook :=
  match fuel with
  | O => (remaining, self)
  | S fuel' =>
      if 0 <? remaining then
        match bids self with
        | (_, _, best_bid) :: _ =>
            let '(remaining, self) := take_bid (clock O) remaining best_bid self in
            market_sell_loop fuel' (fun n => clock (S n)) remaining self
        | [] => (remaining, self)
        end
      else (remaining, self)
  end.

(** [_handle_market_order] returns its boolean, the market order as the loop
    left it, and the engine. *)
Definition _handle_market_order (clock : nat -> Q) (market_order : Order)
    (self : OrderBook) : bool * Order * OrderBook :=
  if String.eqb (side market_order) "BUY" then
    match asks self with
    | [] => (false, market_order, self)
    | _ :: _ =>
        let '(remaining, self') :=
          market_buy_loop (length (asks self)) clock (quantity market_order) self in
        (true, set_quantity remaining market_order, self')
    end
  else
    match bids self with
    | [] => (false, market_order, self)
    | _ :: _ =>
        let '(remaining, self') :=
          market_sell_loop (length (bids self)) clock (quantity market_order) self in
        (true, set_quantity remaining market_order, self')
    end.

(** The limit branch of [add_order] up to the call of [match_orders]: the
    order is pushed on the queue of its side and indexed. *)
Definition place (order : Order) (self : OrderBook) : OrderBook :=
  let self :=
    if String.eqb (side order) "BUY"
    then set_bids (Heapq.heappush entry_lt (bids self)
                     (- price order, timestamp order, order)%Q) self
    else set_asks (Heapq.heappush entry_lt (asks self)
                     (price order, timestamp order, order)) self in
  set_order_map (<[order_id order := order]> (order_map self)) self.

Definition add_order (clock : nat -> Q) (order : Order) (self : OrderBook)
    : bool * OrderBook :=
  if String.eqb (order_type order) "MARKET" then
    let '(success, _, self') := _handle_market_order clock order self in
    if negb success then (false, self') else (true, self')
  else
    (true, match_orders clock (place order self)).

(** [add_order_api]: reading [0] of the clock stamps the order, the later
    readings stamp the trades. *)
Definition add_order_api (clock : nat -> Q) (side : string) (price : Q)
    (quantity : Z) (order_type : string) (participant_name : string)
    (self : OrderBook) : (bool * option Z) * OrderBook :=
  let order_id := next_order_id self in
  let self := set_next_order_id (next_order_id self + 1) self in
  let order := mkOrder order_id side price quantity order_type (clock O)
                       participant_name in
  let '(success, self) := add_order (fun n => clock (S n)) order self in
  ((success, if success then Some order_id else None), self).

Definition cancel_order (oid : Z) (self : OrderBook) : bool * OrderBook :=
  match order_map self !! oid with
  | None => (false, self)
  | Some order =>
      let self := set_order_map (delete oid (order_map self)) self in
      if String.eqb (side order) "BUY" then
        (true, set_bids (Heapq.heapify entry_lt
                           (filter (fun e => order_id (entry_order e) <> oid) (bids self)))
                        self)
      else
        (true, set_asks (Heapq.heapify entry_lt
                           (filter (fun e => order_id (entry_order e) <> oid) (asks self)))
                        self)
  end.

(** ** Arithmetic on floats *)

(** Python's [x + y] and [x / y] on floats, and [x * n] for a float [x] and
    an int [n], which is converted to a float first.  The result of each is
    rounded; nothing is assumed about it.  A result that is not finite is,
    like a price that is not finite, outside the model. *)
Class FloatOps := {
  float_add : Q -> Q -> Q;
  float_div : Q -> Q -> Q;
  float_mul_int : Q -> Z -> Q
}.

(** Arithmetic that does not round, to run examples. *)
Definition exact_arithmetic : FloatOps :=
  Build_FloatOps Qplus Qdiv (fun x n => (x * inject_Z n)%Q).

(** The double nearest to [x], ties going to the even mantissa: 53 bits of
    mantissa, exponents down to the subnormal [2 ^ -1074]; [None] when the
    nearest double is not finite. *)
Definition binary64 (x : Q) : option Q :=
  let n := Qnum x in
  let d := Zpos (Qden x) in
  if n =? 0 then Some 0%Q
  else
    let a := Z.abs n in
    let l := Z.log2 a - Z.log2 d in
    let l :=
      if (if 0 <=? l then d * 2 ^ l <=? a else d <=? a * 2 ^ (- l)) then l else l - 1 in
    let e := Z.max (l - 52) (-1074) in
    let num := a * 2 ^ Z.max 0 (- e) in
    let den := d * 2 ^ Z.max 0 e in
    let q := num / den in
    let r := num mod den in
    let q := if (den <? 2 * r) || ((den =? 2 * r) && Z.odd q) then q + 1 else q in
    if 2 ^ 1024 <=? q * 2 ^ Z.max 0 e then None
    else
      let m := Z.sgn n * q in
      Some (Qred (if 0 <=? e then inject_Z (m * 2 ^ e)
                  else Qmake m (Z.to_pos (2 ^ (- e))))).

(** The arithmetic of doubles, each result the exact one rounded, for
    operands whose results are finite (the others are outside the model;
    [0] stands in for them). *)
Definition binary64_arithmetic : FloatOps :=
  let rounded x := default 0%Q (binary64 x) in
  Build_FloatOps (fun x y => rounded (x + y)%Q) (fun x y => rounded (x / y)%Q)
                 (fun x n => rounded (x * rounded (inject_Z n))%Q).

(** ** Queries *)

Definition level : Type := Q * Z.

(** Python's [<] on the [(price, quantity)] tuples. *)
Definition level_lt (x y : level) : bool :=
  if negb (Qeq_bool x.1 y.1) then Qltb x.1 y.1 else x.2 <? y.2.

Definition level_le (x y : level) : Prop := level_lt y x = false.

#[global] Instance level_le_dec (x y : level) : Decision (level_le x y) :=
  bool_eq_dec (level_lt y x) false.

(** [sorted(l)]: a stable sort by [<]; [sorted(l, reverse=True)] reverses,
    sorts and reverses back. *)
Definition sorted (l : list level) : list level :=
  merge_sort level_le l.

Definition sorted_reverse (l : list level) : list level :=
  reverse (sorted (reverse l)).

Definition get_order_book (self : OrderBook) : list level * list level :=
  let bids := sorted_reverse (map (fun e => (- entry_key e, quantity (entry_order e))%Q)
                                  (bids self)) in
  let asks := sorted (map (fun e => (entry_key e, quantity (entry_order e)))
                          (asks self)) in
  (bids, asks).

Definition get_mid_price {float_ops : FloatOps} (self : OrderBook) : Q :=
  let '(bids, asks) := get_order_book self in
  match bids, asks with
  | b :: _, a :: _ => float_div (float_add b.1 a.1) 2
  | _, _ => last_trade_price self
  end.

(** * Runs of the engine *)

Inductive Op :=
  | Submit (clock : nat -> Q) (side : string) (price : Q) (quantity : Z)
           (order_type : string) (participant_name : string)
  | Cancel (oid : Z).

Definition step (op : Op) (self : OrderBook) : OrderBook :=
  match op with
  | Submit clock sd p q ty who => (add_order_api clock sd p q ty who self).2
  | Cancel oid => (cancel_order oid self).2
  end.

Definition run (ops : list Op) (self : OrderBook) : OrderBook :=
  fold_left (fun s op => step op s) ops self.

(** The states the engine can be in: those a run from the fresh engine
    reaches. *)
Definition reachable (self : OrderBook) : Prop :=
  exists ops, self = run ops __init__.

(** * Notions of the specification *)

(** The orders resting in a queue, their ids and their total quantity. *)
Definition resting (h : list entry) : list Order := map entry_order h.

Definition ids (h : list entry) : list Z := map order_id (resting h).

Definition total (l : list Z) : Z := foldr Z.add 0 l.

Definition resting_quantity (h : list entry) : Z := total (map quantity (resting h)).

Definition traded_quantity (ts : list Trade) : Z := total (map t_quantity ts).

(** No resting bid is priced at or above a resting ask. *)
Definition no_cross (self : OrderBook) : Prop :=
  forall b a, b ∈ resting (bids self) -> a ∈ resting (asks self) ->
    (price b < price a)%Q.

Definition bid_entry (e : entry) : Prop :=
  entry_key e = (- price (entry_order e))%Q.

Definition ask_entry (e : entry) : Prop :=
  entry_key e = price (entry_order e).

(** Both queues are heaps whose keys are the ones [add_order] pushes. *)
Definition queues_ok (self : OrderBook) : Prop :=
  Heapq.is_heap entry_lt (bids self) /\ Heapq.is_heap entry_lt (asks self) /\
  Forall bid_entry (bids self) /\ Forall ask_entry (asks self).

Definition is_buy (o : Order) : Prop := side o = "BUY"%string.

Definition is_sell (o : Order) : Prop := side o <> "BUY"%string.

(** The index and two queues [h1], [h2] agree: no id rests twice, a resting
    order is the indexed order of its id, an indexed order carries its id,
    was issued, is no market order, and rests as long as it has quantity
    left. *)
Definition index_inv (S1 S2 : Order -> Prop) (h1 h2 : list entry)
    (m : gmap Z Order) (n : Z) : Prop :=
  NoDup (ids h1 ++ ids h2) /\
  (forall o, o ∈ resting h1 -> m !! order_id o = Some o /\ S1 o) /\
  (forall o, o ∈ resting h2 -> m !! order_id o = Some o /\ S2 o) /\
  (forall i o, m !! i = Some o ->
     order_id o = i /\ 1 <= i < n /\ order_type o <> "MARKET"%string /\
     (quantity o <> 0 -> o ∈ resting h1 ++ resting h2)).

Definition index_ok (self : OrderBook) : Prop :=
  index_inv is_buy is_sell (bids self) (asks self) (order_map self)
            (next_order_id self).

(** The best-priced resting orders. *)
Definition highest_bid (b : Order) (h : list entry) : Prop :=
  b ∈ resting h /\ forall o, o ∈ resting h -> (price o <= price b)%Q.

Definition lowest_ask (a : Order) (h : list entry) : Prop :=
  a ∈ resting h /\ forall o, o ∈ resting h -> (price a <= price o)%Q.

(** The entry of the book an order gives rise to, and the two orders of
    listing. *)
Definition level_of (o : Order) : level := (price o, quantity o).

Definition descending (l : list level) : Prop :=
  StronglySorted (fun x y => (y.1 <= x.1)%Q) l.

Definition ascending (l : list level) : Prop :=
  StronglySorted (fun x y => (x.1 <= y.1)%Q) l.

(** The last trade price is the price of the latest trade, and [100] before
    the first one. *)
Definition last_ok (self : OrderBook) : Prop :=
  last_trade_price self = from_option t_price 100%Q (last (trades self)).

(** Every resting order has quantity left. *)
Definition quantities_ok (self : OrderBook) : Prop :=
  forall o, o ∈ resting (bids self) ++ resting (asks self) -> 0 < quantity o.

(** Submissions respect the input constraint: the quantity is positive. *)
Definition positive_op (op : Op) : Prop :=
  match op with
  | Submit _ _ _ q _ _ => 0 < q
  | Cancel _ => True
  end.

Definition reachable_positive (self : OrderBook) : Prop :=
  exists ops, Forall positive_op ops /\ self = run ops __init__.

(** The queue a submission of side [sd] trades against, and its own. *)
Definition opposite (sd : string) (self : OrderBook) : list entry :=
  if String.eqb sd "BUY" then asks self else bids self.

Definition own (sd : string) (self : OrderBook) : list entry :=
  if String.eqb sd "BUY" then bids self else asks self.

(** The quantity a submission takes out of the orders resting on the
    opposite side, and its sum over a run. *)
Definition passive_fill_step (op : Op) (self : OrderBook) : Z :=
  match op with
  | Submit _ sd _ _ _ _ =>
      resting_quantity (opposite sd self)
      - resting_quantity (opposite sd (step op self))
  | Cancel _ => 0
  end.

Fixpoint passive_fill (ops : list Op) (self : OrderBook) : Z :=
  match ops with
  | [] => 0
  | op :: ops' => passive_fill_step op self + passive_fill ops' (step op self)
  end.

(** ** The matching procedures, in the words of the specification *)

(** [filled o q h h']: the queue [h'] is the queue [h] after its order [o] was
    left with quantity [q]: removed when [q] is zero, carrying [q]
    otherwise. *)
Definition filled (o : Order) (q : Z) (h h' : list entry) : Prop :=
  exists rest, resting h ≡ₚ o :: rest /\
    resting h' ≡ₚ if q =? 0 then rest else set_quantity q o :: rest.

(** Continuous limit matching: while the best bid is priced at or above the
    best ask, trade the smaller of the two quantities at the ask's price, tag
    the trade with the side of the later order, decrement both orders, remove
    those left with nothing, and repeat. *)
Inductive limit_matching : OrderBook -> OrderBook -> Prop :=
  | limit_matching_done s :
      bids s = [] \/ asks s = [] \/ no_cross s ->
      limit_matching s s
  | limit_matching_trade s s1 s' b a t :
      highest_bid b (bids s) -> lowest_ask a (asks s) ->
      (price a <= price b)%Q ->
      trades s1 = trades s ++ [t] ->
      t_price t = price a ->
      t_quantity t = Z.min (quantity b) (quantity a) ->
      ((timestamp a < timestamp b)%Q -> t_side t = "BUY"%string) ->
      ((timestamp b < timestamp a)%Q -> t_side t = "SELL"%string) ->
      filled b (quantity b - t_quantity t) (bids s) (bids s1) ->
      filled a (quantity a - t_quantity t) (asks s) (asks s1) ->
      limit_matching s1 s' ->
      limit_matching s s'.

(** The best-priced order a market order of side [sd] trades against. *)
Definition best (sd : string) (o : Order) (h : list entry) : Prop :=
  if String.eqb sd "BUY" then lowest_ask o h else highest_bid o h.

(** Market execution of [remaining] units for side [sd]: while quantity
    remains and the opposite side has orders, trade with the best-priced one
    the smaller of the two quantities at its price, tag the trade with [sd],
    decrement both quantities, remove the resting order when it is left with
    nothing, and repeat; the own side is left alone. *)
Inductive market_execution (sd : string)
    : Z -> OrderBook -> Z -> OrderBook -> Prop :=
  | market_execution_done remaining s :
      remaining <= 0 \/ opposite sd s = [] ->
      market_execution sd remaining s remaining s
  | market_execution_trade remaining s s1 remaining' s' o t :
      0 < remaining ->
      best sd o (opposite sd s) ->
      trades s1 = trades s ++ [t] ->
      t_price t = price o ->
      t_quantity t = Z.min remaining (quantity o) ->
      t_side t = sd ->
      filled o (quantity o - t_quantity t) (opposite sd s) (opposite sd s1) ->
      own sd s1 = own sd s ->
      market_execution sd (remaining - t_quantity t) s1 remaining' s' ->
      market_execution sd remaining s remaining' s'.

(** ** Further notions *)

(** The submissions of a run. *)
Fixpoint submissions (ops : list Op) : Z :=
  match ops with
  | [] => 0
  | Submit _ _ _ _ _ _ :: ops' => 1 + submissions ops'
  | Cancel _ :: ops' => submissions ops'
  end.

(** The time component of a queue entry is the timestamp of its order. *)
Definition stamped_entry (e : entry) : Prop :=
  entry_time e = timestamp (entry_order e).

Definition stamped (self : OrderBook) : Prop :=
  Forall stamped_entry (bids self) /\ Forall stamped_entry (asks self).

(** [o'] is the order [o] after fills: the same order but for its quantity,
    which has not grown and has not turned negative. *)
Definition shrunk (o o' : Order) : Prop :=
  o' = set_quantity (quantity o') o /\ quantity o' <= quantity o /\
  (0 <= quantity o -> 0 <= quantity o').

(** For a market order of side [sd] the price [y] is no better than [x]:
    no lower for a BUY, no higher for a SELL. *)
Definition worse (sd : string) (x y : Q) : Prop :=
  if String.eqb sd "BUY" then (x <= y)%Q else (y <= x)%Q.

(** The limit price [p] of a submission of side [sd] reaches the price [x]
    of an order of the opposite side. *)
Definition reaches (sd : string) (p x : Q) : Prop :=
  if String.eqb sd "BUY" then (x <= p)%Q else (p <= x)%Q.

(** [order_book.trades[-10:][::-1]], the rows of the table of recent trades
    of [app.py]. *)
Definition recent_trades (self : OrderBook) : list Trade :=
  reverse (drop (length (trades self) - 10) (trades self)).

(** * The participants *)

(** A participant's [active_orders] is a [dict] from order ids to the
    engine's [Order] objects.  The values are the engine's own objects and no
    participant ever reads them; the model keeps the keys, in insertion order,
    the order in which a [dict] is iterated. *)

(** [d[k] = v] *)
Definition dict_set (k : Z) (d : list Z) : list Z :=
  if decide (k ∈ d) then d else d ++ [k].

(** [d.pop(k, None)] *)
Definition dict_pop (k : Z) (d : list Z) : list Z :=
  filter (fun k' => k' <> k) d.

(** The division [a / b] of two Python ints; [None] is
    [ZeroDivisionError]. *)
Definition true_div (a b : Z) : option Q :=
  if b =? 0 then None else Some (inject_Z a / inject_Z b)%Q.

(** [random.randint(a, b)] is [a + randbelow(b - a + 1)]; the raw draw is an
    input, reduced to the width of the range.  [None] is the [ValueError] of
    an empty range. *)
Definition randint (a b : Z) (draw : Z) : option Z :=
  if a <=? b then Some (a + draw mod (b - a + 1)) else None.

(** [market_participants.py] *)
Module MarketParticipant.

Record t := mk {
  name : string;
  active_orders : list Z;
  last_mid_price : option Q
}.

Definition __init__ (name : string) : t := mk name [] None.

Definition set_active_orders (d : list Z) (self : t) : t :=
  mk (name self) d (last_mid_price self).

Definition set_last_mid_price (p : option Q) (self : t) : t :=
  mk (name self) (active_orders self) p.

(** [self.active_orders[order_id] = order_book.order_map[order_id]]; [None]
    is the [KeyError] of an id that is not indexed. *)
Definition track (order_id : Z) (order_book : OrderBook) (self : t) : option t :=
  match order_map order_book !! order_id with
  | Some _ => Some (set_active_orders (dict_set order_id (active_orders self)) self)
  | None => None
  end.

End MarketParticipant.

(** [market_maker.py] *)
Module MarketMaker.

Record t := mk {
  participant : MarketParticipant.t;
  base_spread : Q;
  inventory_limit : Z;
  num_levels : Z;
  size_range : Z * Z;
  volatility_window : Z;
  inventory_risk_factor : Q;
  volatility_sensitivity : Q;
  inventory : Z;
  price_history : list Q
}.

Definition __init__ (name : string) (base_spread : Q) (inventory_limit : Z)
    (num_levels : Z) (size_range : Z * Z) (volatility_window : Z)
    (inventory_risk_factor : Q) (volatility_sensitivity : Q) : t :=
  mk (MarketParticipant.__init__ name) base_spread inventory_limit num_levels
     size_range volatility_window inventory_risk_factor volatility_sensitivity
     0 [].

(** [MarketMaker(name)] with the defaults of the signature. *)
Definition default (name : string) : t :=
  __init__ name 1 100 3 (5, 15) 10 (5 # 100) (1 # 2).

Definition name (self : t) : string := MarketParticipant.name (participant self).

Definition active_orders (self : t) : list Z :=
  MarketParticipant.active_orders (participant self).

Definition set_participant (p : MarketParticipant.t) (self : t) : t :=
  mk p (base_spread self) (inventory_limit self) (num_levels self) (size_range self)
     (volatility_window self) (inventory_risk_factor self)
     (volatility_sensitivity self) (inventory self) (price_history self).


Definition set_price_history (h : list Q) (self : t) : t :=
  mk (participant self) (base_spread self) (inventory_limit self) (num_levels self)
     (size_range self) (volatility_window self) (inventory_risk_factor self)
     (volatility_sensitivity self) (inventory self) h.

(** The loop runs over a copy of the keys; every key is sent to the engine
    and popped, whatever the engine answers. *)
Definition cancel_all_orders (self : t) (order_book : OrderBook) : t * OrderBook :=
  foldl (fun '(self, order_book) order_id =>
           let order_book := (cancel_order order_id order_book).2 in
           let d := dict_pop order_id (active_orders self) in
           (set_participant (MarketParticipant.set_active_orders d (participant self)) self,
            order_book))
        (self, order_book) (active_orders self).

Definition update_price_history (self : t) (mid_price : Q) : t :=
  let h := price_history self ++ [mid_price] in
  if volatility_window self <? Z.of_nat (length h)
  then set_price_history (tail h) self
  else set_price_history h self.

(** [calculate_spread]; [None] is the [ZeroDivisionError] of a zero
    [inventory_limit]. *)
Definition calculate_spread (self : t) (current_vol : Q) : option Q :=
  let vol_component := (volatility_sensitivity self * current_vol)%Q in
  inv_factor ← true_div (Z.abs (inventory self)) (inventory_limit self);
  let inv_component := (inv_factor * inventory_risk_factor self * base_spread self)%Q in
  Some (base_spread self + vol_component + inv_component)%Q.


Section externals.
(** [statistics.pstdev] and the built-in [round] are taken as given. *)
Context {float_ops : FloatOps}.
Variable pstdev : list Q -> Q.
Variable round : Q -> Z -> Q.

Definition calculate_volatility (self : t) : Q :=
  if (length (price_history self) <? 2)%nat then 0%Q
  else pstdev (price_history self).

(** The prices [place_quotes] quotes at a level, after the inventory skew. *)
Definition quote_prices (self : t) (mid_price spread : Q) (level : nat)
    : option (Q * Q) :=
  let half_spread := (spread / 2)%Q in
  let offset :=
    (half_spread + inject_Z (Z.of_nat level) * (spread / inject_Z (num_levels self)))%Q in
  let bid_price := round (mid_price - offset)%Q 2 in
  let ask_price := round (mid_price + offset)%Q 2 in
  if 0 <? inventory self then
    skew ← true_div (inventory self) (inventory_limit self);
    Some ((bid_price - skew * (1 # 10))%Q, ask_price)
  else if inventory self <? 0 then
    skew ← true_div (Z.abs (inventory self)) (inventory_limit self);
    Some (bid_price, (ask_price + skew * (1 # 10))%Q)
  else Some (bid_price, ask_price).

(** [add_order_api] followed by the bookkeeping of the returned id. *)
Definition submit (clock : nat -> Q) (side : string) (price : Q) (size : Z)
    (self : t) (order_book : OrderBook) : option (t * OrderBook) :=
  let '((success, order_id), order_book) :=
    add_order_api clock side price size "LIMIT" (name self) order_book in
  match success, order_id with
  | true, Some order_id =>
      p ← MarketParticipant.track order_id order_book (participant self);
      Some (set_participant p self, order_book)
  | _, _ => Some (self, order_book)
  end.

(** One round of the loop of [place_quotes]: [draw] is the raw draw of
    [random.randint], [clock_bid] and [clock_ask] are the clocks of the two
    submissions. *)
Definition place_level (mid_price spread : Q) (level : nat) (draw : Z)
    (clock_bid clock_ask : nat -> Q) (self : t) (order_book : OrderBook)
    : option (t * OrderBook) :=
  size ← randint (size_range self).1 (size_range self).2 draw;
  '(bid_price, ask_price) ← quote_prices self mid_price spread level;
  '(self, order_book) ← submit clock_bid "BUY" bid_price size self order_book;
  submit clock_ask "SELL" ask_price size self order_book.

(** The loop of [place_quotes] over the levels [levels]; the [k]-th
    submission of the call reads the clock [clocks k], level [l] draws
    [draws l]. *)
Fixpoint place_levels (mid_price spread : Q) (levels : list nat)
    (draws : nat -> Z) (clocks : nat -> nat -> Q)
    (self : t) (order_book : OrderBook) : option (t * OrderBook) :=
  match levels with
  | [] => Some (self, order_book)
  | level :: levels' =>
      '(self, order_book) ←
        place_level mid_price spread level (draws level)
          (clocks (2 * level)%nat) (clocks (2 * level + 1)%nat) self order_book;
      place_levels mid_price spread levels' draws clocks self order_book
  end.

Definition place_quotes (draws : nat -> Z) (clocks : nat -> nat -> Q)
    (self : t) (order_book : OrderBook) (mid_price spread : Q)
    : option (t * OrderBook) :=
  place_levels mid_price spread (seq 0 (Z.to_nat (num_levels self))) draws clocks
    self order_book.

(** [act].  [get_mid_price] always returns a price, so the early return on
    [None] is never taken. *)
Definition act (draws : nat -> Z) (clocks : nat -> nat -> Q)
    (self : t) (order_book : OrderBook) : option (t * OrderBook) :=
  let '(self, order_book) := cancel_all_orders self order_book in
  let mid_price := get_mid_price order_book in
  let self := update_price_history self mid_price in
  let current_vol := calculate_volatility self in
  adjusted_spread ← calculate_spread self current_vol;
  '(self, order_book) ← place_quotes draws clocks self order_book mid_price adjusted_spread;
  Some (set_participant
          (MarketParticipant.set_last_mid_price (Some mid_price) (participant self)) self,
        order_book).

End externals.

End MarketMaker.

(** [int(x)] of a float: truncation towards zero. *)
Definition int (x : Q) : Z := Z.quot (Qnum x) (Zpos (Qden x)).

(** [random_trader.py] *)
Module RandomTrader.

Record t := mk {
  participant : MarketParticipant.t;
  mean_time_between_trades : Q;
  market_order_probability : Q;
  max_order_size : Z;
  price_range_bps : Z;
  last_trade_time : Q
}.

(** [now] is the reading of [time.time()]. *)
Definition __init__ (now : Q) (name : string) (mean_time_between_trades : Q)
    (market_order_probability : Q) (max_order_size price_range_bps : Z) : t :=
  mk (MarketParticipant.__init__ name) mean_time_between_trades
     market_order_probability max_order_size price_range_bps now.

(** [RandomTrader(name)] with the defaults of the signature. *)
Definition default (now : Q) (name : string) : t :=
  __init__ now name 5 (3 # 10) 50 20.

Definition name (self : t) : string := MarketParticipant.name (participant self).

Definition active_orders (self : t) : list Z :=
  MarketParticipant.active_orders (participant self).

Definition set_participant (p : MarketParticipant.t) (self : t) : t :=
  mk p (mean_time_between_trades self) (market_order_probability self)
     (max_order_size self) (price_range_bps self) (last_trade_time self).

Definition set_last_trade_time (now : Q) (self : t) : t :=
  mk (participant self) (mean_time_between_trades self) (market_order_probability self)
     (max_order_size self) (price_range_bps self) now.

(** The random draws and clock readings of one call of [act], in the order
    the call makes them. *)
Record Draws := mkDraws {
  current_time : Q;      (* time.time() in should_trade *)
  random_trade : Q;      (* random.random() in should_trade *)
  choice_buy : bool;     (* random.choice(["BUY", "SELL"]) picks "BUY" *)
  power : Q;             (* np.random.power(alpha) *)
  random_market : Q;     (* random.random() in act *)
  betavariate : Q;       (* random.betavariate(a, b) *)
  clock : nat -> Q;      (* the clock of add_order_api *)
  end_time : Q           (* the last time.time() of act *)
}.

Section externals.
(** [np.exp] and the built-in [round] are taken as given. *)
Context {float_ops : FloatOps}.
Variable exp : Q -> Q.

(** [power] is the draw of [np.random.power(alpha)]; the product is the
    float product of the draw and the int [max_order_size]. *)
Definition generate_order_size (self : t) (power : Q) : Z :=
  let size := int (float_mul_int power (max_order_size self)) in
  Z.max 1 size.
Variable round : Q -> Z -> Q.

(** [should_trade]; [None] is the [ZeroDivisionError] of a zero
    [mean_time_between_trades]. *)
Definition should_trade (self : t) (current_time random : Q) : option bool :=
  let time_since_last := (current_time - last_trade_time self)%Q in
  if Qeq_bool (mean_time_between_trades self) 0 then None
  else
    let trade_probability :=
      (1 - exp (- time_since_last / mean_time_between_trades self))%Q in
    Some (Qltb random trade_probability).

(** The parameters [a], [b] of the beta distribution only shape the draw. *)
Definition generate_limit_price (self : t) (betavariate mid_price : Q) (side : string)
    : Q :=
  let deviation_bps := (betavariate * inject_Z (price_range_bps self))%Q in
  let adjustment := (deviation_bps / 10000 * mid_price)%Q in
  let price :=
    if String.eqb side "BUY" then (mid_price - adjustment)%Q
    else (mid_price + adjustment)%Q in
  round price 2.

(** [act].  [get_mid_price] always returns a price, so the early return on
    [None] is never taken. *)
Definition act (d : Draws) (self : t) (order_book : OrderBook)
    : option (t * OrderBook) :=
  go ← should_trade self (current_time d) (random_trade d);
  if negb go then Some (self, order_book)
  else
    let mid_price := get_mid_price order_book in
    let side := if choice_buy d then "BUY"%string else "SELL"%string in
    let size := generate_order_size self (power d) in
    let is_market_order := Qltb (random_market d) (market_order_probability self) in
    '(self, order_book) ←
      (if is_market_order then
         let '(_, order_book) :=
           add_order_api (clock d) side 0 size "MARKET" (name self) order_book in
         Some (self, order_book)
       else
         let limit_price := generate_limit_price self (betavariate d) mid_price side in
         let '((success, order_id), order_book) :=
           add_order_api (clock d) side limit_price size "LIMIT" (name self) order_book in
         match success, order_id with
         | true, Some order_id =>
             if decide (is_Some (order_map order_book !! order_id)) then
               p ← MarketParticipant.track order_id order_book (participant self);
               Some (set_participant p self, order_book)
             else Some (self, order_book)
         | _, _ => Some (self, order_book)
         end);
    Some (set_last_trade_time (end_time d) self, order_book).

End externals.

End RandomTrader.

(** A submission is a quote of the market maker [self]: a LIMIT order in its
    name with a size of its range. *)
Definition quote_of (self : MarketMaker.t) (op : Op) : Prop :=
  match op with
  | Submit _ _ _ q ty who =>
      ty = "LIMIT"%string /\ who = MarketMaker.name self /\
      (MarketMaker.size_range self).1 <= q <= (MarketMaker.size_range self).2
  | Cancel _ => False
  end.

(** The market maker [self] tracking the ids [d]. *)
Definition tracking (d : list Z) (self : MarketMaker.t) : MarketMaker.t :=
  MarketMaker.set_participant
    (MarketParticipant.set_active_orders d (MarketMaker.participant self)) self.

(** * Sample runs *)

(** A clock whose [n]-th reading is [k + n]. *)
Definition at_time (k : Z) (n : nat) : Q := inject_Z (k + Z.of_nat n).

Definition tick : nat -> Q := at_time 0.

(** A bid at 99 and an ask at 101 rest side by side. *)
Definition two_sided : OrderBook :=
  run [Submit tick "BUY" 99 5 "LIMIT" "MM1";
       Submit tick "SELL" 101 7 "LIMIT" "MM1"] __init__.

(** Two bids at the same price. *)
Definition same_price : OrderBook :=
  run [Submit tick "BUY" 100 5 "LIMIT" "MM1";
       Submit tick "BUY" 100 3 "LIMIT" "User"] __init__.

(** A bid and an ask at the same price and size: both are fully filled. *)
Definition filled_pair : OrderBook :=
  run [Submit tick "BUY" 100 5 "LIMIT" "MM1";
       Submit tick "SELL" 100 5 "LIMIT" "User"] __init__.

(** A single ask of 10 at 100. *)
Definition one_ask : OrderBook :=
  run [Submit tick "SELL" 100 10 "LIMIT" "MM1"] __init__.

(** Three asks: two at 100, submitted at times 10 and 20, and one at 99
    submitted at time 30. *)
Definition three_asks : OrderBook :=
  run [Submit (at_time 10) "SELL" 100 5 "LIMIT" "MM1";
       Submit (at_time 20) "SELL" 100 5 "LIMIT" "User";
       Submit (at_time 30) "SELL" 99 5 "LIMIT" "MM1"] __init__.

(** What a queue shows of its orders, in heap order: id and quantity. *)
Definition glance (h : list entry) : list (Z * Z) :=
  map (fun e => (order_id (entry_order e), quantity (entry_order e))) h.

Definition glance_trade (t : Trade) : Q * Z * string :=
  (t_price t, t_quantity t, t_side t).

(** A market maker with the defaults on the fresh engine, a clock for each
    of its submissions, and a [round] that leaves its argument alone. *)
Definition ticks (k : nat) : nat -> Q := at_time (Z.of_nat k).

Definition no_round (x : Q) (ndigits : Z) : Q := x.

Definition first_quotes : option (MarketMaker.t * OrderBook) :=
  MarketMaker.act (float_ops := exact_arithmetic) (fun _ => 0%Q) no_round (fun _ => 0) ticks
    (MarketMaker.default "MM1") __init__.

(** A market maker that tracks the two orders of [two_sided]. *)
Definition tracking_two_sided : MarketMaker.t :=
  MarketMaker.set_participant (MarketParticipant.mk "MM1" [1; 2] None)
    (MarketMaker.default "MM1").

(** The draws of a call of [act] of a random trader that trades, buys, and
    submits a LIMIT order of half the maximum size. *)
Definition limit_draws : RandomTrader.Draws :=
  RandomTrader.mkDraws 1 0 true (1 # 2) (1 # 2) (1 # 2) tick 2.

(** The doubles written [0.1], [0.2], [1.0000000000000002] and
    [0.8333333333333333]. *)
Definition tenth : Q := 3602879701896397 # 36028797018963968.

Definition fifth : Q := 3602879701896397 # 18014398509481984.

Definition next_after_one : Q := 4503599627370497 # 4503599627370496.

Definition five_sixths : Q := 3752999689475413 # 4503599627370496.

(** A bid at 0.1 and an ask at 0.2; a bid at 1.0 and an ask one step of the
    mantissa above. *)
Definition tenths : OrderBook :=
  run [Submit tick "BUY" tenth 5 "LIMIT" "MM1";
       Submit tick "SELL" fifth 7 "LIMIT" "MM1"] __init__.

Definition narrow_spread : OrderBook :=
  run [Submit tick "BUY" 1 5 "LIMIT" "MM1";
       Submit tick "SELL" next_after_one 7 "LIMIT" "MM1"] __init__.

Example heapq_push_pop :
  Heapq.heappop Z.ltb (Heapq.heappush Z.ltb (Heapq.heappush Z.ltb (Heapq.heappush Z.ltb [] 5) 3) 4)
  = Some (3, [4; 5]).
Proof. reflexivity. Qed.

Example heapq_heapify :
  Heapq.heapify Z.ltb [9; 7; 8; 1; 2; 3] = [1; 2; 3; 7; 9; 8].
Proof. reflexivity. Qed.

(** The ask at 99 is pushed last and sifts to the front of the heap. *)
Example three_asks_heap : glance (asks three_asks) = [(3, 5); (2, 5); (1, 5)].
Proof. reflexivity. Qed.

(** Price, then time: a market buy of 7 takes the ask at 99, then the earlier
    of the two asks at 100. *)
Example market_buy_price_time :
  let s := (add_order_api (at_time 40) "BUY" 0 7 "MARKET" "User" three_asks).2 in
  glance (asks s) = [(1, 3); (2, 5)] /\
  map glance_trade (trades s) = [(99%Q, 5, "BUY"%string); (100%Q, 2, "BUY"%string)].
Proof. split; reflexivity. Qed.

(** Cancelling the best ask rebuilds the heap from the two others. *)
Example cancel_best_ask :
  cancel_order 3 three_asks
  = (true, set_order_map (delete 3 (order_map three_asks))
             (set_asks [(100%Q, 10%Q, mkOrder 1 "SELL" 100 5 "LIMIT" 10 "MM1");
                        (100%Q, 20%Q, mkOrder 2 "SELL" 100 5 "LIMIT" 20 "User")]
                       three_asks)).
Proof. reflexivity. Qed.

(** A later ask that crosses a resting bid trades at its own price and tags
    the trade SELL; the bid keeps the rest. *)
Example limit_cross {float_ops : FloatOps} :
  let s := run [Submit (at_time 10) "BUY" 100 10 "LIMIT" "MM1";
                Submit (at_time 20) "SELL" 99 5 "LIMIT" "User"] __init__ in
  glance (bids s) = [(1, 5)] /\ asks s = [] /\
  map glance_trade (trades s) = [(99%Q, 5, "SELL"%string)] /\
  get_order_book s = ([(100%Q, 5)], []) /\
  get_mid_price s = 99%Q.
Proof. repeat split; reflexivity. Qed.

(** In the arithmetic of doubles the mid price of 0.1 and 0.2 is the double
    written 0.15000000000000002, which is not their mean. *)
Example mid_price_rounds :
  binary64 (tenth + fifth) = Some (1351079888211149 # 4503599627370496)%Q /\
  get_mid_price (float_ops := binary64_arithmetic) tenths
  = (1351079888211149 # 9007199254740992)%Q /\
  get_mid_price (float_ops := exact_arithmetic) tenths
  = ((tenth + fifth) / 2)%Q /\
  ~ ((1351079888211149 # 9007199254740992) == (tenth + fifth) / 2)%Q.
Proof.
  split; [by vm_compute|]. split; [by vm_compute|]. split; [by vm_compute|].
  vm_compute. discriminate.
Qed.

(** Nor is the mid price always strictly inside the spread: between 1.0 and
    the next double it rounds to 1.0, the bid. *)
Example mid_price_on_the_bid :
  no_cross narrow_spread /\
  get_mid_price (float_ops := binary64_arithmetic) narrow_spread = 1%Q.
Proof.
  split; [|by vm_compute].
  intros b a Hb Ha. vm_compute in Hb, Ha.
  apply list_elem_of_singleton in Hb, Ha. subst. by vm_compute.
Qed.

(** The size a random trader with a maximum of 6 draws from
    0.8333333333333333 is 5 in the arithmetic of doubles, where the product
    rounds to 5.0, and 4 in exact arithmetic. *)
Example order_size_rounds :
  RandomTrader.generate_order_size (float_ops := binary64_arithmetic)
    (RandomTrader.__init__ 0 "T" 5 (3 # 10) 6 20) five_sixths = 5 /\
  RandomTrader.generate_order_size (float_ops := exact_arithmetic)
    (RandomTrader.__init__ 0 "T" 5 (3 # 10) 6 20) five_sixths = 4.
Proof. split; by vm_compute. Qed.

(** A size can exceed the maximum: [2 ^ 53 + 3] is not a double, the
    conversion rounds it to [2 ^ 53 + 4], and a draw of 1.0 gives that. *)
Example order_size_above_maximum :
  RandomTrader.generate_order_size (float_ops := binary64_arithmetic)
    (RandomTrader.__init__ 0 "T" 5 (3 # 10) (2 ^ 53 + 3) 20) 1 = 2 ^ 53 + 4.
Proof. by vm_compute. Qed.

(** The first quotes of the default market maker on the fresh engine: three
    levels around the default price 100 with a spread of 1, size 5, six
    orders tracked. *)
Example first_quotes_glance :
  (fun r => (MarketMaker.active_orders r.1, glance (bids r.2), glance (asks r.2),
             map (fun l => Qred l.1) (get_order_book r.2).1,
             map (fun l => Qred l.1) (get_order_book r.2).2)) <$> first_quotes
  = Some ([1; 2; 3; 4; 5; 6], [(1, 5); (3, 5); (5, 5)], [(2, 5); (4, 5); (6, 5)],
          [199 # 2; 595 # 6; 593 # 6]%Q, [201 # 2; 605 # 6; 607 # 6]%Q).
Proof. vm_compute. reflexivity. Qed.

(** A random trader with the defaults that trades on [two_sided], in exact
    arithmetic: a LIMIT BUY of 25 at 99.9, ten basis points under the mid
    price 100, tracked under id 3. *)
Example random_trader_limit :
  (fun r => (RandomTrader.active_orders r.1, glance (bids r.2), glance (asks r.2),
             map (fun l => Qred l.1) (get_order_book r.2).1,
             RandomTrader.last_trade_time r.1))
    <$> RandomTrader.act (float_ops := exact_arithmetic) (fun _ => 0%Q) no_round
          limit_draws (RandomTrader.default 0 "T") two_sided
  = Some ([3], [(3, 25); (1, 5)], [(2, 7)], [999 # 10; 99 # 1]%Q, 2%Q).
Proof. vm_compute. reflexivity. Qed.

(** * The theory of [heapq] *)

Section heapq_perm.
Context {A : Type}.
Variable lt : A -> A -> bool.
Implicit Types (heap h : list A) (x y newitem : A).

Lemma insert_move h i j x y :
  h !! j = Some y -> (i < length h)%nat ->
  <[j := x]> (<[i := y]> h) ≡ₚ <[i := x]> h.
Proof.
  intros Hj Hi. destruct (decide (i = j)) as [->|Hne].
  - by rewrite list_insert_insert_eq.
  - rewrite <- (list_insert_insert_eq h i y x).
    apply Permutation_insert_swap.
    + by apply list_lookup_insert_eq.
    + by rewrite list_lookup_insert_ne.
Qed.

Lemma _siftdown_loop_perm fuel : forall h startpos pos newitem,
  (pos < length h)%nat ->
  Heapq._siftdown_loop lt fuel h startpos pos newitem ≡ₚ <[pos := newitem]> h.
Proof.
  induction fuel as [|fuel IH]; intros h startpos pos newitem Hpos;
    cbn [Heapq._siftdown_loop]; [done|].
  destruct (startpos <? pos)%nat; [|done].
  destruct (h !! ((pos - 1) / 2)%nat) as [parent|] eqn:Hp; [|done].
  destruct (lt newitem parent); [|done].
  rewrite IH.
  - by apply insert_move.
  - rewrite length_insert. by apply lookup_lt_Some in Hp.
Qed.

Lemma _siftdown_perm h startpos pos :
  Heapq._siftdown lt h startpos pos ≡ₚ h.
Proof.
  unfold Heapq._siftdown. destruct (h !! pos) as [newitem|] eqn:Hp; [|done].
  rewrite _siftdown_loop_perm by (by apply lookup_lt_Some in Hp).
  by rewrite list_insert_id.
Qed.

Lemma _siftup_loop_spec fuel : forall h pos h' leaf,
  (pos < length h)%nat ->
  Heapq._siftup_loop lt fuel h pos = (h', leaf) ->
  (leaf < length h')%nat /\ (pos <= leaf)%nat /\ length h' = length h /\
  forall newitem, <[leaf := newitem]> h' ≡ₚ <[pos := newitem]> h.
Proof.
  induction fuel as [|fuel IH]; intros h pos h' leaf Hpos;
    cbn [Heapq._siftup_loop].
  { intros [= <- <-]. done. }
  destruct (h !! (2 * pos + 1)%nat) as [lchild|] eqn:Hl.
  2:{ intros [= <- <-]. done. }
  assert (Hstep : forall c child, h !! c = Some child -> (pos < c)%nat ->
            Heapq._siftup_loop lt fuel (<[pos := child]> h) c = (h', leaf) ->
            (leaf < length h')%nat /\ (pos <= leaf)%nat /\ length h' = length h /\
            forall newitem, <[leaf := newitem]> h' ≡ₚ <[pos := newitem]> h).
  { intros c child Hc Hlt Hrun.
    apply IH in Hrun as (H1 & H2 & H3 & H4).
    - rewrite length_insert in H3. split; [done|]. split; [lia|]. split; [done|].
      intros newitem. rewrite H4. by apply insert_move.
    - rewrite length_insert. by apply lookup_lt_Some in Hc. }
  destruct (h !! (2 * pos + 1 + 1)%nat) as [rchild|] eqn:Hr.
  - destruct (negb (lt lchild rchild)); intros Hrun.
    + eapply Hstep; [exact Hr|lia|done].
    + eapply Hstep; [exact Hl|lia|done].
  - intros Hrun. eapply Hstep; [exact Hl|lia|done].
Qed.

Lemma _siftup_perm h pos : Heapq._siftup lt h pos ≡ₚ h.
Proof.
  unfold Heapq._siftup. destruct (h !! pos) as [newitem|] eqn:Hp; [|done].
  destruct (Heapq._siftup_loop lt (length h) h pos) as [h' leaf] eqn:Hrun.
  apply _siftup_loop_spec in Hrun as (H1 & H2 & H3 & H4);
    [|by apply lookup_lt_Some in Hp].
  rewrite _siftdown_perm, H4. by rewrite list_insert_id.
Qed.

Lemma heappush_perm h x : Heapq.heappush lt h x ≡ₚ x :: h.
Proof.
  unfold Heapq.heappush. rewrite _siftdown_perm.
  by rewrite (comm (++)).
Qed.

Lemma heappop_spec h x h' :
  Heapq.heappop lt h = Some (x, h') -> h !! 0%nat = Some x /\ h ≡ₚ x :: h'.
Proof.
  unfold Heapq.heappop. destruct (last h) as [lastelt|] eqn:Hlast; [|done].
  apply last_Some in Hlast as [front ->]. rewrite removelast_last.
  destruct front as [|returnitem rest].
  - intros [= <- <-]. done.
  - intros [= <- <-]. split; [done|].
    rewrite _siftup_perm. simpl. apply Permutation_skip. by rewrite (comm (++)).
Qed.

Lemma heappop_is_Some h : h <> [] -> is_Some (Heapq.heappop lt h).
Proof.
  intros Hne. unfold Heapq.heappop.
  destruct (last h) as [lastelt|] eqn:Hlast.
  - destruct (removelast h); eauto.
  - by apply last_None in Hlast.
Qed.

Lemma heapify_loop_perm i : forall h, Heapq.heapify_loop lt i h ≡ₚ h.
Proof.
  induction i as [|i IH]; intros h; simpl; [done|].
  by rewrite IH, _siftup_perm.
Qed.

Lemma heapify_perm h : Heapq.heapify lt h ≡ₚ h.
Proof. apply heapify_loop_perm. Qed.

End heapq_perm.

Section heapq_heap.
Context {A : Type}.
Variable lt : A -> A -> bool.
Hypothesis lt_irrefl : forall x, lt x x = false.
Hypothesis lt_asym : forall x y, lt x y = true -> lt y x = false.
Hypothesis le_trans : forall x y z,
  Heapq.le lt x y -> Heapq.le lt y z -> Heapq.le lt x z.
Implicit Types (heap h : list A) (x y newitem : A).

Local Abbreviation le := (Heapq.le lt).
Local Abbreviation child_of := Heapq.child_of.
Local Abbreviation below := Heapq.below.
Local Abbreviation heap_from := (Heapq.heap_from lt).
Local Abbreviation is_heap := (Heapq.is_heap lt).

Lemma le_refl x : le x x.
Proof. apply lt_irrefl. Qed.

Lemma lt_le x y : lt x y = true -> le x y.
Proof. apply lt_asym. Qed.

Lemma below_le root pos : below root pos -> (root <= pos)%nat.
Proof. induction 1 as [|p c _ IH [->| ->]]; lia. Qed.

Lemma below_parent root pos :
  below root pos -> (root < pos)%nat ->
  below root ((pos - 1) / 2) /\ child_of ((pos - 1) / 2) pos.
Proof.
  intros [|p c Hp Hc] Hlt; [lia|].
  assert (((c - 1) / 2)%nat = p) as ->; [|done].
  destruct Hc as [->| ->].
  - replace (2 * p + 1 - 1)%nat with (p * 2)%nat by lia. apply Nat.div_mul. lia.
  - replace (2 * p + 2 - 1)%nat with (1 + p * 2)%nat by lia.
    rewrite Nat.div_add by lia. done.
Qed.

Lemma below_0 pos : below 0 pos.
Proof.
  induction pos as [pos IH] using lt_wf_ind.
  destruct pos as [|n]; [constructor|].
  destruct (Nat.Even_or_Odd n) as [[k ->]|[k ->]].
  - apply (Heapq.below_child _ k); [apply IH; lia|left; lia].
  - apply (Heapq.below_child _ k); [apply IH; lia|right; lia].
Qed.

Lemma child_of_inj p p' c : child_of p c -> child_of p' c -> p = p'.
Proof. unfold Heapq.child_of. lia. Qed.

Lemma _siftdown_loop_insert fuel h startpos pos newitem :
  Heapq._siftdown_loop lt fuel (<[pos := newitem]> h) startpos pos newitem
  = Heapq._siftdown_loop lt fuel h startpos pos newitem.
Proof.
  destruct fuel as [|fuel]; cbn [Heapq._siftdown_loop].
  { apply list_insert_insert_eq. }
  destruct (startpos <? pos)%nat eqn:Hlt; [|apply list_insert_insert_eq].
  apply Nat.ltb_lt in Hlt.
  assert (((pos - 1) / 2)%nat <> pos) as Hne.
  { intros Heq. assert ((pos - 1) / 2 <= pos - 1)%nat by (apply Nat.Div0.div_le_upper_bound; lia). lia. }
  rewrite list_lookup_insert_ne by done.
  destruct (h !! ((pos - 1) / 2)%nat) as [parent|]; [|apply list_insert_insert_eq].
  rewrite !list_insert_insert_eq. done.
Qed.

(** Reading a list after one or two writes. *)
Ltac read_insert H :=
  repeat first
    [ rewrite list_lookup_insert_ne in H by (unfold Heapq.child_of in *; lia)
    | rewrite list_lookup_insert_eq in H
        by (rewrite ?length_insert; unfold Heapq.child_of in *; lia) ].

(** [_siftdown] restores the invariant when the only edge that may be wrong
    is the one into [pos]. *)
Lemma _siftdown_loop_heap fuel : forall h startpos pos newitem,
  (pos <= fuel)%nat ->
  below startpos pos ->
  h !! pos = Some newitem ->
  (forall p c x y, (startpos <= p)%nat -> child_of p c -> c <> pos ->
     h !! p = Some x -> h !! c = Some y -> le x y) ->
  (forall g c x y, (startpos <= g)%nat -> child_of g pos -> child_of pos c ->
     h !! g = Some x -> h !! c = Some y -> le x y) ->
  heap_from startpos (Heapq._siftdown_loop lt fuel h startpos pos newitem).
Proof.
  induction fuel as [|fuel IH]; intros h startpos pos newitem Hfuel Hbelow Hpos Ha Hb;
    cbn [Heapq._siftdown_loop].
  { rewrite list_insert_id by done. intros p c x y Hp Hc. apply Ha; [done|done|].
    unfold Heapq.child_of in Hc. lia. }
  destruct (startpos <? pos)%nat eqn:Hlt.
  2:{ apply Nat.ltb_ge in Hlt. rewrite list_insert_id by done.
      intros p c x y Hp Hc. apply Ha; [done|done|].
      unfold Heapq.child_of in Hc. lia. }
  apply Nat.ltb_lt in Hlt.
  destruct (below_parent _ _ Hbelow Hlt) as [Hbp Hcp].
  pose proof (below_le _ _ Hbp) as Hsp.
  set (pp := ((pos - 1) / 2)%nat) in *.
  assert (pp < pos)%nat as Hpp by (unfold Heapq.child_of in Hcp; lia).
  pose proof (lookup_lt_Some _ _ _ Hpos) as Hlen.
  destruct (h !! pp) as [parent|] eqn:Hparent.
  2:{ apply lookup_ge_None in Hparent. lia. }
  destruct (lt newitem parent) eqn:Hcmp.
  2:{ rewrite list_insert_id by done. intros p c x y Hp Hc Hx Hy.
      destruct (decide (c = pos)) as [->|Hne]; [|by eapply Ha].
      assert (p = pp) as -> by (by eapply child_of_inj).
      unfold Heapq.le. congruence. }
  rewrite <- _siftdown_loop_insert.
  assert (le newitem parent) as Hnp by (by apply lt_le).
  apply IH.
  - lia.
  - done.
  - apply list_lookup_insert_eq. rewrite length_insert. lia.
  - intros p c x y Hp Hc Hne Hx Hy.
    destruct (decide (p = pp)) as [->|Hp1].
    + read_insert Hx. injection Hx as <-.
      destruct (decide (c = pos)) as [->|Hc1].
      * read_insert Hy. by injection Hy as <-.
      * read_insert Hy. eapply le_trans; [exact Hnp|]. by eapply (Ha pp c).
    + destruct (decide (p = pos)) as [->|Hp2].
      * read_insert Hx. injection Hx as <-.
        assert (c <> pos) by (unfold Heapq.child_of in Hc; lia).
        read_insert Hy. by eapply (Hb pp c).
      * read_insert Hx.
        destruct (decide (c = pos)) as [->|Hc1].
        { exfalso. apply Hp1. by eapply child_of_inj. }
        read_insert Hy. by eapply Ha.
  - intros g c x y Hg Hgp Hpc Hx Hy.
    assert (g < pp)%nat by (unfold Heapq.child_of in Hgp; lia).
    assert (pp < c)%nat by (unfold Heapq.child_of in Hpc; lia).
    read_insert Hx.
    assert (le x parent) as Hxp by (eapply (Ha g pp); [done|done|lia|done|done]).
    destruct (decide (c = pos)) as [->|Hc1].
    + read_insert Hy. by injection Hy as <-.
    + read_insert Hy. eapply le_trans; [exact Hxp|]. by eapply (Ha pp c).
Qed.

(** The first loop of [_siftup] leaves the invariant intact below
    [startpos], with the moved child duplicated in the hole. *)
Lemma _siftup_loop_heap startpos fuel : forall h pos h' leaf,
  (length h <= fuel + pos)%nat ->
  below startpos pos ->
  (forall p c x y, (startpos <= p)%nat -> child_of p c ->
     p <> pos \/ (startpos < pos)%nat ->
     h !! p = Some x -> h !! c = Some y -> le x y) ->
  Heapq._siftup_loop lt fuel h pos = (h', leaf) ->
  below startpos leaf /\
  (forall c, child_of leaf c -> (length h' <= c)%nat) /\
  (forall p c x y, (startpos <= p)%nat -> child_of p c -> p <> leaf ->
     h' !! p = Some x -> h' !! c = Some y -> le x y).
Proof.
  induction fuel as [|fuel IH]; intros h pos h' leaf Hfuel Hbelow HP;
    cbn [Heapq._siftup_loop].
  { intros [= <- <-]. split; [done|]. split.
    - intros c Hc. unfold Heapq.child_of in Hc. lia.
    - intros p c x y Hp Hc Hne. apply HP; auto. }
  destruct (h !! (2 * pos + 1)%nat) as [lchild|] eqn:Hl.
  2:{ intros [= <- <-]. apply lookup_ge_None in Hl. split; [done|]. split.
      - intros c Hc. unfold Heapq.child_of in Hc. lia.
      - intros p c x y Hp Hc Hne. apply HP; auto. }
  pose proof (below_le _ _ Hbelow) as Hsp.
  pose proof (lookup_lt_Some _ _ _ Hl) as Hlen.
  assert (Hstep : forall c child, h !! c = Some child -> child_of pos c ->
            (forall c' y, child_of pos c' -> h !! c' = Some y -> le child y) ->
            Heapq._siftup_loop lt fuel (<[pos := child]> h) c = (h', leaf) ->
            below startpos leaf /\
            (forall c, child_of leaf c -> (length h' <= c)%nat) /\
            (forall p c x y, (startpos <= p)%nat -> child_of p c -> p <> leaf ->
               h' !! p = Some x -> h' !! c = Some y -> le x y)).
  { intros c child Hc Hpc Hmin Hrun.
    assert (pos < c)%nat by (unfold Heapq.child_of in Hpc; lia).
    eapply IH; [| |clear Hrun|exact Hrun].
    - rewrite length_insert. lia.
    - by eapply Heapq.below_child.
    - intros p k x y Hp Hk _ Hx Hy.
      destruct (decide (p = pos)) as [->|Hp1].
      + read_insert Hx. injection Hx as <-.
        assert (k <> pos) by (unfold Heapq.child_of in Hk; lia).
        read_insert Hy. by eapply Hmin.
      + read_insert Hx.
        destruct (decide (k = pos)) as [->|Hk1].
        * read_insert Hy. injection Hy as <-.
          assert (startpos < pos)%nat by (unfold Heapq.child_of in Hk; lia).
          destruct (h !! pos) as [old|] eqn:Hold; [|apply lookup_ge_None in Hold; lia].
          eapply le_trans; [eapply (HP p pos); eauto|eapply (HP pos c); eauto].
        * read_insert Hy. eapply (HP p k); eauto. }
  destruct (h !! (2 * pos + 1 + 1)%nat) as [rchild|] eqn:Hr.
  - destruct (lt lchild rchild) eqn:Hcmp; cbn [negb]; intros Hrun.
    + eapply Hstep; [exact Hl|left; lia| |exact Hrun].
      intros c' y [->| ->] Hy.
      * rewrite Hl in Hy. injection Hy as <-. apply le_refl.
      * replace (2 * pos + 2)%nat with (2 * pos + 1 + 1)%nat in Hy by lia.
        rewrite Hr in Hy. injection Hy as <-. by apply lt_le.
    + eapply Hstep; [exact Hr|right; lia| |exact Hrun].
      intros c' y [->| ->] Hy.
      * rewrite Hl in Hy. injection Hy as <-. exact Hcmp.
      * replace (2 * pos + 2)%nat with (2 * pos + 1 + 1)%nat in Hy by lia.
        rewrite Hr in Hy. injection Hy as <-. apply le_refl.
  - intros Hrun. apply lookup_ge_None in Hr.
    eapply Hstep; [exact Hl|left; lia| |exact Hrun].
    intros c' y [->| ->] Hy.
    + rewrite Hl in Hy. injection Hy as <-. apply le_refl.
    + apply lookup_lt_Some in Hy. lia.
Qed.

Lemma _siftup_heap h pos :
  heap_from (S pos) h -> heap_from pos (Heapq._siftup lt h pos).
Proof.
  intros Hh. unfold Heapq._siftup.
  destruct (h !! pos) as [newitem|] eqn:Hpos.
  2:{ intros p c x y Hp Hc Hx Hy. apply (Hh p c); auto.
      destruct (decide (p = pos)) as [->|]; [congruence|lia]. }
  pose proof (lookup_lt_Some _ _ _ Hpos) as Hlen.
  destruct (Heapq._siftup_loop lt (length h) h pos) as [h' leaf] eqn:Hrun.
  pose proof (_siftup_loop_spec lt _ _ _ _ _ Hlen Hrun) as (Hleaf & _ & _ & _).
  apply (_siftup_loop_heap pos) in Hrun as (Hbelow & Hnochild & Hrest).
  - unfold Heapq._siftdown. rewrite list_lookup_insert_eq by done.
    apply _siftdown_loop_heap.
    + done.
    + done.
    + by apply list_lookup_insert_eq.
    + intros p c x y Hp Hc Hne Hx Hy.
      assert (p <> leaf).
      { intros ->. apply lookup_lt_Some in Hy. rewrite length_insert in Hy.
        apply Hnochild in Hc. lia. }
      read_insert Hx. read_insert Hy. by eapply Hrest.
    + intros g c x y _ _ Hc _ Hy.
      apply lookup_lt_Some in Hy. rewrite length_insert in Hy.
      apply Hnochild in Hc. lia.
  - lia.
  - constructor.
  - intros p c x y Hp Hc [Hne|Hlt]; [|lia]. apply Hh. lia. done.
Qed.

Lemma heapify_loop_heap i : forall h,
  heap_from i h -> is_heap (Heapq.heapify_loop lt i h).
Proof.
  induction i as [|i IH]; intros h Hh; cbn [Heapq.heapify_loop]; [done|].
  apply IH. by apply _siftup_heap.
Qed.

Lemma heapify_heap h : is_heap (Heapq.heapify lt h).
Proof.
  apply heapify_loop_heap. intros p c x y Hp Hc _ Hy.
  apply lookup_lt_Some in Hy.
  pose proof (Nat.div_mod_eq (length h) 2) as Hdiv.
  pose proof (Nat.mod_upper_bound (length h) 2) as Hmod.
  unfold Heapq.child_of in Hc. lia.
Qed.

Lemma heappush_heap h x : is_heap h -> is_heap (Heapq.heappush lt h x).
Proof.
  intros Hh. unfold Heapq.heappush, Heapq._siftdown.
  rewrite length_app. cbn [length].
  replace (length h + 1 - 1)%nat with (length h) by lia.
  rewrite list_lookup_middle by done.
  apply _siftdown_loop_heap.
  - done.
  - apply below_0.
  - by apply list_lookup_middle.
  - intros p c y z _ Hc Hne Hy Hz.
    pose proof (lookup_lt_Some _ _ _ Hz) as Hlen.
    rewrite length_app in Hlen. cbn [length] in Hlen.
    assert (p < c)%nat by (unfold Heapq.child_of in Hc; lia).
    rewrite lookup_app_l in Hy by lia. rewrite lookup_app_l in Hz by lia.
    by eapply (Hh p c); [lia|..].
  - intros g c y z _ _ Hc _ Hz.
    apply lookup_lt_Some in Hz. rewrite length_app in Hz. cbn [length] in Hz.
    unfold Heapq.child_of in Hc. lia.
Qed.

Lemma heappop_heap h x h' :
  is_heap h -> Heapq.heappop lt h = Some (x, h') -> is_heap h'.
Proof.
  intros Hh. unfold Heapq.heappop.
  destruct (last h) as [lastelt|] eqn:Hlast; [|done].
  apply last_Some in Hlast as [front ->]. rewrite removelast_last.
  destruct front as [|returnitem rest]; intros [= <- <-].
  { intros p c y z _ _ Hy. done. }
  apply _siftup_heap. intros p c y z Hp Hc Hy Hz.
  assert (p < c)%nat by (unfold Heapq.child_of in Hc; lia).
  pose proof (lookup_lt_Some _ _ _ Hz) as Hlen. cbn [length] in Hlen.
  apply (Hh p c); [lia|done| |].
  - destruct p as [|p]; [lia|]. cbn in Hy |- *. by apply lookup_app_l_Some.
  - destruct c as [|c]; [lia|]. cbn in Hz |- *. by apply lookup_app_l_Some.
Qed.

(** The first item of a heap is a least item. *)
Lemma heap_root_min h x :
  is_heap h -> h !! 0%nat = Some x -> forall y, y ∈ h -> le x y.
Proof.
  intros Hh Hx y [i Hy]%list_elem_of_lookup. revert y Hy.
  induction i as [i IH] using lt_wf_ind. intros y Hy.
  destruct i as [|n]; [rewrite Hx in Hy; injection Hy as <-; apply le_refl|].
  destruct (below_parent 0 (S n) (below_0 _)) as [_ Hc]; [lia|].
  set (pp := ((S n - 1) / 2)%nat) in *.
  assert (pp < S n)%nat as Hpp by (unfold Heapq.child_of in Hc; lia).
  pose proof (lookup_lt_Some _ _ _ Hy) as Hlen.
  destruct (h !! pp) as [z|] eqn:Hz; [|apply lookup_ge_None in Hz; lia].
  eapply le_trans; [by eapply (IH pp)|].
  eapply (Hh pp (S n)); [lia|done|done|done].
Qed.

End heapq_heap.

(** * The order of the queue entries *)

Lemma Qltb_lt x y : Qltb x y = true <-> (x < y)%Q.
Proof.
  unfold Qltb. rewrite negb_true_iff, <- not_true_iff_false, Qle_bool_iff.
  split; [apply Qnot_le_lt|apply Qlt_not_le].
Qed.

Lemma Qltb_ge x y : Qltb x y = false <-> (y <= x)%Q.
Proof. unfold Qltb. by rewrite negb_false_iff, Qle_bool_iff. Qed.

Lemma Qeq_bool_false x y : Qeq_bool x y = false <-> ~ (x == y)%Q.
Proof. by rewrite <- not_true_iff_false, Qeq_bool_iff. Qed.

Lemma entry_lt_spec x y :
  entry_lt x y = true <->
  (entry_key x < entry_key y \/
   (entry_key x == entry_key y /\
    (entry_time x < entry_time y \/
     (entry_time x == entry_time y /\
      timestamp (entry_order x) < timestamp (entry_order y)))))%Q.
Proof.
  unfold entry_lt, Order_lt.
  destruct (Qeq_bool (entry_key x) (entry_key y)) eqn:Hk; cbn [negb].
  - apply Qeq_bool_iff in Hk.
    destruct (Qeq_bool (entry_time x) (entry_time y)) eqn:Ht; cbn [negb].
    + apply Qeq_bool_iff in Ht. rewrite Qltb_lt. split; [auto|].
      intros [?|[_ [?|[_ ?]]]]; [lra|lra|done].
    + apply Qeq_bool_false in Ht. rewrite Qltb_lt. split; [auto|].
      intros [?|[_ [?|[? _]]]]; [lra|done|done].
  - apply Qeq_bool_false in Hk. rewrite Qltb_lt. split; [auto|].
    intros [?|[? _]]; done.
Qed.

Lemma entry_le_spec x y :
  Heapq.le entry_lt x y <->
  (entry_key x < entry_key y \/
   (entry_key x == entry_key y /\
    (entry_time x < entry_time y \/
     (entry_time x == entry_time y /\
      timestamp (entry_order x) <= timestamp (entry_order y)))))%Q.
Proof.
  unfold Heapq.le. rewrite <- not_true_iff_false, entry_lt_spec.
  split.
  - intros H.
    destruct (Qlt_le_dec (entry_key x) (entry_key y)) as [|Hk]; [by left|right].
    destruct (Qlt_le_dec (entry_key y) (entry_key x)) as [|Hk']; [tauto|].
    split; [lra|].
    destruct (Qlt_le_dec (entry_time x) (entry_time y)) as [|Ht]; [by left|right].
    destruct (Qlt_le_dec (entry_time y) (entry_time x)) as [|Ht'].
    { exfalso. apply H. right. split; [lra|by left]. }
    split; [lra|].
    destruct (Qlt_le_dec (timestamp (entry_order y)) (timestamp (entry_order x)));
      [|done].
    exfalso. apply H. right. split; [lra|]. right. split; [lra|done].
  - intros H H'. lra.
Qed.

Lemma entry_lt_irrefl x : entry_lt x x = false.
Proof. apply not_true_iff_false. rewrite entry_lt_spec. lra. Qed.

Lemma entry_lt_asym x y : entry_lt x y = true -> entry_lt y x = false.
Proof.
  rewrite <- not_true_iff_false, !entry_lt_spec. lra.
Qed.

Lemma entry_le_trans x y z :
  Heapq.le entry_lt x y -> Heapq.le entry_lt y z -> Heapq.le entry_lt x z.
Proof. rewrite !entry_le_spec. lra. Qed.

Lemma entry_le_key x y : Heapq.le entry_lt x y -> (entry_key x <= entry_key y)%Q.
Proof. rewrite entry_le_spec. lra. Qed.

Lemma entry_heappush_heap h e :
  Heapq.is_heap entry_lt h -> Heapq.is_heap entry_lt (Heapq.heappush entry_lt h e).
Proof.
  apply heappush_heap; [apply entry_lt_asym|apply entry_le_trans].
Qed.

Lemma entry_heapify_heap h : Heapq.is_heap entry_lt (Heapq.heapify entry_lt h).
Proof.
  apply heapify_heap; [apply entry_lt_irrefl|apply entry_lt_asym|apply entry_le_trans].
Qed.

Lemma entry_root_min e rest e' :
  Heapq.is_heap entry_lt (e :: rest) -> e' ∈ e :: rest -> Heapq.le entry_lt e e'.
Proof.
  intros Hh He'.
  eapply heap_root_min; [apply entry_lt_irrefl|apply entry_le_trans|exact Hh|done|done].
Qed.

(** * The queue operations of the engine *)

Lemma pop_nil : pop [] = [].
Proof. reflexivity. Qed.

Lemma pop_cons e rest : e :: rest ≡ₚ e :: pop (e :: rest).
Proof.
  unfold pop.
  destruct (heappop_is_Some entry_lt (e :: rest)) as [[x h'] Hpop]; [done|].
  rewrite Hpop. apply heappop_spec in Hpop as [[= <-] Hperm]. done.
Qed.

Lemma pop_perm e rest : pop (e :: rest) ≡ₚ rest.
Proof. eapply Permutation_cons_inv. symmetry. apply pop_cons. Qed.

Lemma pop_length h : length (pop h) = (length h - 1)%nat.
Proof.
  destruct h as [|e rest]; [done|]. rewrite pop_perm. cbn [length]. lia.
Qed.

Lemma pop_heap h : Heapq.is_heap entry_lt h -> Heapq.is_heap entry_lt (pop h).
Proof.
  intros Hh. unfold pop.
  destruct (Heapq.heappop entry_lt h) as [[x h']|] eqn:Hpop; [|done].
  eapply heappop_heap;
    [apply entry_lt_irrefl|apply entry_lt_asym|apply entry_le_trans|exact Hh|exact Hpop].
Qed.

Lemma pop_elem_of e h : e ∈ pop h -> e ∈ h.
Proof.
  destruct h as [|x rest]; [done|]. rewrite pop_perm. apply list_elem_of_further.
Qed.

Lemma set_best_quantity_heap q h :
  Heapq.is_heap entry_lt h -> Heapq.is_heap entry_lt (set_best_quantity q h).
Proof.
  destruct h as [|[[p t] o] rest]; [done|]. cbn [set_best_quantity].
  intros Hh i c x y Hi Hc Hx Hy.
  assert (c <> 0%nat) by (unfold Heapq.child_of in Hc; lia).
  destruct c as [|c]; [done|]. cbn in Hy.
  destruct i as [|i].
  - injection Hx as <-.
    change (Heapq.le entry_lt (p, t, o) y).
    by eapply (Hh 0%nat (S c)).
  - by eapply (Hh (S i) (S c)).
Qed.

Lemma set_best_quantity_length q h : length (set_best_quantity q h) = length h.
Proof. by destruct h as [|[[p t] o] rest]. Qed.

Lemma set_best_quantity_cons q p t o rest :
  set_best_quantity q ((p, t, o) :: rest) = (p, t, set_quantity q o) :: rest.
Proof. reflexivity. Qed.

Lemma set_best_quantity_Forall (P : entry -> Prop) q h :
  (forall p t o, P (p, t, o) -> P (p, t, set_quantity q o)) ->
  Forall P h -> Forall P (set_best_quantity q h).
Proof.
  intros HP. destruct h as [|[[p t] o] rest]; [done|]. cbn [set_best_quantity].
  rewrite !Forall_cons. intros [? ?]. split; [by apply HP|done].
Qed.

Lemma bid_entry_set_quantity q p t o :
  bid_entry (p, t, o) -> bid_entry (p, t, set_quantity q o).
Proof. done. Qed.

Lemma ask_entry_set_quantity q p t o :
  ask_entry (p, t, o) -> ask_entry (p, t, set_quantity q o).
Proof. done. Qed.

Lemma pop_Forall (P : entry -> Prop) h : Forall P h -> Forall P (pop h).
Proof.
  rewrite !Forall_forall. intros HP e He. apply HP. by apply pop_elem_of.
Qed.

Lemma settle_heap q h :
  Heapq.is_heap entry_lt h -> Heapq.is_heap entry_lt (settle q h).
Proof.
  intros Hh. unfold settle.
  destruct (q =? 0); [apply pop_heap|]; by apply set_best_quantity_heap.
Qed.

Lemma settle_Forall (P : entry -> Prop) q h :
  (forall p t o, P (p, t, o) -> P (p, t, set_quantity q o)) ->
  Forall P h -> Forall P (settle q h).
Proof.
  intros HP Hh. unfold settle.
  destruct (q =? 0); [apply pop_Forall|]; by apply set_best_quantity_Forall.
Qed.

Lemma settle_length q h : (length (settle q h) <= length h)%nat.
Proof.
  unfold settle. destruct (q =? 0);
    rewrite ?pop_length, set_best_quantity_length; lia.
Qed.

Lemma settle_length_0 h : length (settle 0 h) = (length h - 1)%nat.
Proof.
  unfold settle. cbn [Z.eqb]. by rewrite pop_length, set_best_quantity_length.
Qed.

Lemma settle_resting q p t o rest :
  resting (settle q ((p, t, o) :: rest))
  ≡ₚ if q =? 0 then resting rest else set_quantity q o :: resting rest.
Proof.
  unfold settle. rewrite set_best_quantity_cons.
  destruct (q =? 0); [|done]. unfold resting. by rewrite pop_perm.
Qed.

(** What the loop bodies leave in each field of the engine. *)

Lemma cross_fields now b a s :
  let trade_quantity := Z.min (quantity b) (quantity a) in
  cross now b a s =
  mkOrderBook
    (settle (quantity b - trade_quantity) (bids s))
    (settle (quantity a - trade_quantity) (asks s))
    (write_quantity a (quantity a - trade_quantity)
       (write_quantity b (quantity b - trade_quantity) (order_map s)))
    (trades s ++ [mkTrade now (price a) trade_quantity
                    (if Qltb (timestamp a) (timestamp b) then "BUY" else "SELL")])
    (next_order_id s)
    (price a).
Proof.
  intros tq. unfold cross, settle. fold tq.
  destruct (quantity b - tq =? 0), (quantity a - tq =? 0); reflexivity.
Qed.

Lemma take_ask_fields now remaining a s :
  let trade_quantity := Z.min remaining (quantity a) in
  take_ask now remaining a s =
  (remaining - trade_quantity,
   mkOrderBook
     (bids s)
     (settle (quantity a - trade_quantity) (asks s))
     (write_quantity a (quantity a - trade_quantity) (order_map s))
     (trades s ++ [mkTrade now (price a) trade_quantity "BUY"])
     (next_order_id s)
     (price a)).
Proof.
  intros tq. unfold take_ask, settle. fold tq.
  destruct (quantity a - tq =? 0); reflexivity.
Qed.

Lemma take_bid_fields now remaining b s :
  let trade_quantity := Z.min remaining (quantity b) in
  take_bid now remaining b s =
  (remaining - trade_quantity,
   mkOrderBook
     (settle (quantity b - trade_quantity) (bids s))
     (asks s)
     (write_quantity b (quantity b - trade_quantity) (order_map s))
     (trades s ++ [mkTrade now (price b) trade_quantity "SELL"])
     (next_order_id s)
     (price b)).
Proof.
  intros tq. unfold take_bid, settle. fold tq.
  destruct (quantity b - tq =? 0); reflexivity.
Qed.

(** * The queues stay heaps with the right keys *)

Lemma queues_ok_cross now b a s : queues_ok s -> queues_ok (cross now b a s).
Proof.
  intros (Hb & Ha & Kb & Ka). rewrite cross_fields. cbn zeta.
  repeat split; cbn [bids asks].
  - by apply settle_heap.
  - by apply settle_heap.
  - apply settle_Forall; [intros; by apply bid_entry_set_quantity|done].
  - apply settle_Forall; [intros; by apply ask_entry_set_quantity|done].
Qed.

Lemma queues_ok_take_ask now remaining a s :
  queues_ok s -> queues_ok (take_ask now remaining a s).2.
Proof.
  intros (Hb & Ha & Kb & Ka). rewrite take_ask_fields. cbn zeta.
  repeat split; cbn [snd bids asks]; [done|by apply settle_heap|done|].
  apply settle_Forall; [intros; by apply ask_entry_set_quantity|done].
Qed.

Lemma queues_ok_take_bid now remaining b s :
  queues_ok s -> queues_ok (take_bid now remaining b s).2.
Proof.
  intros (Hb & Ha & Kb & Ka). rewrite take_bid_fields. cbn zeta.
  repeat split; cbn [snd bids asks]; [by apply settle_heap|done| |done].
  apply settle_Forall; [intros; by apply bid_entry_set_quantity|done].
Qed.

(** The best bid is priced highest and the best ask lowest. *)
Lemma best_bid_highest p t b rest o :
  Heapq.is_heap entry_lt ((p, t, b) :: rest) -> Forall bid_entry ((p, t, b) :: rest) ->
  o ∈ resting ((p, t, b) :: rest) -> (price o <= price b)%Q.
Proof.
  intros Hh Hk [e [-> He]]%list_elem_of_fmap.
  pose proof (entry_le_key _ _ (entry_root_min _ _ _ Hh He)) as Hle.
  rewrite Forall_forall in Hk.
  rewrite (Hk _ He), (Hk (p, t, b)) in Hle by left.
  cbn [entry_order snd] in Hle. lra.
Qed.

Lemma best_ask_lowest p t a rest o :
  Heapq.is_heap entry_lt ((p, t, a) :: rest) -> Forall ask_entry ((p, t, a) :: rest) ->
  o ∈ resting ((p, t, a) :: rest) -> (price a <= price o)%Q.
Proof.
  intros Hh Hk [e [-> He]]%list_elem_of_fmap.
  pose proof (entry_le_key _ _ (entry_root_min _ _ _ Hh He)) as Hle.
  rewrite Forall_forall in Hk.
  rewrite (Hk _ He), (Hk (p, t, a)) in Hle by left.
  done.
Qed.

(** [match_orders] runs until no cross is left. *)
Lemma match_orders_loop_ok fuel : forall clock s,
  queues_ok s -> (length (bids s) + length (asks s) <= fuel)%nat ->
  queues_ok (match_orders_loop fuel clock s) /\
  no_cross (match_orders_loop fuel clock s).
Proof.
  induction fuel as [|fuel IH]; intros clock s Hok Hfuel; cbn [match_orders_loop].
  { split; [done|]. intros b a Hb _.
    destruct (bids s); [by apply elem_of_nil in Hb|cbn in Hfuel; lia]. }
  destruct (bids s) as [|[[pb tb] b] rb] eqn:Hbids.
  { split; [done|]. intros b a Hb. rewrite Hbids in Hb. by apply elem_of_nil in Hb. }
  destruct (asks s) as [|[[pa ta] a] ra] eqn:Hasks.
  { split; [done|]. intros b' a' _ Ha. rewrite Hasks in Ha. by apply elem_of_nil in Ha. }
  destruct (Qle_bool (price a) (price b)) eqn:Hcross.
  - apply IH; [by apply queues_ok_cross|].
    rewrite cross_fields. cbn zeta. cbn [bids asks].
    pose proof (f_equal length Hbids) as Hlb.
    pose proof (f_equal length Hasks) as Hla. cbn [length] in Hlb, Hla, Hfuel.
    destruct (Z.min_spec (quantity b) (quantity a)) as [[_ ->]|[_ ->]].
    + rewrite Z.sub_diag, settle_length_0.
      pose proof (settle_length (quantity a - quantity b) (asks s)). lia.
    + rewrite Z.sub_diag, settle_length_0.
      pose proof (settle_length (quantity b - quantity a) (bids s)). lia.
  - split; [done|]. destruct Hok as (Hb & Ha & Kb & Ka).
    rewrite Hbids in Hb, Kb. rewrite Hasks in Ha, Ka.
    intros b' a' Hb' Ha'. rewrite Hbids in Hb'. rewrite Hasks in Ha'.
    pose proof (best_bid_highest _ _ _ _ _ Hb Kb Hb').
    pose proof (best_ask_lowest _ _ _ _ _ Ha Ka Ha').
    apply not_true_iff_false in Hcross. rewrite Qle_bool_iff in Hcross.
    apply Qnot_le_lt in Hcross. lra.
Qed.

(** A fill changes nothing of the resting orders but one quantity. *)
Lemma settle_elem_of q h o :
  o ∈ resting (settle q h) ->
  exists o', o' ∈ resting h /\ (o = o' \/ o = set_quantity q o').
Proof.
  destruct h as [|[[p t] o0] rest].
  { unfold settle. cbn [set_best_quantity]. rewrite pop_nil.
    destruct (q =? 0); intros Ho; by apply elem_of_nil in Ho. }
  rewrite settle_resting. cbn [resting map entry_order snd].
  destruct (q =? 0).
  - intros Ho. exists o. split; [by right|by left].
  - intros [->|Ho]%elem_of_cons.
    + exists o0. split; [by left|by right].
    + exists o. split; [by right|by left].
Qed.

Lemma settle_price q h o :
  o ∈ resting (settle q h) -> exists o', o' ∈ resting h /\ price o' = price o.
Proof.
  intros (o' & Ho' & [->| ->])%settle_elem_of; eauto.
Qed.

Lemma no_cross_shrink s s' :
  (forall o, o ∈ resting (bids s') -> exists o', o' ∈ resting (bids s) /\ price o' = price o) ->
  (forall o, o ∈ resting (asks s') -> exists o', o' ∈ resting (asks s) /\ price o' = price o) ->
  no_cross s -> no_cross s'.
Proof.
  intros Hb Ha Hs b a (b' & Hb' & <-)%Hb (a' & Ha' & <-)%Ha. by apply Hs.
Qed.

Lemma no_cross_take_ask now remaining a s :
  no_cross s -> no_cross (take_ask now remaining a s).2.
Proof.
  apply no_cross_shrink; rewrite take_ask_fields; cbn zeta; cbn [snd bids asks].
  - eauto.
  - apply settle_price.
Qed.

Lemma no_cross_take_bid now remaining b s :
  no_cross s -> no_cross (take_bid now remaining b s).2.
Proof.
  apply no_cross_shrink; rewrite take_bid_fields; cbn zeta; cbn [snd bids asks].
  - apply settle_price.
  - eauto.
Qed.

Lemma market_buy_loop_ok fuel : forall clock remaining s,
  queues_ok s -> no_cross s ->
  queues_ok (market_buy_loop fuel clock remaining s).2 /\
  no_cross (market_buy_loop fuel clock remaining s).2.
Proof.
  induction fuel as [|fuel IH]; intros clock remaining s Hok Hnc;
    cbn [market_buy_loop]; [done|].
  destruct (0 <? remaining); [|done].
  destruct (asks s) as [|[[pa ta] a] ra]; [done|].
  pose proof (queues_ok_take_ask (clock O) remaining a s Hok).
  pose proof (no_cross_take_ask (clock O) remaining a s Hnc).
  destruct (take_ask (clock O) remaining a s) as [remaining' s']. by apply IH.
Qed.

Lemma market_sell_loop_ok fuel : forall clock remaining s,
  queues_ok s -> no_cross s ->
  queues_ok (market_sell_loop fuel clock remaining s).2 /\
  no_cross (market_sell_loop fuel clock remaining s).2.
Proof.
  induction fuel as [|fuel IH]; intros clock remaining s Hok Hnc;
    cbn [market_sell_loop]; [done|].
  destruct (0 <? remaining); [|done].
  destruct (bids s) as [|[[pb tb] b] rb]; [done|].
  pose proof (queues_ok_take_bid (clock O) remaining b s Hok).
  pose proof (no_cross_take_bid (clock O) remaining b s Hnc).
  destruct (take_bid (clock O) remaining b s) as [remaining' s']. by apply IH.
Qed.

Lemma _handle_market_order_ok clock market_order s :
  queues_ok s -> no_cross s ->
  queues_ok (_handle_market_order clock market_order s).2 /\
  no_cross (_handle_market_order clock market_order s).2.
Proof.
  intros Hok Hnc. unfold _handle_market_order.
  destruct (String.eqb (side market_order) "BUY").
  - destruct (asks s) as [|e ra] eqn:Hasks; [done|]. rewrite <- Hasks.
    pose proof (market_buy_loop_ok (length (asks s)) clock (quantity market_order) s Hok Hnc).
    by destruct (market_buy_loop _ _ _ _).
  - destruct (bids s) as [|e rb] eqn:Hbids; [done|]. rewrite <- Hbids.
    pose proof (market_sell_loop_ok (length (bids s)) clock (quantity market_order) s Hok Hnc).
    by destruct (market_sell_loop _ _ _ _).
Qed.

Lemma add_order_ok clock order s :
  queues_ok s -> no_cross s ->
  queues_ok (add_order clock order s).2 /\ no_cross (add_order clock order s).2.
Proof.
  intros Hok Hnc. unfold add_order, place.
  destruct (String.eqb (order_type order) "MARKET").
  { pose proof (_handle_market_order_ok clock order s Hok Hnc).
    destruct (_handle_market_order clock order s) as [[success o] s'].
    by destruct success. }
  cbn [snd]. apply match_orders_loop_ok; [|done].
  destruct Hok as (Hb & Ha & Kb & Ka).
  destruct (String.eqb (side order) "BUY"); repeat split; cbn [bids asks set_bids set_asks set_order_map];
    try done.
  - by apply entry_heappush_heap.
  - rewrite heappush_perm. by constructor.
  - by apply entry_heappush_heap.
  - rewrite heappush_perm. by constructor.
Qed.

Lemma add_order_api_ok clock sd p q ty who s :
  queues_ok s -> no_cross s ->
  queues_ok (add_order_api clock sd p q ty who s).2 /\
  no_cross (add_order_api clock sd p q ty who s).2.
Proof.
  intros Hok Hnc. unfold add_order_api.
  pose proof (add_order_ok (fun n => clock (S n))
                (mkOrder (next_order_id s) sd p q ty (clock O) who)
                (set_next_order_id (next_order_id s + 1) s) Hok Hnc).
  by destruct (add_order _ _ _).
Qed.

Lemma elem_of_resting_filter (P : entry -> Prop) `{!forall e, Decision (P e)} h o :
  o ∈ resting (Heapq.heapify entry_lt (filter P h)) -> o ∈ resting h.
Proof.
  unfold resting. rewrite heapify_perm.
  intros [e [-> He]]%list_elem_of_fmap. apply list_elem_of_filter in He as [_ He].
  by apply list_elem_of_fmap_2.
Qed.

Lemma Forall_keep {A} (P Q : A -> Prop) `{!forall x, Decision (Q x)} (l : list A) :
  Forall P l -> Forall P (filter Q l).
Proof.
  rewrite !Forall_forall. intros HP x [_ Hx]%list_elem_of_filter. by apply HP.
Qed.

Lemma cancel_order_ok oid s :
  queues_ok s -> no_cross s ->
  queues_ok (cancel_order oid s).2 /\ no_cross (cancel_order oid s).2.
Proof.
  intros Hok Hnc. unfold cancel_order.
  destruct (order_map s !! oid) as [order|]; [|done].
  destruct Hok as (Hb & Ha & Kb & Ka).
  destruct (String.eqb (side order) "BUY"); cbn [snd]; split.
  - repeat split; cbn [bids asks set_bids set_asks set_order_map]; try done.
    + apply entry_heapify_heap.
    + rewrite heapify_perm. by apply Forall_keep.
  - revert Hnc. apply no_cross_shrink; cbn [bids asks set_bids set_asks set_order_map].
    + intros o Ho%elem_of_resting_filter. eauto.
    + eauto.
  - repeat split; cbn [bids asks set_bids set_asks set_order_map]; try done.
    + apply entry_heapify_heap.
    + rewrite heapify_perm. by apply Forall_keep.
  - revert Hnc. apply no_cross_shrink; cbn [bids asks set_bids set_asks set_order_map].
    + eauto.
    + intros o Ho%elem_of_resting_filter. eauto.
Qed.

(** * Runs *)

Lemma run_snoc ops op s : run (ops ++ [op]) s = step op (run ops s).
Proof. unfold run. by rewrite fold_left_app. Qed.

Lemma reachable_init : reachable __init__.
Proof. by exists []. Qed.

Lemma reachable_step op s : reachable s -> reachable (step op s).
Proof. intros [ops ->]. exists (ops ++ [op]). by rewrite run_snoc. Qed.

Lemma reachable_ind' (P : OrderBook -> Prop) :
  P __init__ -> (forall op s, reachable s -> P s -> P (step op s)) ->
  forall s, reachable s -> P s.
Proof.
  intros Hinit Hstep s [ops ->].
  induction ops as [|op ops IH] using rev_ind; [done|].
  rewrite run_snoc. apply Hstep; [by exists ops|done].
Qed.

Lemma reachable_queues_ok s : reachable s -> queues_ok s /\ no_cross s.
Proof.
  revert s. apply reachable_ind'.
  - split.
    + repeat split; cbn; try done; intros p c x y _ _ Hx; done.
    + intros b a Hb. by apply elem_of_nil in Hb.
  - intros [clock sd p q ty who|oid] s _ [Hok Hnc]; cbn [step].
    + by apply add_order_api_ok.
    + by apply cancel_order_ok.
Qed.

(** * The index and the queues agree *)

Lemma index_inv_sym S1 S2 h1 h2 m n :
  index_inv S1 S2 h1 h2 m n -> index_inv S2 S1 h2 h1 m n.
Proof.
  intros (Hnd & H1 & H2 & Hm). split; [|split; [done|split; [done|]]].
  - by rewrite (comm (++)).
  - intros i o Ho. destruct (Hm i o Ho) as (? & ? & ? & Hq).
    repeat split; try done; try lia.
    intros Hne. specialize (Hq Hne). rewrite elem_of_app in Hq |- *. tauto.
Qed.

Lemma ids_settle q p t b rest :
  ids (settle q ((p, t, b) :: rest))
  ≡ₚ if q =? 0 then ids rest else order_id b :: ids rest.
Proof.
  unfold ids. rewrite settle_resting. by destruct (q =? 0).
Qed.

Lemma elem_of_ids o h : o ∈ resting h -> order_id o ∈ ids h.
Proof. apply list_elem_of_fmap_2. Qed.

Lemma index_inv_settle (S1 S2 : Order -> Prop) p t b rest h2 m n q :
  (forall o, S1 o -> S1 (set_quantity q o)) ->
  index_inv S1 S2 ((p, t, b) :: rest) h2 m n ->
  index_inv S1 S2 (settle q ((p, t, b) :: rest)) h2 (write_quantity b q m) n.
Proof.
  intros HS (Hnd & H1 & H2 & Hm).
  cbn [ids resting map entry_order snd app] in Hnd.
  apply NoDup_cons in Hnd as [Hfresh Hnd].
  destruct (H1 b) as [Hb HSb]; [by left|].
  assert (Hother : forall o, o ∈ resting rest ++ resting h2 -> order_id o <> order_id b).
  { intros o Ho Heq. apply Hfresh. rewrite <- Heq.
    apply elem_of_app in Ho as [Ho|Ho]; apply elem_of_app; [left|right];
      by apply elem_of_ids. }
  assert (Hkeep : forall o, o ∈ resting rest -> o ∈ resting (settle q ((p, t, b) :: rest))).
  { intros o Ho. rewrite settle_resting. destruct (q =? 0); [done|by right]. }
  split; [|split; [|split]].
  - rewrite ids_settle. destruct (q =? 0); [done|].
    cbn [app]. by apply NoDup_cons.
  - intros o Ho. rewrite settle_resting in Ho. unfold write_quantity.
    assert (o ∈ resting rest -> alter (set_quantity q) (order_id b) m !! order_id o = Some o /\ S1 o).
    { intros Hin. rewrite lookup_alter_ne.
      - apply H1. by right.
      - intros Heq. eapply Hother; [|by symmetry]. apply elem_of_app. by left. }
    destruct (q =? 0); [by auto|].
    apply elem_of_cons in Ho as [->|Ho]; [|by auto].
    cbn [set_quantity order_id]. rewrite lookup_alter_eq, Hb. split; [done|by apply HS].
  - intros o Ho. unfold write_quantity. rewrite lookup_alter_ne; [by apply H2|].
    intros Heq. eapply Hother; [|by symmetry]. apply elem_of_app. by right.
  - intros i o Ho. unfold write_quantity in Ho.
    apply lookup_alter_Some in Ho as [(<- & o0 & Ho0 & ->)|(Hne & Ho)].
    + rewrite Hb in Ho0. injection Ho0 as <-.
      destruct (Hm _ _ Hb) as (? & ? & ? & _). repeat split; try done; try lia.
      cbn [set_quantity quantity]. intros Hq. apply elem_of_app. left.
      rewrite settle_resting. apply Z.eqb_neq in Hq. rewrite Hq. by left.
    + destruct (Hm _ _ Ho) as (Hid & ? & ? & Hq). repeat split; try done; try lia.
      intros Hq'. specialize (Hq Hq').
      cbn [resting map entry_order snd app] in Hq.
      apply elem_of_cons in Hq as [->|Hq]; [done|].
      apply elem_of_app in Hq as [Hq|Hq]; apply elem_of_app; [left; by apply Hkeep|by right].
Qed.

Lemma is_buy_set_quantity q o : is_buy o -> is_buy (set_quantity q o).
Proof. done. Qed.

Lemma is_sell_set_quantity q o : is_sell o -> is_sell (set_quantity q o).
Proof. done. Qed.

Lemma index_ok_take_bid now remaining p t b rest s :
  bids s = (p, t, b) :: rest ->
  index_ok s -> index_ok (take_bid now remaining b s).2.
Proof.
  intros Hbids Hs. rewrite take_bid_fields. cbn zeta.
  unfold index_ok in *. cbn [snd bids asks order_map next_order_id].
  rewrite Hbids in *. apply index_inv_settle; [apply is_buy_set_quantity|done].
Qed.

Lemma index_ok_take_ask now remaining p t a rest s :
  asks s = (p, t, a) :: rest ->
  index_ok s -> index_ok (take_ask now remaining a s).2.
Proof.
  intros Hasks Hs. rewrite take_ask_fields. cbn zeta.
  unfold index_ok in *. cbn [snd bids asks order_map next_order_id].
  rewrite Hasks in *. apply index_inv_sym.
  apply index_inv_settle; [apply is_sell_set_quantity|by apply index_inv_sym].
Qed.

Lemma index_ok_cross now pb tb b rb pa ta a ra s :
  bids s = (pb, tb, b) :: rb -> asks s = (pa, ta, a) :: ra ->
  index_ok s -> index_ok (cross now b a s).
Proof.
  intros Hbids Hasks Hs. rewrite cross_fields. cbn zeta.
  unfold index_ok in *. cbn [bids asks order_map next_order_id].
  rewrite Hbids, Hasks in *. apply index_inv_sym.
  apply index_inv_settle; [apply is_sell_set_quantity|]. apply index_inv_sym.
  apply index_inv_settle; [apply is_buy_set_quantity|done].
Qed.

Lemma index_inv_mono S1 S2 h1 h2 m n n' :
  n <= n' -> index_inv S1 S2 h1 h2 m n -> index_inv S1 S2 h1 h2 m n'.
Proof.
  intros Hle (Hnd & H1 & H2 & Hm). split; [done|split; [done|split; [done|]]].
  intros i o Ho. destruct (Hm i o Ho) as (? & ? & ? & ?).
  repeat split; try done; lia.
Qed.

Lemma match_orders_loop_index fuel : forall clock s,
  index_ok s -> index_ok (match_orders_loop fuel clock s).
Proof.
  induction fuel as [|fuel IH]; intros clock s Hs; cbn [match_orders_loop]; [done|].
  destruct (bids s) as [|[[pb tb] b] rb] eqn:Hbids; [done|].
  destruct (asks s) as [|[[pa ta] a] ra] eqn:Hasks; [done|].
  destruct (Qle_bool (price a) (price b)); [|done].
  apply IH. by eapply index_ok_cross.
Qed.

Lemma market_buy_loop_index fuel : forall clock remaining s,
  index_ok s -> index_ok (market_buy_loop fuel clock remaining s).2.
Proof.
  induction fuel as [|fuel IH]; intros clock remaining s Hs;
    cbn [market_buy_loop]; [done|].
  destruct (0 <? remaining); [|done].
  destruct (asks s) as [|[[pa ta] a] ra] eqn:Hasks; [done|].
  pose proof (index_ok_take_ask (clock O) remaining _ _ _ _ _ Hasks Hs).
  destruct (take_ask (clock O) remaining a s) as [remaining' s']. by apply IH.
Qed.

Lemma market_sell_loop_index fuel : forall clock remaining s,
  index_ok s -> index_ok (market_sell_loop fuel clock remaining s).2.
Proof.
  induction fuel as [|fuel IH]; intros clock remaining s Hs;
    cbn [market_sell_loop]; [done|].
  destruct (0 <? remaining); [|done].
  destruct (bids s) as [|[[pb tb] b] rb] eqn:Hbids; [done|].
  pose proof (index_ok_take_bid (clock O) remaining _ _ _ _ _ Hbids Hs).
  destruct (take_bid (clock O) remaining b s) as [remaining' s']. by apply IH.
Qed.

Lemma _handle_market_order_index clock market_order s :
  index_ok s -> index_ok (_handle_market_order clock market_order s).2.
Proof.
  intros Hs. unfold _handle_market_order.
  destruct (String.eqb (side market_order) "BUY").
  - destruct (asks s) as [|e ra] eqn:Hasks; [done|]. rewrite <- Hasks.
    pose proof (market_buy_loop_index (length (asks s)) clock (quantity market_order) s Hs).
    by destruct (market_buy_loop _ _ _ _).
  - destruct (bids s) as [|e rb] eqn:Hbids; [done|]. rewrite <- Hbids.
    pose proof (market_sell_loop_index (length (bids s)) clock (quantity market_order) s Hs).
    by destruct (market_sell_loop _ _ _ _).
Qed.

(** Pushing a freshly issued order on a queue and indexing it. *)
Lemma index_inv_push (S1 S2 : Order -> Prop) h1 h2 m k o :
  S1 o -> order_type o <> "MARKET"%string -> 1 <= order_id o ->
  index_inv S1 S2 h1 h2 m (order_id o) ->
  index_inv S1 S2 (Heapq.heappush entry_lt h1 (k, timestamp o, o)) h2
            (<[order_id o := o]> m) (order_id o + 1).
Proof.
  intros HS Hty Hpos (Hnd & H1 & H2 & Hm).
  assert (Hnone : m !! order_id o = None).
  { destruct (m !! order_id o) as [o'|] eqn:Ho'; [|done].
    destruct (Hm _ _ Ho') as (_ & ? & _). lia. }
  assert (Hfresh : forall o', o' ∈ resting h1 ++ resting h2 -> order_id o' <> order_id o).
  { intros o' Ho' Heq.
    assert (m !! order_id o' = Some o') as Hin.
    { apply elem_of_app in Ho' as [Ho'|Ho']; [by apply H1|by apply H2]. }
    rewrite Heq in Hin. congruence. }
  assert (Hres : resting (Heapq.heappush entry_lt h1 (k, timestamp o, o)) ≡ₚ o :: resting h1).
  { unfold resting. by rewrite heappush_perm. }
  split; [|split; [|split]].
  - unfold ids. rewrite Hres. cbn [map app]. apply NoDup_cons. split; [|done].
    intros Hin. rewrite <- fmap_app in Hin.
    apply list_elem_of_fmap in Hin as (o' & Heq & Ho'). by eapply Hfresh.
  - intros o' Ho'. rewrite Hres in Ho'. apply elem_of_cons in Ho' as [->|Ho'].
    + by rewrite lookup_insert_eq.
    + rewrite lookup_insert_ne; [by apply H1|].
      intros Heq. eapply Hfresh; [|by symmetry]. apply elem_of_app. by left.
  - intros o' Ho'. rewrite lookup_insert_ne; [by apply H2|].
    intros Heq. eapply Hfresh; [|by symmetry]. apply elem_of_app. by right.
  - intros i o' Ho'. apply lookup_insert_Some in Ho' as [[<- <-]|[Hne Ho']].
    + repeat split; try done; try lia. intros _. rewrite Hres. apply elem_of_app. left. by left.
    + destruct (Hm _ _ Ho') as (? & ? & ? & Hq). repeat split; try done; try lia.
      intros Hq'. specialize (Hq Hq'). rewrite Hres.
      apply elem_of_app in Hq as [Hq|Hq]; apply elem_of_app; [left; by right|by right].
Qed.

Lemma add_order_index clock order s :
  index_inv is_buy is_sell (bids s) (asks s) (order_map s) (order_id order) ->
  next_order_id s = order_id order + 1 -> 1 <= order_id order ->
  index_ok (add_order clock order s).2.
Proof.
  intros Hs Hnext Hpos. unfold add_order, place.
  destruct (String.eqb (order_type order) "MARKET") eqn:Hty.
  { assert (index_ok s) as Hs'.
    { unfold index_ok. rewrite Hnext. eapply index_inv_mono; [|done]. lia. }
    pose proof (_handle_market_order_index clock order s Hs').
    destruct (_handle_market_order clock order s) as [[success o] s'].
    by destruct success. }
  apply String.eqb_neq in Hty.
  cbn [snd]. apply match_orders_loop_index.
  destruct (String.eqb (side order) "BUY") eqn:Hside; unfold index_ok;
    cbn [bids asks order_map next_order_id set_bids set_asks set_order_map];
    rewrite Hnext.
  - apply String.eqb_eq in Hside. by apply index_inv_push.
  - apply String.eqb_neq in Hside. apply index_inv_sym.
    apply index_inv_push; [done|done|done|by apply index_inv_sym].
Qed.

(** What the loops leave untouched. *)

Lemma dom_write_quantity o q (m : gmap Z Order) :
  dom (write_quantity o q m) = dom m.
Proof. unfold write_quantity. apply dom_alter_L. Qed.

Lemma match_orders_loop_frame fuel : forall clock s,
  next_order_id (match_orders_loop fuel clock s) = next_order_id s /\
  dom (order_map (match_orders_loop fuel clock s)) = dom (order_map s).
Proof.
  induction fuel as [|fuel IH]; intros clock s; cbn [match_orders_loop]; [done|].
  destruct (bids s) as [|[[pb tb] b] rb]; [done|].
  destruct (asks s) as [|[[pa ta] a] ra]; [done|].
  destruct (Qle_bool (price a) (price b)); [|done].
  destruct (IH (fun n => clock (S n)) (cross (clock O) b a s)) as [-> ->].
  rewrite cross_fields. cbn zeta. cbn [next_order_id order_map].
  by rewrite !dom_write_quantity.
Qed.

Lemma market_buy_loop_frame fuel : forall clock remaining s,
  let s' := (market_buy_loop fuel clock remaining s).2 in
  next_order_id s' = next_order_id s /\ bids s' = bids s /\
  dom (order_map s') = dom (order_map s).
Proof.
  induction fuel as [|fuel IH]; intros clock remaining s; cbn [market_buy_loop]; [done|].
  destruct (0 <? remaining); [|done].
  destruct (asks s) as [|[[pa ta] a] ra]; [done|].
  rewrite take_ask_fields. cbn zeta.
  match goal with |- context [market_buy_loop fuel ?c ?r ?s0] =>
    destruct (IH c r s0) as (-> & -> & ->) end.
  cbn [next_order_id bids order_map]. by rewrite dom_write_quantity.
Qed.

Lemma market_sell_loop_frame fuel : forall clock remaining s,
  let s' := (market_sell_loop fuel clock remaining s).2 in
  next_order_id s' = next_order_id s /\ asks s' = asks s /\
  dom (order_map s') = dom (order_map s).
Proof.
  induction fuel as [|fuel IH]; intros clock remaining s; cbn [market_sell_loop]; [done|].
  destruct (0 <? remaining); [|done].
  destruct (bids s) as [|[[pb tb] b] rb]; [done|].
  rewrite take_bid_fields. cbn zeta.
  match goal with |- context [market_sell_loop fuel ?c ?r ?s0] =>
    destruct (IH c r s0) as (-> & -> & ->) end.
  cbn [next_order_id asks order_map]. by rewrite dom_write_quantity.
Qed.

Lemma _handle_market_order_frame clock market_order s :
  let s' := (_handle_market_order clock market_order s).2 in
  next_order_id s' = next_order_id s /\
  dom (order_map s') = dom (order_map s) /\
  (if String.eqb (side market_order) "BUY" then bids s' = bids s else asks s' = asks s).
Proof.
  unfold _handle_market_order.
  destruct (String.eqb (side market_order) "BUY").
  - destruct (asks s) as [|e ra] eqn:Hasks; [done|]. rewrite <- Hasks.
    pose proof (market_buy_loop_frame (length (asks s)) clock (quantity market_order) s) as H.
    destruct (market_buy_loop _ _ _ _). cbn zeta in H. cbn [snd] in *. tauto.
  - destruct (bids s) as [|e rb] eqn:Hbids; [done|]. rewrite <- Hbids.
    pose proof (market_sell_loop_frame (length (bids s)) clock (quantity market_order) s) as H.
    destruct (market_sell_loop _ _ _ _). cbn zeta in H. cbn [snd] in *. tauto.
Qed.

Lemma add_order_next clock order s :
  next_order_id (add_order clock order s).2 = next_order_id s.
Proof.
  unfold add_order, place.
  destruct (String.eqb (order_type order) "MARKET").
  - pose proof (_handle_market_order_frame clock order s) as (H & _).
    destruct (_handle_market_order clock order s) as [[success o] s'].
    by destruct success.
  - cbn [snd]. unfold match_orders.
    match goal with |- context [match_orders_loop ?f ?c ?s0] =>
      destruct (match_orders_loop_frame f c s0) as [-> _] end.
    by destruct (String.eqb (side order) "BUY").
Qed.

Lemma add_order_api_next clock sd p q ty who s :
  next_order_id (add_order_api clock sd p q ty who s).2 = next_order_id s + 1.
Proof.
  unfold add_order_api.
  match goal with |- context [add_order ?c ?o ?s0] =>
    pose proof (add_order_next c o s0) as H; destruct (add_order c o s0) end.
  done.
Qed.

Lemma add_order_api_index clock sd p q ty who s :
  1 <= next_order_id s -> index_ok s ->
  index_ok (add_order_api clock sd p q ty who s).2.
Proof.
  intros Hpos Hs. unfold add_order_api.
  set (order := mkOrder (next_order_id s) sd p q ty (clock O) who).
  pose proof (add_order_index (fun n => clock (S n)) order
                (set_next_order_id (next_order_id s + 1) s) Hs eq_refl Hpos) as Hok.
  by destruct (add_order _ _ _) as [success s'].
Qed.

Lemma ids_filter_sub (P : entry -> Prop) `{!forall e, Decision (P e)} h :
  (forall i, i ∈ ids (filter P h) -> i ∈ ids h) /\
  (NoDup (ids h) -> NoDup (ids (filter P h))).
Proof.
  induction h as [|e h [IH1 IH2]]; [done|].
  rewrite filter_cons. cbn [ids resting map] in *.
  destruct (decide (P e)); cbn [ids resting map].
  - split.
    + intros i [->|Hi]%elem_of_cons; [by left|right; by apply IH1].
    + intros [Hn Hnd]%NoDup_cons. apply NoDup_cons. split; [|by apply IH2].
      intros Hin. apply Hn. by apply IH1.
  - split.
    + intros i Hi. right. by apply IH1.
    + intros [Hn Hnd]%NoDup_cons. by apply IH2.
Qed.

(** Cancelling an indexed order that belongs to the first queue. *)
Lemma index_inv_cancel (S1 S2 : Order -> Prop) h1 h2 m n oid order :
  m !! oid = Some order -> S1 order -> (forall o, S1 o -> S2 o -> False) ->
  index_inv S1 S2 h1 h2 m n ->
  index_inv S1 S2
    (Heapq.heapify entry_lt (filter (fun e => order_id (entry_order e) <> oid) h1))
    h2 (delete oid m) n.
Proof.
  intros Hoid HS Hexcl (Hnd & H1 & H2 & Hm).
  set (P := fun e : entry => order_id (entry_order e) <> oid).
  assert (Hres : forall o, o ∈ resting (Heapq.heapify entry_lt (filter P h1)) <->
                           o ∈ resting h1 /\ order_id o <> oid).
  { intros o. unfold resting. rewrite heapify_perm. rewrite !list_elem_of_fmap. split.
    - intros (e & -> & [HP He]%list_elem_of_filter). split; [by exists e|done].
    - intros [(e & -> & He) Hne]. exists e. split; [done|]. by apply list_elem_of_filter. }
  split; [|split; [|split]].
  - apply NoDup_app in Hnd as (Hnd1 & Hdisj & Hnd2).
    unfold ids at 1. unfold resting. rewrite heapify_perm.
    apply NoDup_app. split; [by apply (ids_filter_sub P)|]. split; [|done].
    intros i Hi. apply Hdisj. by apply (ids_filter_sub P).
  - intros o [Ho Hne]%Hres. rewrite lookup_delete_ne by done. by apply H1.
  - intros o Ho. destruct (H2 o Ho) as [Hin HS2]. rewrite lookup_delete_ne; [done|].
    intros Heq. rewrite Heq, Hin in Hoid. injection Hoid as ->. by eapply Hexcl.
  - intros i o [Hne Ho]%lookup_delete_Some.
    destruct (Hm _ _ Ho) as (Hid & ? & ? & Hq). repeat split; try done; try lia.
    intros Hq'. specialize (Hq Hq').
    apply elem_of_app in Hq as [Hq|Hq]; apply elem_of_app; [left|by right].
    apply Hres. split; [done|]. by rewrite Hid.
Qed.

Lemma cancel_order_index oid s : index_ok s -> index_ok (cancel_order oid s).2.
Proof.
  intros Hs. unfold cancel_order.
  destruct (order_map s !! oid) as [order|] eqn:Hoid; [|done].
  destruct (String.eqb (side order) "BUY") eqn:Hside; cbn [snd]; unfold index_ok;
    cbn [bids asks order_map next_order_id set_bids set_asks set_order_map].
  - apply String.eqb_eq in Hside.
    by apply (index_inv_cancel _ _ _ _ _ _ _ order).
  - apply String.eqb_neq in Hside. apply index_inv_sym.
    apply (index_inv_cancel _ _ _ _ _ _ _ order); [done|done| |by apply index_inv_sym].
    unfold is_buy, is_sell. tauto.
Qed.

Lemma cancel_order_next oid s :
  next_order_id (cancel_order oid s).2 = next_order_id s.
Proof.
  unfold cancel_order. destruct (order_map s !! oid) as [order|]; [|done].
  by destruct (String.eqb (side order) "BUY").
Qed.

Lemma reachable_index_ok s : reachable s -> index_ok s /\ 1 <= next_order_id s.
Proof.
  revert s. apply reachable_ind'.
  - split; [|done]. split; [constructor|]. split; [|split]; try done.
    + intros o Ho. by apply elem_of_nil in Ho.
    + intros o Ho. by apply elem_of_nil in Ho.
  - intros [clock sd p q ty who|oid] s _ [Hok Hpos]; cbn [step].
    + split; [by apply add_order_api_index|]. rewrite add_order_api_next. lia.
    + split; [by apply cancel_order_index|]. by rewrite cancel_order_next.
Qed.

(** * The last trade price *)

Lemma last_ok_snoc s s' t :
  trades s' = trades s ++ [t] -> last_trade_price s' = t_price t -> last_ok s'.
Proof. intros Ht Hp. unfold last_ok. by rewrite Ht, Hp, last_snoc. Qed.

Lemma last_ok_cross now b a s : last_ok (cross now b a s).
Proof.
  rewrite cross_fields. cbn zeta. by eapply (last_ok_snoc s).
Qed.

Lemma last_ok_take_ask now remaining a s : last_ok (take_ask now remaining a s).2.
Proof.
  rewrite take_ask_fields. cbn zeta. by eapply (last_ok_snoc s).
Qed.

Lemma last_ok_take_bid now remaining b s : last_ok (take_bid now remaining b s).2.
Proof.
  rewrite take_bid_fields. cbn zeta. by eapply (last_ok_snoc s).
Qed.

Lemma match_orders_loop_last fuel : forall clock s,
  last_ok s -> last_ok (match_orders_loop fuel clock s).
Proof.
  induction fuel as [|fuel IH]; intros clock s Hs; cbn [match_orders_loop]; [done|].
  destruct (bids s) as [|[[pb tb] b] rb]; [done|].
  destruct (asks s) as [|[[pa ta] a] ra]; [done|].
  destruct (Qle_bool (price a) (price b)); [|done].
  apply IH, last_ok_cross.
Qed.

Lemma market_buy_loop_last fuel : forall clock remaining s,
  last_ok s -> last_ok (market_buy_loop fuel clock remaining s).2.
Proof.
  induction fuel as [|fuel IH]; intros clock remaining s Hs;
    cbn [market_buy_loop]; [done|].
  destruct (0 <? remaining); [|done].
  destruct (asks s) as [|[[pa ta] a] ra]; [done|].
  pose proof (last_ok_take_ask (clock O) remaining a s).
  destruct (take_ask (clock O) remaining a s) as [remaining' s']. by apply IH.
Qed.

Lemma market_sell_loop_last fuel : forall clock remaining s,
  last_ok s -> last_ok (market_sell_loop fuel clock remaining s).2.
Proof.
  induction fuel as [|fuel IH]; intros clock remaining s Hs;
    cbn [market_sell_loop]; [done|].
  destruct (0 <? remaining); [|done].
  destruct (bids s) as [|[[pb tb] b] rb]; [done|].
  pose proof (last_ok_take_bid (clock O) remaining b s).
  destruct (take_bid (clock O) remaining b s) as [remaining' s']. by apply IH.
Qed.

Lemma add_order_last clock order s : last_ok s -> last_ok (add_order clock order s).2.
Proof.
  intros Hs. unfold add_order, place.
  destruct (String.eqb (order_type order) "MARKET").
  - unfold _handle_market_order.
    destruct (String.eqb (side order) "BUY").
    + destruct (asks s) as [|e ra] eqn:Hasks; [done|]. rewrite <- Hasks.
      pose proof (market_buy_loop_last (length (asks s)) clock (quantity order) s Hs).
      by destruct (market_buy_loop _ _ _ _).
    + destruct (bids s) as [|e rb] eqn:Hbids; [done|]. rewrite <- Hbids.
      pose proof (market_sell_loop_last (length (bids s)) clock (quantity order) s Hs).
      by destruct (market_sell_loop _ _ _ _).
  - cbn [snd]. apply match_orders_loop_last.
    by destruct (String.eqb (side order) "BUY").
Qed.

Lemma reachable_last_ok s : reachable s -> last_ok s.
Proof.
  revert s. apply reachable_ind'; [done|].
  intros [clock sd p q ty who|oid] s _ Hs; cbn [step].
  - unfold add_order_api.
    match goal with |- context [add_order ?c ?o ?s0] =>
      pose proof (add_order_last c o s0 Hs); by destruct (add_order c o s0) end.
  - unfold cancel_order. destruct (order_map s !! oid) as [order|]; [|done].
    by destruct (String.eqb (side order) "BUY").
Qed.

(** * Resting quantities stay positive *)

Lemma settle_positive q h :
  0 <= q -> (forall o, o ∈ resting h -> 0 < quantity o) ->
  forall o, o ∈ resting (settle q h) -> 0 < quantity o.
Proof.
  intros Hq Hh o. destruct h as [|[[p t] o0] rest].
  { unfold settle. cbn [set_best_quantity]. rewrite pop_nil.
    destruct (q =? 0); intros Ho; by apply elem_of_nil in Ho. }
  rewrite settle_resting. destruct (q =? 0) eqn:Hq0.
  - intros Ho. apply Hh. by right.
  - apply Z.eqb_neq in Hq0. intros [->|Ho]%elem_of_cons.
    + cbn [set_quantity quantity]. lia.
    + apply Hh. by right.
Qed.

Lemma quantities_ok_cross now pb tb b rb pa ta a ra s :
  bids s = (pb, tb, b) :: rb -> asks s = (pa, ta, a) :: ra ->
  quantities_ok s -> quantities_ok (cross now b a s).
Proof.
  intros Hbids Hasks Hs. rewrite cross_fields. cbn zeta.
  assert (0 < quantity b) by (apply Hs; rewrite Hbids; apply elem_of_app; left; by left).
  assert (0 < quantity a) by (apply Hs; rewrite Hasks; apply elem_of_app; right; by left).
  intros o [Ho|Ho]%elem_of_app; cbn [bids asks] in Ho;
    (eapply settle_positive; [| |exact Ho]; [lia|]);
    intros o' Ho'; apply Hs, elem_of_app; [by left|by right].
Qed.

Lemma quantities_ok_take_ask now remaining pa ta a ra s :
  asks s = (pa, ta, a) :: ra -> 0 < remaining ->
  quantities_ok s -> quantities_ok (take_ask now remaining a s).2.
Proof.
  intros Hasks Hrem Hs. rewrite take_ask_fields. cbn zeta.
  assert (0 < quantity a) by (apply Hs; rewrite Hasks; apply elem_of_app; right; by left).
  intros o [Ho|Ho]%elem_of_app; cbn [snd bids asks] in Ho.
  - apply Hs, elem_of_app. by left.
  - eapply settle_positive; [| |exact Ho]; [lia|].
    intros o' Ho'. apply Hs, elem_of_app. by right.
Qed.

Lemma quantities_ok_take_bid now remaining pb tb b rb s :
  bids s = (pb, tb, b) :: rb -> 0 < remaining ->
  quantities_ok s -> quantities_ok (take_bid now remaining b s).2.
Proof.
  intros Hbids Hrem Hs. rewrite take_bid_fields. cbn zeta.
  assert (0 < quantity b) by (apply Hs; rewrite Hbids; apply elem_of_app; left; by left).
  intros o [Ho|Ho]%elem_of_app; cbn [snd bids asks] in Ho.
  - eapply settle_positive; [| |exact Ho]; [lia|].
    intros o' Ho'. apply Hs, elem_of_app. by left.
  - apply Hs, elem_of_app. by right.
Qed.

Lemma match_orders_loop_positive fuel : forall clock s,
  quantities_ok s -> quantities_ok (match_orders_loop fuel clock s).
Proof.
  induction fuel as [|fuel IH]; intros clock s Hs; cbn [match_orders_loop]; [done|].
  destruct (bids s) as [|[[pb tb] b] rb] eqn:Hbids; [done|].
  destruct (asks s) as [|[[pa ta] a] ra] eqn:Hasks; [done|].
  destruct (Qle_bool (price a) (price b)); [|done].
  apply IH. by eapply quantities_ok_cross.
Qed.

Lemma market_buy_loop_positive fuel : forall clock remaining s,
  quantities_ok s -> quantities_ok (market_buy_loop fuel clock remaining s).2.
Proof.
  induction fuel as [|fuel IH]; intros clock remaining s Hs;
    cbn [market_buy_loop]; [done|].
  destruct (0 <? remaining) eqn:Hrem; [|done]. apply Z.ltb_lt in Hrem.
  destruct (asks s) as [|[[pa ta] a] ra] eqn:Hasks; [done|].
  pose proof (quantities_ok_take_ask (clock O) remaining _ _ _ _ _ Hasks Hrem Hs).
  destruct (take_ask (clock O) remaining a s) as [remaining' s']. by apply IH.
Qed.

Lemma market_sell_loop_positive fuel : forall clock remaining s,
  quantities_ok s -> quantities_ok (market_sell_loop fuel clock remaining s).2.
Proof.
  induction fuel as [|fuel IH]; intros clock remaining s Hs;
    cbn [market_sell_loop]; [done|].
  destruct (0 <? remaining) eqn:Hrem; [|done]. apply Z.ltb_lt in Hrem.
  destruct (bids s) as [|[[pb tb] b] rb] eqn:Hbids; [done|].
  pose proof (quantities_ok_take_bid (clock O) remaining _ _ _ _ _ Hbids Hrem Hs).
  destruct (take_bid (clock O) remaining b s) as [remaining' s']. by apply IH.
Qed.

Lemma add_order_positive clock order s :
  0 < quantity order -> quantities_ok s -> quantities_ok (add_order clock order s).2.
Proof.
  intros Hq Hs. unfold add_order, place.
  destruct (String.eqb (order_type order) "MARKET").
  - unfold _handle_market_order.
    destruct (String.eqb (side order) "BUY").
    + destruct (asks s) as [|e ra] eqn:Hasks; [done|]. rewrite <- Hasks.
      pose proof (market_buy_loop_positive (length (asks s)) clock (quantity order) s Hs).
      by destruct (market_buy_loop _ _ _ _).
    + destruct (bids s) as [|e rb] eqn:Hbids; [done|]. rewrite <- Hbids.
      pose proof (market_sell_loop_positive (length (bids s)) clock (quantity order) s Hs).
      by destruct (market_sell_loop _ _ _ _).
  - cbn [snd]. apply match_orders_loop_positive.
    destruct (String.eqb (side order) "BUY"); intros o;
      cbn [bids asks set_bids set_asks set_order_map]; unfold resting;
      rewrite heappush_perm; cbn [map entry_order snd].
    + intros [->|Ho]%elem_of_cons; [done|by apply Hs].
    + rewrite elem_of_app, elem_of_cons. intros [Ho|[->|Ho]]; [|done|];
        apply Hs, elem_of_app; [by left|by right].
Qed.

Lemma cancel_order_positive oid s :
  quantities_ok s -> quantities_ok (cancel_order oid s).2.
Proof.
  intros Hs. unfold cancel_order.
  destruct (order_map s !! oid) as [order|]; [|done].
  destruct (String.eqb (side order) "BUY"); cbn [snd]; intros o;
    cbn [bids asks set_bids set_asks set_order_map];
    intros [Ho|Ho]%elem_of_app; apply Hs, elem_of_app;
    eauto using elem_of_resting_filter.
Qed.

Lemma reachable_positive_reachable s : reachable_positive s -> reachable s.
Proof. intros (ops & _ & ->). by exists ops. Qed.

Lemma reachable_positive_quantities s : reachable_positive s -> quantities_ok s.
Proof.
  intros (ops & Hops & ->).
  induction ops as [|op ops IH] using rev_ind.
  { intros o Ho. by apply elem_of_nil in Ho. }
  apply Forall_app in Hops as [Hops Hop]. rewrite Forall_singleton in Hop.
  rewrite run_snoc. specialize (IH Hops).
  destruct op as [clock sd p q ty who|oid]; cbn [step].
  - unfold add_order_api.
    match goal with |- context [add_order ?c ?o ?s0] =>
      pose proof (add_order_positive c o s0 Hop IH); by destruct (add_order c o s0) end.
  - by apply cancel_order_positive.
Qed.

(** * The listing of the book *)

Lemma level_le_spec x y :
  level_le x y <-> ((x.1 < y.1)%Q \/ ((x.1 == y.1)%Q /\ x.2 <= y.2)).
Proof.
  unfold level_le, level_lt.
  destruct (Qeq_bool y.1 x.1) eqn:Heq; cbn [negb].
  - apply Qeq_bool_iff in Heq. rewrite Z.ltb_ge. split.
    + intros ?. right. split; [by symmetry|done].
    + intros [?|[_ ?]]; [lra|done].
  - apply Qeq_bool_false in Heq. rewrite Qltb_ge. split.
    + intros Hle. left. apply Qle_lteq in Hle as [?|Heq']; [done|].
      exfalso. apply Heq. by symmetry.
    + intros [?|[? _]]; [lra|]. exfalso. apply Heq. by symmetry.
Qed.

#[global] Instance level_le_total : Total level_le.
Proof.
  intros x y. rewrite !level_le_spec.
  destruct (Qlt_le_dec x.1 y.1) as [|H1]; [by auto|].
  destruct (Qlt_le_dec y.1 x.1) as [|H2]; [by auto|].
  assert (x.1 == y.1)%Q by lra.
  destruct (Z.le_ge_cases x.2 y.2); [left|right]; right; (split; [done|lia]).
Qed.

#[global] Instance level_le_trans : Transitive level_le.
Proof.
  intros x y z. rewrite !level_le_spec.
  intros [H1|[H1 H1']] [H2|[H2 H2']].
  - left. lra.
  - left. lra.
  - left. lra.
  - right. split; [lra|lia].
Qed.

Lemma level_le_price x y : level_le x y -> (x.1 <= y.1)%Q.
Proof. rewrite level_le_spec. lra. Qed.

Lemma StronglySorted_weaken {A} (R R' : relation A) l :
  (forall x y, R x y -> R' x y) -> StronglySorted R l -> StronglySorted R' l.
Proof.
  intros HR. induction 1 as [|x l Hl IH Hx]; constructor; [done|].
  eapply Forall_impl; [exact Hx|]. auto.
Qed.

Lemma StronglySorted_reverse {A} (R : relation A) l :
  StronglySorted R l -> StronglySorted (flip R) (reverse l).
Proof.
  induction 1 as [|x l Hl IH Hx]; [rewrite reverse_nil; constructor|].
  rewrite reverse_cons. apply StronglySorted_app_2; [|done|repeat constructor].
  intros x1 x2 Hx1 ->%list_elem_of_singleton. rewrite elem_of_reverse in Hx1.
  rewrite Forall_forall in Hx. unfold flip. by apply Hx.
Qed.

Lemma sorted_perm l : sorted l ≡ₚ l.
Proof. apply merge_sort_Permutation. Qed.

Lemma sorted_ascending l : ascending (sorted l).
Proof.
  eapply StronglySorted_weaken; [|apply (StronglySorted_merge_sort level_le)].
  apply level_le_price.
Qed.

Lemma sorted_reverse_perm l : sorted_reverse l ≡ₚ l.
Proof. unfold sorted_reverse. by rewrite reverse_Permutation, sorted_perm, reverse_Permutation. Qed.

Lemma sorted_reverse_descending l : descending (sorted_reverse l).
Proof.
  unfold sorted_reverse, descending.
  eapply StronglySorted_weaken; [|apply StronglySorted_reverse, sorted_ascending].
  done.
Qed.

Lemma ascending_head x rest y : ascending (x :: rest) -> y ∈ x :: rest -> (x.1 <= y.1)%Q.
Proof.
  intros [Hx _]%StronglySorted_cons [->|Hy]%elem_of_cons; [apply Qle_refl|].
  rewrite Forall_forall in Hx. by apply Hx.
Qed.

Lemma descending_head x rest y : descending (x :: rest) -> y ∈ x :: rest -> (y.1 <= x.1)%Q.
Proof.
  intros [Hx _]%StronglySorted_cons [->|Hy]%elem_of_cons; [apply Qle_refl|].
  rewrite Forall_forall in Hx. by apply Hx.
Qed.

Lemma Qopp_opp_eq (x : Q) : (- - x)%Q = x.
Proof. destruct x as [n d]. unfold Qopp. cbn. by rewrite Z.opp_involutive. Qed.

(** In a state whose keys are right, the listing has one entry per resting
    order. *)
Lemma get_order_book_perm s :
  Forall bid_entry (bids s) -> Forall ask_entry (asks s) ->
  (get_order_book s).1 ≡ₚ map level_of (resting (bids s)) /\
  (get_order_book s).2 ≡ₚ map level_of (resting (asks s)).
Proof.
  intros Kb Ka. unfold get_order_book. cbn [fst snd].
  rewrite sorted_reverse_perm, sorted_perm. unfold resting. rewrite !map_map.
  split; (match goal with |- ?l ≡ₚ ?k => assert (l = k) as ->; [|done] end);
    apply map_ext_Forall.
  - eapply Forall_impl; [exact Kb|]. intros e He. unfold level_of.
    by rewrite He, Qopp_opp_eq.
  - eapply Forall_impl; [exact Ka|]. intros e He. unfold level_of. by rewrite He.
Qed.

Lemma get_order_book_sorted s :
  descending (get_order_book s).1 /\ ascending (get_order_book s).2.
Proof.
  unfold get_order_book. cbn [fst snd].
  split; [apply sorted_reverse_descending|apply sorted_ascending].
Qed.

Lemma get_mid_price_empty {float_ops : FloatOps} s :
  bids s = [] \/ asks s = [] -> get_mid_price s = last_trade_price s.
Proof.
  unfold get_mid_price, get_order_book. intros [->| ->]; [done|].
  by destruct (sorted_reverse _).
Qed.

Lemma get_mid_price_both {float_ops : FloatOps} s :
  Forall bid_entry (bids s) -> Forall ask_entry (asks s) ->
  bids s <> [] -> asks s <> [] ->
  exists b a, highest_bid b (bids s) /\ lowest_ask a (asks s) /\
    get_mid_price s = float_div (float_add (price b) (price a)) 2.
Proof.
  intros Kb Ka Hb Ha.
  destruct (get_order_book_perm s Kb Ka) as [Pb Pa].
  destruct (get_order_book_sorted s) as [Sb Sa].
  unfold get_mid_price. destruct (get_order_book s) as [bl al]. cbn [fst snd] in *.
  destruct bl as [|x bl].
  { apply Permutation_nil_l in Pb. destruct (bids s); done. }
  destruct al as [|y al].
  { apply Permutation_nil_l in Pa. destruct (asks s); done. }
  assert (x ∈ map level_of (resting (bids s))) as Hx by (rewrite <- Pb; by left).
  assert (y ∈ map level_of (resting (asks s))) as Hy by (rewrite <- Pa; by left).
  apply list_elem_of_fmap in Hx as (b & -> & Hbin).
  apply list_elem_of_fmap in Hy as (a & -> & Hain).
  exists b, a. split; [|split; [|done]].
  - split; [done|]. intros o Ho.
    apply (descending_head _ _ (level_of o) Sb). rewrite Pb. by apply list_elem_of_fmap_2.
  - split; [done|]. intros o Ho.
    apply (ascending_head _ _ (level_of o) Sa). rewrite Pa. by apply list_elem_of_fmap_2.
Qed.

(** * Cancellation *)

Lemma elem_of_resting_cancel oid h o :
  o ∈ resting (Heapq.heapify entry_lt
                 (filter (fun e => order_id (entry_order e) <> oid) h)) <->
  o ∈ resting h /\ order_id o <> oid.
Proof.
  unfold resting. rewrite heapify_perm. rewrite !list_elem_of_fmap. split.
  - intros (e & -> & [HP He]%list_elem_of_filter). split; [by exists e|done].
  - intros [(e & -> & He) Hne]. exists e. split; [done|]. by apply list_elem_of_filter.
Qed.

Lemma index_ok_resting s o :
  index_ok s -> o ∈ resting (bids s) ++ resting (asks s) ->
  order_map s !! order_id o = Some o.
Proof.
  intros (_ & H1 & H2 & _) [Ho|Ho]%elem_of_app; [by apply H1|by apply H2].
Qed.

Lemma cancel_order_map oid s :
  order_map (cancel_order oid s).2 = delete oid (order_map s).
Proof.
  unfold cancel_order. destruct (order_map s !! oid) as [order|] eqn:Hoid.
  - by destruct (String.eqb (side order) "BUY").
  - by rewrite delete_id.
Qed.

Lemma cancel_order_false oid s :
  order_map s !! oid = None -> cancel_order oid s = (false, s).
Proof. intros H. unfold cancel_order. by rewrite H. Qed.

Lemma cancel_order_true oid s :
  is_Some (order_map s !! oid) -> (cancel_order oid s).1 = true.
Proof.
  intros [order H]. unfold cancel_order. rewrite H.
  by destruct (String.eqb (side order) "BUY").
Qed.

Lemma cancel_order_frame oid s :
  trades (cancel_order oid s).2 = trades s /\
  last_trade_price (cancel_order oid s).2 = last_trade_price s /\
  next_order_id (cancel_order oid s).2 = next_order_id s.
Proof.
  unfold cancel_order. destruct (order_map s !! oid) as [order|]; [|done].
  by destruct (String.eqb (side order) "BUY").
Qed.

Lemma cancel_order_resting oid s :
  index_ok s ->
  forall o, o ∈ resting (bids (cancel_order oid s).2) ++ resting (asks (cancel_order oid s).2)
    <-> o ∈ resting (bids s) ++ resting (asks s) /\ order_id o <> oid.
Proof.
  intros Hs o. pose proof Hs as (_ & H1 & H2 & _). unfold cancel_order.
  destruct (order_map s !! oid) as [order|] eqn:Hoid.
  - destruct (String.eqb (side order) "BUY") eqn:Hside; cbn [snd bids asks set_bids set_asks set_order_map];
      rewrite !elem_of_app, elem_of_resting_cancel.
    + apply String.eqb_eq in Hside. split; [|tauto].
      intros [[? ?]|Ho]; [tauto|]. split; [tauto|].
      intros Heq. destruct (H2 o Ho) as [Hin Hsell]. rewrite Heq, Hoid in Hin.
      injection Hin as ->. by apply Hsell.
    + apply String.eqb_neq in Hside. split; [|tauto].
      intros [Ho|[? ?]]; [|tauto]. split; [tauto|].
      intros Heq. destruct (H1 o Ho) as [Hin Hbuy]. rewrite Heq, Hoid in Hin.
      injection Hin as ->. by apply Hside.
  - cbn [snd]. split; [|tauto]. intros Ho. split; [done|].
    intros Heq. apply (index_ok_resting s o Hs) in Ho. congruence.
Qed.

Lemma index_ok_NoDup s :
  index_ok s -> NoDup (resting (bids s) ++ resting (asks s)).
Proof.
  intros (Hnd & _). unfold ids in Hnd. rewrite <- fmap_app in Hnd.
  by apply NoDup_fmap_1 in Hnd.
Qed.

Lemma index_ok_same_id s o o' :
  index_ok s -> o ∈ resting (bids s) ++ resting (asks s) ->
  o' ∈ resting (bids s) ++ resting (asks s) -> order_id o' = order_id o -> o' = o.
Proof.
  intros Hs Ho%(index_ok_resting s o Hs) Ho'%(index_ok_resting s o' Hs) Heq.
  rewrite Heq in Ho'. congruence.
Qed.

(** Cancelling a resting order takes exactly that order out of the queues. *)
Lemma cancel_order_live s o :
  index_ok s -> o ∈ resting (bids s) ++ resting (asks s) ->
  resting (bids s) ++ resting (asks s)
  ≡ₚ o :: (resting (bids (cancel_order (order_id o) s).2) ++
           resting (asks (cancel_order (order_id o) s).2)).
Proof.
  intros Hs Ho.
  pose proof (cancel_order_resting (order_id o) s Hs) as Hres.
  pose proof (cancel_order_index (order_id o) s Hs) as Hs'.
  apply NoDup_Permutation.
  - by apply index_ok_NoDup.
  - apply NoDup_cons. split; [|by apply index_ok_NoDup].
    intros Hin%Hres. tauto.
  - intros o'. rewrite elem_of_cons, Hres. split.
    + intros Ho'. destruct (decide (order_id o' = order_id o)) as [Heq|Hne]; [|tauto].
      left. by apply (index_ok_same_id s).
    + intros [->|[? _]]; done.
Qed.

(** An id that was issued and is not indexed is never indexed again. *)
Lemma add_order_absent clock order s oid :
  oid <> order_id order -> order_map s !! oid = None ->
  order_map (add_order clock order s).2 !! oid = None.
Proof.
  intros Hne Hs. apply not_elem_of_dom. apply not_elem_of_dom in Hs.
  unfold add_order, place. destruct (String.eqb (order_type order) "MARKET").
  - pose proof (_handle_market_order_frame clock order s) as (_ & Hdom & _).
    destruct (_handle_market_order clock order s) as [[success o] s'].
    cbn [snd] in Hdom. destruct success; cbn [negb snd]; by rewrite Hdom.
  - cbn [snd]. unfold match_orders.
    match goal with |- context [match_orders_loop ?f ?c ?s0] =>
      destruct (match_orders_loop_frame f c s0) as [_ ->] end.
    cbn [order_map set_order_map]. rewrite dom_insert_L.
    apply not_elem_of_union. split; [by apply not_elem_of_singleton|].
    by destruct (String.eqb (side order) "BUY").
Qed.

Lemma step_absent op s oid :
  oid < next_order_id s -> order_map s !! oid = None ->
  oid < next_order_id (step op s) /\ order_map (step op s) !! oid = None.
Proof.
  intros Hlt Hs. destruct op as [clock sd p q ty who|oid']; cbn [step].
  - rewrite add_order_api_next. split; [lia|]. unfold add_order_api.
    match goal with |- context [add_order ?c ?o ?s0] =>
      pose proof (add_order_absent c o s0 oid) as H; destruct (add_order c o s0) end.
    apply H; [cbn; lia|done].
  - rewrite cancel_order_next, cancel_order_map. split; [done|].
    apply lookup_delete_None. by right.
Qed.

Lemma run_absent ops : forall s oid,
  oid < next_order_id s -> order_map s !! oid = None ->
  order_map (run ops s) !! oid = None.
Proof.
  induction ops as [|op ops IH]; intros s oid Hlt Hs; [done|].
  cbn [run fold_left]. destruct (step_absent op s oid Hlt Hs). by apply IH.
Qed.

(** * Market orders never rest *)

Lemma add_order_api_market clock sd p q who s :
  let s' := (add_order_api clock sd p q "MARKET" who s).2 in
  next_order_id s' = next_order_id s + 1 /\
  dom (order_map s') = dom (order_map s) /\
  own sd s' = own sd s.
Proof.
  cbn zeta. split; [apply add_order_api_next|].
  unfold add_order_api, add_order, own.
  cbn [order_type String.eqb Ascii.eqb Bool.eqb andb].
  match goal with |- context [_handle_market_order ?c ?o ?s0] =>
    pose proof (_handle_market_order_frame c o s0) as (_ & Hdom & Hown);
    destruct (_handle_market_order c o s0) as [[success o'] s'] end.
  cbn [side snd] in *.
  destruct success; cbn [negb snd]; (split; [done|]);
    destruct (String.eqb sd "BUY"); done.
Qed.


(** * Quantities are conserved *)

Lemma total_perm l l' : l ≡ₚ l' -> total l = total l'.
Proof.
  induction 1 as [|x l l' _ IH|x y l|l l' l'' _ IH1 _ IH2];
    unfold total in *; cbn [foldr] in *; lia.
Qed.

Lemma total_app l l' : total (l ++ l') = total l + total l'.
Proof. induction l as [|x l IH]; unfold total in *; cbn [foldr app] in *; lia. Qed.

Lemma traded_quantity_snoc ts t :
  traded_quantity (ts ++ [t]) = traded_quantity ts + t_quantity t.
Proof. unfold traded_quantity. rewrite map_app, total_app. cbn. lia. Qed.

Lemma resting_quantity_perm h h' :
  resting h ≡ₚ resting h' -> resting_quantity h = resting_quantity h'.
Proof. intros H. unfold resting_quantity. apply total_perm. by rewrite H. Qed.

Lemma resting_quantity_settle q p t o rest :
  resting_quantity (settle q ((p, t, o) :: rest))
  = resting_quantity ((p, t, o) :: rest) - quantity o + q.
Proof.
  unfold resting_quantity.
  rewrite (total_perm _ _ (Permutation_map quantity (settle_resting q p t o rest))).
  destruct (q =? 0) eqn:Hq; unfold total, resting;
    cbn [map entry_order snd foldr set_quantity quantity].
  - apply Z.eqb_eq in Hq. lia.
  - lia.
Qed.

Lemma resting_quantity_heappush h e :
  resting_quantity (Heapq.heappush entry_lt h e)
  = resting_quantity h + quantity (entry_order e).
Proof.
  unfold resting_quantity, resting. rewrite (total_perm _ (map quantity (map entry_order (e :: h)))).
  - unfold total. cbn [map foldr]. lia.
  - by rewrite heappush_perm.
Qed.

(** One match event of a limit cross: both orders lose the traded quantity. *)
Lemma cross_conserves now pb tb b rb pa ta a ra s :
  bids s = (pb, tb, b) :: rb -> asks s = (pa, ta, a) :: ra ->
  exists t, trades (cross now b a s) = trades s ++ [t] /\
    t_quantity t = Z.min (quantity b) (quantity a) /\
    resting_quantity (bids (cross now b a s)) = resting_quantity (bids s) - t_quantity t /\
    resting_quantity (asks (cross now b a s)) = resting_quantity (asks s) - t_quantity t.
Proof.
  intros Hbids Hasks. rewrite cross_fields. cbn zeta. cbn [trades bids asks].
  eexists. split; [done|]. cbn [t_quantity]. split; [done|].
  rewrite Hbids, Hasks, !resting_quantity_settle. lia.
Qed.

(** One match event of a market execution. *)
Lemma take_ask_conserves now remaining pa ta a ra s :
  asks s = (pa, ta, a) :: ra ->
  exists t, trades (take_ask now remaining a s).2 = trades s ++ [t] /\
    t_quantity t = Z.min remaining (quantity a) /\
    (take_ask now remaining a s).1 = remaining - t_quantity t /\
    resting_quantity (asks (take_ask now remaining a s).2)
    = resting_quantity (asks s) - t_quantity t /\
    bids (take_ask now remaining a s).2 = bids s.
Proof.
  intros Hasks. rewrite take_ask_fields. cbn zeta. cbn [fst snd trades bids asks].
  eexists. split; [done|]. cbn [t_quantity]. split; [done|]. split; [done|].
  split; [|done]. rewrite Hasks, !resting_quantity_settle. lia.
Qed.

Lemma take_bid_conserves now remaining pb tb b rb s :
  bids s = (pb, tb, b) :: rb ->
  exists t, trades (take_bid now remaining b s).2 = trades s ++ [t] /\
    t_quantity t = Z.min remaining (quantity b) /\
    (take_bid now remaining b s).1 = remaining - t_quantity t /\
    resting_quantity (bids (take_bid now remaining b s).2)
    = resting_quantity (bids s) - t_quantity t /\
    asks (take_bid now remaining b s).2 = asks s.
Proof.
  intros Hbids. rewrite take_bid_fields. cbn zeta. cbn [fst snd trades bids asks].
  eexists. split; [done|]. cbn [t_quantity]. split; [done|]. split; [done|].
  split; [|done]. rewrite Hbids, !resting_quantity_settle. lia.
Qed.

Lemma match_orders_loop_conserves fuel : forall clock s,
  let s' := match_orders_loop fuel clock s in
  traded_quantity (trades s') - traded_quantity (trades s)
  = resting_quantity (bids s) - resting_quantity (bids s') /\
  traded_quantity (trades s') - traded_quantity (trades s)
  = resting_quantity (asks s) - resting_quantity (asks s').
Proof.
  induction fuel as [|fuel IH]; intros clock s; cbn [match_orders_loop]; cbn zeta;
    [lia|].
  destruct (bids s) as [|[[pb tb] b] rb] eqn:Hbids; [rewrite ?Hbids; lia|].
  destruct (asks s) as [|[[pa ta] a] ra] eqn:Hasks; [rewrite ?Hbids, ?Hasks; lia|].
  destruct (Qle_bool (price a) (price b)); [|rewrite ?Hbids, ?Hasks; lia].
  destruct (cross_conserves (clock O) _ _ _ _ _ _ _ _ s Hbids Hasks)
    as (t & Ht & _ & Hb & Ha).
  specialize (IH (fun n => clock (S n)) (cross (clock O) b a s)). cbn zeta in IH.
  rewrite Ht, traded_quantity_snoc, Hb, Ha, Hbids, Hasks in IH. lia.
Qed.

Lemma market_buy_loop_conserves fuel : forall clock remaining s,
  let r := market_buy_loop fuel clock remaining s in
  traded_quantity (trades r.2) - traded_quantity (trades s)
  = resting_quantity (asks s) - resting_quantity (asks r.2) /\
  traded_quantity (trades r.2) - traded_quantity (trades s) = remaining - r.1.
Proof.
  induction fuel as [|fuel IH]; intros clock remaining s; cbn [market_buy_loop];
    cbn zeta; [cbn; lia|].
  destruct (0 <? remaining); [|cbn; lia].
  destruct (asks s) as [|[[pa ta] a] ra] eqn:Hasks; [cbn [fst snd]; rewrite ?Hasks; lia|].
  destruct (take_ask_conserves (clock O) remaining _ _ _ _ s Hasks)
    as (t & Ht & _ & Hrem & Ha & _).
  destruct (take_ask (clock O) remaining a s) as [remaining' s1]. cbn [fst snd] in *.
  specialize (IH (fun n => clock (S n)) remaining' s1). cbn zeta in IH.
  rewrite Ht, traded_quantity_snoc, Ha, Hasks in IH. lia.
Qed.

Lemma market_sell_loop_conserves fuel : forall clock remaining s,
  let r := market_sell_loop fuel clock remaining s in
  traded_quantity (trades r.2) - traded_quantity (trades s)
  = resting_quantity (bids s) - resting_quantity (bids r.2) /\
  traded_quantity (trades r.2) - traded_quantity (trades s) = remaining - r.1.
Proof.
  induction fuel as [|fuel IH]; intros clock remaining s; cbn [market_sell_loop];
    cbn zeta; [cbn; lia|].
  destruct (0 <? remaining); [|cbn; lia].
  destruct (bids s) as [|[[pb tb] b] rb] eqn:Hbids; [cbn [fst snd]; rewrite ?Hbids; lia|].
  destruct (take_bid_conserves (clock O) remaining _ _ _ _ s Hbids)
    as (t & Ht & _ & Hrem & Hb & _).
  destruct (take_bid (clock O) remaining b s) as [remaining' s1]. cbn [fst snd] in *.
  specialize (IH (fun n => clock (S n)) remaining' s1). cbn zeta in IH.
  rewrite Ht, traded_quantity_snoc, Hb, Hbids in IH. lia.
Qed.

Lemma add_order_conserves clock order s :
  traded_quantity (trades (add_order clock order s).2)
  = traded_quantity (trades s)
    + (resting_quantity (opposite (side order) s)
       - resting_quantity (opposite (side order) (add_order clock order s).2)).
Proof.
  unfold add_order, place, opposite.
  destruct (String.eqb (order_type order) "MARKET").
  - unfold _handle_market_order.
    destruct (String.eqb (side order) "BUY").
    + destruct (asks s) as [|e ra] eqn:Hasks; [cbn; rewrite ?Hasks; cbn; lia|].
      rewrite <- Hasks.
      pose proof (market_buy_loop_conserves (length (asks s)) clock (quantity order) s) as H.
      destruct (market_buy_loop _ _ _ _). cbn zeta in H. cbn [fst snd negb] in *. lia.
    + destruct (bids s) as [|e rb] eqn:Hbids; [cbn; rewrite ?Hbids; cbn; lia|].
      rewrite <- Hbids.
      pose proof (market_sell_loop_conserves (length (bids s)) clock (quantity order) s) as H.
      destruct (market_sell_loop _ _ _ _). cbn zeta in H. cbn [fst snd negb] in *. lia.
  - cbn [snd]. unfold match_orders.
    match goal with |- context [match_orders_loop ?f ?c ?s0] =>
      pose proof (match_orders_loop_conserves f c s0) as H end.
    cbn zeta in H. destruct H as [Hb Ha].
    destruct (String.eqb (side order) "BUY");
      cbn [trades bids asks set_bids set_asks set_order_map] in *; lia.
Qed.

Lemma step_conserves op s :
  traded_quantity (trades (step op s))
  = traded_quantity (trades s) + passive_fill_step op s.
Proof.
  destruct op as [clock sd p q ty who|oid]; cbn [passive_fill_step step].
  - unfold add_order_api.
    match goal with |- context [add_order ?c ?o ?s0] =>
      pose proof (add_order_conserves c o s0) as H; destruct (add_order c o s0) end.
    cbn [snd side trades set_next_order_id] in *. unfold opposite in *.
    destruct (String.eqb sd "BUY"); cbn [asks bids set_next_order_id] in H; lia.
  - destruct (cancel_order_frame oid s) as [-> _]. lia.
Qed.

Lemma run_conserves ops : forall s,
  traded_quantity (trades (run ops s)) = traded_quantity (trades s) + passive_fill ops s.
Proof.
  induction ops as [|op ops IH]; intros s; cbn [run fold_left passive_fill]; [lia|].
  fold (run ops (step op s)). rewrite IH, step_conserves. lia.
Qed.

(** * The loops do what the specification says *)

Lemma filled_settle q p t o rest :
  filled o q ((p, t, o) :: rest) (settle q ((p, t, o) :: rest)).
Proof. exists (resting rest). split; [done|apply settle_resting]. Qed.

Lemma queues_ok_place order s : queues_ok s -> queues_ok (place order s).
Proof.
  intros (Hb & Ha & Kb & Ka). unfold place.
  destruct (String.eqb (side order) "BUY"); repeat split;
    cbn [bids asks set_bids set_asks set_order_map]; try done.
  - by apply entry_heappush_heap.
  - rewrite heappush_perm. by constructor.
  - by apply entry_heappush_heap.
  - rewrite heappush_perm. by constructor.
Qed.

Lemma place_spec order s :
  resting (own (side order) (place order s)) ≡ₚ order :: resting (own (side order) s) /\
  opposite (side order) (place order s) = opposite (side order) s /\
  trades (place order s) = trades s /\
  order_map (place order s) = <[order_id order := order]> (order_map s).
Proof.
  unfold place, own, opposite.
  destruct (String.eqb (side order) "BUY");
    cbn [bids asks trades order_map set_bids set_asks set_order_map];
    (split; [|done]); unfold resting; by rewrite heappush_perm.
Qed.

Lemma match_orders_loop_matching fuel : forall clock s,
  queues_ok s -> (length (bids s) + length (asks s) <= fuel)%nat ->
  limit_matching s (match_orders_loop fuel clock s).
Proof.
  induction fuel as [|fuel IH]; intros clock s Hok Hfuel; cbn [match_orders_loop].
  { apply limit_matching_done. left. destruct (bids s); [done|cbn in Hfuel; lia]. }
  destruct (bids s) as [|[[pb tb] b] rb] eqn:Hbids.
  { apply limit_matching_done. by left. }
  destruct (asks s) as [|[[pa ta] a] ra] eqn:Hasks.
  { apply limit_matching_done. right. by left. }
  pose proof Hok as (Hb & Ha & Kb & Ka).
  rewrite Hbids in Hb, Kb. rewrite Hasks in Ha, Ka.
  destruct (Qle_bool (price a) (price b)) eqn:Hcross.
  - apply Qle_bool_iff in Hcross.
    eapply (limit_matching_trade s (cross (clock O) b a s) _ b a).
    + rewrite Hbids. split; [by left|]. intros o. by apply best_bid_highest.
    + rewrite Hasks. split; [by left|]. intros o. by apply best_ask_lowest.
    + done.
    + rewrite cross_fields. cbn zeta. cbn [trades]. done.
    + done.
    + done.
    + cbn [t_side]. intros Hlt%Qltb_lt. by rewrite Hlt.
    + cbn [t_side]. intros Hlt. destruct (Qltb (timestamp a) (timestamp b)) eqn:H; [|done].
      apply Qltb_lt in H. lra.
    + rewrite cross_fields. cbn zeta. cbn [bids t_quantity]. rewrite Hbids.
      apply filled_settle.
    + rewrite cross_fields. cbn zeta. cbn [asks t_quantity]. rewrite Hasks.
      apply filled_settle.
    + apply IH; [by apply queues_ok_cross|].
      rewrite cross_fields. cbn zeta. cbn [bids asks].
      pose proof (f_equal length Hbids) as Hlb.
      pose proof (f_equal length Hasks) as Hla. cbn [length] in Hlb, Hla, Hfuel.
      destruct (Z.min_spec (quantity b) (quantity a)) as [[_ ->]|[_ ->]].
      * rewrite Z.sub_diag, settle_length_0.
        pose proof (settle_length (quantity a - quantity b) (asks s)). lia.
      * rewrite Z.sub_diag, settle_length_0.
        pose proof (settle_length (quantity b - quantity a) (bids s)). lia.
  - apply limit_matching_done. right. right.
    intros b' a' Hb' Ha'. rewrite Hbids in Hb'. rewrite Hasks in Ha'.
    pose proof (best_bid_highest _ _ _ _ _ Hb Kb Hb').
    pose proof (best_ask_lowest _ _ _ _ _ Ha Ka Ha').
    apply not_true_iff_false in Hcross. rewrite Qle_bool_iff in Hcross.
    apply Qnot_le_lt in Hcross. lra.
Qed.

Lemma settle_length_step q h :
  q <> 0 \/ h = [] -> length (settle q h) = length h.
Proof.
  intros [Hq| ->]; [|by destruct (q =? 0) eqn:H; unfold settle; rewrite H].
  unfold settle. apply Z.eqb_neq in Hq. rewrite Hq. apply set_best_quantity_length.
Qed.

Lemma market_buy_loop_execution fuel : forall clock remaining s,
  queues_ok s -> (length (asks s) <= fuel)%nat \/ remaining <= 0 ->
  market_execution "BUY" remaining s
    (market_buy_loop fuel clock remaining s).1 (market_buy_loop fuel clock remaining s).2.
Proof.
  induction fuel as [|fuel IH]; intros clock remaining s Hok Hfuel;
    cbn [market_buy_loop].
  { apply market_execution_done. destruct Hfuel as [Hlen|?]; [right|by left].
    cbn. destruct (asks s); [done|cbn in Hlen; lia]. }
  destruct (0 <? remaining) eqn:Hrem.
  2:{ apply market_execution_done. left. by apply Z.ltb_ge. }
  apply Z.ltb_lt in Hrem.
  destruct (asks s) as [|[[pa ta] a] ra] eqn:Hasks.
  { apply market_execution_done. by right. }
  pose proof Hok as (_ & Ha & _ & Ka). rewrite Hasks in Ha, Ka.
  pose proof (queues_ok_take_ask (clock O) remaining a s Hok) as Hok'.
  rewrite take_ask_fields in Hok' |- *. cbn zeta in Hok' |- *. cbn [snd] in Hok'.
  match goal with |- market_execution _ _ _ (market_buy_loop _ _ _ ?s1).1 _ =>
    eapply (market_execution_trade "BUY" remaining s s1 _ _ a
              (mkTrade (clock O) (price a) (Z.min remaining (quantity a)) "BUY")) end.
  - done.
  - cbn. rewrite Hasks. split; [by left|]. intros o. by apply best_ask_lowest.
  - cbn [trades]. done.
  - done.
  - done.
  - done.
  - cbn [opposite String.eqb Ascii.eqb Bool.eqb andb asks t_quantity]. rewrite Hasks.
    apply filled_settle.
  - done.
  - cbn [t_quantity]. apply IH; [done|]. cbn [asks].
    destruct (Z.min_spec remaining (quantity a)) as [[_ ->]|[_ ->]]; [right; lia|].
    left. rewrite Z.sub_diag, settle_length_0.
    destruct Hfuel as [Hlen|?]; [|lia]. rewrite <- Hasks in Hlen. lia.
Qed.

Lemma market_sell_loop_execution fuel : forall clock remaining s,
  queues_ok s -> (length (bids s) <= fuel)%nat \/ remaining <= 0 ->
  market_execution "SELL" remaining s
    (market_sell_loop fuel clock remaining s).1 (market_sell_loop fuel clock remaining s).2.
Proof.
  induction fuel as [|fuel IH]; intros clock remaining s Hok Hfuel;
    cbn [market_sell_loop].
  { apply market_execution_done. destruct Hfuel as [Hlen|?]; [right|by left].
    cbn. destruct (bids s); [done|cbn in Hlen; lia]. }
  destruct (0 <? remaining) eqn:Hrem.
  2:{ apply market_execution_done. left. by apply Z.ltb_ge. }
  apply Z.ltb_lt in Hrem.
  destruct (bids s) as [|[[pb tb] b] rb] eqn:Hbids.
  { apply market_execution_done. by right. }
  pose proof Hok as (Hb & _ & Kb & _). rewrite Hbids in Hb, Kb.
  pose proof (queues_ok_take_bid (clock O) remaining b s Hok) as Hok'.
  rewrite take_bid_fields in Hok' |- *. cbn zeta in Hok' |- *. cbn [snd] in Hok'.
  match goal with |- market_execution _ _ _ (market_sell_loop _ _ _ ?s1).1 _ =>
    eapply (market_execution_trade "SELL" remaining s s1 _ _ b
              (mkTrade (clock O) (price b) (Z.min remaining (quantity b)) "SELL")) end.
  - done.
  - cbn. rewrite Hbids. split; [by left|]. intros o. by apply best_bid_highest.
  - cbn [trades]. done.
  - done.
  - done.
  - done.
  - cbn [opposite String.eqb Ascii.eqb Bool.eqb andb bids t_quantity]. rewrite Hbids.
    apply filled_settle.
  - done.
  - cbn [t_quantity]. apply IH; [done|]. cbn [bids].
    destruct (Z.min_spec remaining (quantity b)) as [[_ ->]|[_ ->]]; [right; lia|].
    left. rewrite Z.sub_diag, settle_length_0.
    destruct Hfuel as [Hlen|?]; [|lia]. rewrite <- Hbids in Hlen. lia.
Qed.

(** The id of a market submission is neither indexed nor resting. *)
Lemma market_order_never_rests clock sd p q who s :
  reachable s ->
  let s' := (add_order_api clock sd p q "MARKET" who s).2 in
  dom (order_map s') = dom (order_map s) /\
  own sd s' = own sd s /\
  order_map s' !! next_order_id s = None /\
  next_order_id s ∉ ids (bids s') ++ ids (asks s').
Proof.
  intros Hs s'. destruct (reachable_index_ok s Hs) as [Hidx Hpos].
  pose proof Hidx as (_ & _ & _ & Hm).
  destruct (add_order_api_market clock sd p q who s) as (_ & Hdom & Hown).
  fold s' in Hdom, Hown.
  assert (order_map s !! next_order_id s = None) as Hnone.
  { destruct (order_map s !! next_order_id s) as [o|] eqn:Ho; [|done].
    destruct (Hm _ _ Ho) as (_ & ? & _). lia. }
  assert (order_map s' !! next_order_id s = None) as Hnone'.
  { apply not_elem_of_dom. rewrite Hdom. by apply not_elem_of_dom. }
  split; [done|]. split; [done|]. split; [done|].
  intros Hin. unfold ids in Hin. rewrite <- fmap_app in Hin.
  apply list_elem_of_fmap in Hin as (o & Heq & Ho).
  assert (reachable s') as Hs'.
  { apply (reachable_step (Submit clock sd p q "MARKET" who) s Hs). }
  destruct (reachable_index_ok s' Hs') as [Hidx' _].
  apply (index_ok_resting s' o Hidx') in Ho. congruence.
Qed.

(** * A submission fills no order of its own side *)

Lemma settle_same q h o :
  o ∈ resting (settle q h) ->
  exists o', o' ∈ resting h /\ price o' = price o /\ order_id o' = order_id o.
Proof.
  intros (o' & Ho' & [->| ->])%settle_elem_of; eauto.
Qed.

Lemma settle_others q p t b rest o :
  order_id o <> order_id b ->
  (o ∈ resting ((p, t, b) :: rest) <-> o ∈ resting (settle q ((p, t, b) :: rest))).
Proof.
  intros Hne. cbn [resting map entry_order snd]. split.
  - intros [->|Ho]%elem_of_cons; [done|]. rewrite settle_resting.
    destruct (q =? 0); [done|by right].
  - intros Ho. rewrite settle_resting in Ho. right.
    destruct (q =? 0); [done|].
    apply elem_of_cons in Ho as [->|?]; done.
Qed.

(** When every crossing pair involves the order with id [n] on one given
    side, [match_orders] leaves the other orders of that side as they are. *)
Lemma match_orders_loop_own n (buy : bool) fuel : forall clock s,
  (forall b a, b ∈ resting (bids s) -> a ∈ resting (asks s) ->
     (price a <= price b)%Q -> order_id (if buy then b else a) = n) ->
  forall o, order_id o <> n ->
    (o ∈ resting (if buy then bids s else asks s) <->
     o ∈ resting (if buy then bids (match_orders_loop fuel clock s)
                  else asks (match_orders_loop fuel clock s))).
Proof.
  induction fuel as [|fuel IH]; intros clock s Hcross o Ho; cbn [match_orders_loop];
    [done|].
  destruct (bids s) as [|[[pb tb] b] rb] eqn:Hbids; [by rewrite ?Hbids|].
  destruct (asks s) as [|[[pa ta] a] ra] eqn:Hasks; [by rewrite ?Hbids, ?Hasks|].
  destruct (Qle_bool (price a) (price b)) eqn:Hle; [|by rewrite ?Hbids, ?Hasks].
  apply Qle_bool_iff in Hle.
  assert (order_id (if buy then b else a) = n) as Hhead.
  { apply Hcross; [by left|by left|done]. }
  rewrite <- (IH (fun k => clock (S k)) (cross (clock O) b a s)); [|clear IH|done].
  - rewrite cross_fields. cbn zeta. cbn [bids asks]. rewrite Hbids, Hasks.
    destruct buy; apply settle_others; congruence.
  - intros b' a'. rewrite cross_fields. cbn zeta. cbn [bids asks].
    intros (b'' & Hb'' & Hpb & Hib)%settle_same (a'' & Ha'' & Hpa & Hia)%settle_same Hle'.
    rewrite <- Hpb, <- Hpa in Hle'.
    rewrite Hbids in Hb''. rewrite Hasks in Ha''.
    specialize (Hcross b'' a'' Hb'' Ha'' Hle'). destruct buy; congruence.
Qed.

Lemma add_order_api_own clock sd p q ty who s :
  reachable s ->
  forall o, order_id o <> next_order_id s ->
    (o ∈ resting (own sd s) <->
     o ∈ resting (own sd (add_order_api clock sd p q ty who s).2)).
Proof.
  intros Hs o Ho. destruct (reachable_queues_ok s Hs) as [_ Hnc].
  destruct (String.eqb ty "MARKET") eqn:Hty.
  { apply String.eqb_eq in Hty as ->.
    destruct (add_order_api_market clock sd p q who s) as (_ & _ & Hown).
    cbn zeta in Hown. by rewrite Hown. }
  unfold add_order_api, add_order. cbn [order_type]. rewrite Hty. cbn [snd].
  set (order := mkOrder (next_order_id s) sd p q ty (clock O) who).
  set (s0 := set_next_order_id (next_order_id s + 1) s).
  destruct (place_spec order s0) as (Hown & Hopp & _).
  cbn [side order] in Hown, Hopp. unfold own, opposite in *.
  unfold match_orders.
  pose proof (match_orders_loop_own (next_order_id s) (String.eqb sd "BUY")
                (length (bids (place order s0)) + length (asks (place order s0)))
                (fun n => clock (S n)) (place order s0)) as Hloop.
  destruct (String.eqb sd "BUY") eqn:Hsd.
  - rewrite <- Hloop; [|clear Hloop|done].
    + rewrite Hown, elem_of_cons. cbn [bids set_next_order_id]. split; [tauto|].
      intros [->|?]; [done|tauto].
    + intros b a Hb Ha Hle. rewrite Hown in Hb. rewrite Hopp in Ha.
      apply elem_of_cons in Hb as [->|Hb]; [done|].
      specialize (Hnc b a Hb Ha). lra.
  - rewrite <- Hloop; [|clear Hloop|done].
    + rewrite Hown, elem_of_cons. cbn [asks set_next_order_id]. split; [tauto|].
      intros [->|?]; [done|tauto].
    + intros b a Hb Ha Hle. rewrite Hown in Ha. rewrite Hopp in Hb.
      apply elem_of_cons in Ha as [->|Ha]; [done|].
      specialize (Hnc b a Hb Ha). lra.
Qed.

(** A submission removes no id from the index. *)
Lemma add_order_api_keeps_index clock sd p q ty who s :
  dom (order_map s) ⊆ dom (order_map (add_order_api clock sd p q ty who s).2).
Proof.
  unfold add_order_api, add_order, place. cbn [order_type side order_id].
  destruct (String.eqb ty "MARKET").
  - match goal with |- context [_handle_market_order ?c ?o ?s0] =>
      pose proof (_handle_market_order_frame c o s0) as (_ & Hdom & _);
      destruct (_handle_market_order c o s0) as [[success o'] s'] end.
    cbn [snd] in Hdom. destruct success; cbn [negb snd]; by rewrite Hdom.
  - cbn [snd]. unfold match_orders.
    match goal with |- context [match_orders_loop ?f ?c ?s0] =>
      destruct (match_orders_loop_frame f c s0) as [_ ->] end.
    cbn [order_map set_order_map]. rewrite dom_insert_L.
    destruct (String.eqb sd "BUY"); cbn [order_map set_bids set_asks set_next_order_id];
      set_solver.
Qed.

(** * An indexed order stays indexed until it is cancelled *)

Lemma step_keeps_index op s i :
  is_Some (order_map s !! i) -> op <> Cancel i -> is_Some (order_map (step op s) !! i).
Proof.
  intros Hi Hop. destruct op as [clock sd p q ty who|oid]; cbn [step].
  - apply elem_of_dom. apply (add_order_api_keeps_index clock sd p q ty who).
    by apply elem_of_dom.
  - rewrite cancel_order_map, lookup_delete_ne; [done|]. by intros ->.
Qed.

Lemma run_keeps_index ops : forall s i,
  is_Some (order_map s !! i) -> Cancel i ∉ ops -> is_Some (order_map (run ops s) !! i).
Proof.
  induction ops as [|op ops IH] using rev_ind; intros s i Hi Hops; [done|].
  rewrite run_snoc. apply not_elem_of_app in Hops as [Hops Hop].
  apply step_keeps_index; [by apply IH|].
  intros ->. apply Hop. by left.
Qed.

(** A limit order is indexed on arrival, also when it is filled at once. *)
Lemma add_order_api_indexed clock sd p q ty who s :
  ty <> "MARKET"%string ->
  is_Some (order_map (add_order_api clock sd p q ty who s).2 !! next_order_id s).
Proof.
  intros Hty. unfold add_order_api, add_order, match_orders.
  cbn [order_type]. apply String.eqb_neq in Hty. rewrite Hty. cbn [snd].
  apply elem_of_dom. rewrite (proj2 (match_orders_loop_frame _ _ _)).
  rewrite (proj2 (proj2 (proj2 (place_spec _ _)))).
  apply elem_of_dom. cbn [order_id]. rewrite lookup_insert_eq. by eexists.
Qed.

(** An indexed order that rests in no queue has no quantity left. *)
Lemma index_ok_gone s i o :
  index_ok s -> order_map s !! i = Some o ->
  i ∉ ids (bids s) ++ ids (asks s) -> quantity o = 0.
Proof.
  intros (_ & _ & _ & Hm) Ho Hi. destruct (Hm _ _ Ho) as (Hid & _ & _ & Hrest).
  destruct (decide (quantity o = 0)) as [|Hq]; [done|].
  destruct Hi. unfold ids. rewrite <- fmap_app. rewrite <- Hid.
  apply list_elem_of_fmap_2. by apply Hrest.
Qed.

(** Cancelling an indexed order that rests in no queue takes it out of the
    index and leaves the resting orders alone. *)
Lemma cancel_order_gone s i o :
  index_ok s -> order_map s !! i = Some o ->
  o ∉ resting (bids s) ++ resting (asks s) ->
  resting (bids (cancel_order i s).2) ++ resting (asks (cancel_order i s).2)
  ≡ₚ resting (bids s) ++ resting (asks s).
Proof.
  intros Hidx Ho Hout. apply NoDup_Permutation.
  - apply index_ok_NoDup. by apply cancel_order_index.
  - by apply index_ok_NoDup.
  - intros x. rewrite cancel_order_resting by done. split; [by intros [? _]|].
    intros Hx. split; [done|]. intros Hid.
    pose proof (index_ok_resting s x Hidx Hx) as Hm. rewrite Hid, Ho in Hm.
    by injection Hm as ->.
Qed.

(** * The properties of the specification *)

(** C1: in every state reachable from the fresh engine by submissions of any
    kind and cancellations, every resting bid is priced strictly below every
    resting ask. *)
Theorem C1_no_crossed_book s :
  reachable s ->
  forall b a, b ∈ resting (bids s) -> a ∈ resting (asks s) ->
    (price b < price a)%Q.
Proof. intros Hs. by apply reachable_queues_ok. Qed.

Lemma C1_no_crossed_book_witness :
  (price (mkOrder 1 "BUY" 99 5 "LIMIT" 0 "MM1")
   < price (mkOrder 2 "SELL" 101 7 "LIMIT" 0 "MM1"))%Q.
Proof.
  apply (C1_no_crossed_book two_sided).
  - eexists. reflexivity.
  - vm_compute. apply list_elem_of_here.
  - vm_compute. apply list_elem_of_here.
Defined.

(** C2: a LIMIT submission is always accepted; the order is pushed on the
    queue of its side and the engine then matches continuously: while the
    best bid is priced at or above the best ask it trades the smaller of the
    two quantities at the ask's price, tags the trade with the side of the
    order with the later timestamp, decrements both orders, removes those left
    with nothing, and repeats until no cross remains or a side is empty.  From
    the empty book, LIMIT BUY 100 x 10 then LIMIT SELL 99 x 5 give exactly one
    trade of 5 at 99, one resting bid of 5 at 100 and no asks. *)
Theorem C2_continuous_limit_matching :
  (forall s clock sd p q ty who,
     reachable s -> ty <> "MARKET"%string ->
     let order := mkOrder (next_order_id s) sd p q ty (clock O) who in
     let r := add_order_api clock sd p q ty who s in
     r.1 = (true, Some (next_order_id s)) /\
     exists s0,
       resting (own sd s0) ≡ₚ order :: resting (own sd s) /\
       opposite sd s0 = opposite sd s /\
       trades s0 = trades s /\
       limit_matching s0 r.2) /\
  (forall clock1 clock2 who1 who2,
     let s1 := (add_order_api clock1 "BUY" 100 10 "LIMIT" who1 __init__).2 in
     let s2 := (add_order_api clock2 "SELL" 99 5 "LIMIT" who2 s1).2 in
     exists t, trades s2 = [t] /\ t_price t = 99%Q /\ t_quantity t = 5 /\
       map level_of (resting (bids s2)) = [(100%Q, 5)] /\
       asks s2 = [] /\
       get_order_book s2 = ([(100%Q, 5)], [])).
Proof.
  split.
  - intros s clock sd p q ty who Hs Hty order r.
    destruct (reachable_queues_ok s Hs) as [Hok _].
    subst r. unfold add_order_api, add_order. fold order.
    cbn [order_type order]. apply String.eqb_neq in Hty. rewrite Hty.
    cbn [fst snd]. split; [done|].
    set (s0 := place order (set_next_order_id (next_order_id s + 1) s)).
    exists s0. destruct (place_spec order (set_next_order_id (next_order_id s + 1) s))
      as (Hown & Hopp & Htr & _).
    split; [exact Hown|]. split; [exact Hopp|]. split; [exact Htr|].
    unfold match_orders. apply match_orders_loop_matching; [|done].
    by apply queues_ok_place.
  - intros clock1 clock2 who1 who2 s1 s2. eexists.
    repeat split; vm_compute; reflexivity.
Qed.

Lemma C2_continuous_limit_matching_witness :
  let r := add_order_api tick "SELL" 99 5 "LIMIT" "User"
             (add_order_api tick "BUY" 100 10 "LIMIT" "MM1" __init__).2 in
  r.1 = (true, Some 2) /\
  exists s0,
    resting (own "SELL" s0)
      ≡ₚ mkOrder 2 "SELL" 99 5 "LIMIT" 0 "User"
         :: resting (own "SELL" (add_order_api tick "BUY" 100 10 "LIMIT" "MM1" __init__).2) /\
    opposite "SELL" s0
      = opposite "SELL" (add_order_api tick "BUY" 100 10 "LIMIT" "MM1" __init__).2 /\
    trades s0 = trades (add_order_api tick "BUY" 100 10 "LIMIT" "MM1" __init__).2 /\
    limit_matching s0 r.2.
Proof.
  destruct C2_continuous_limit_matching as [H _].
  apply (H (add_order_api tick "BUY" 100 10 "LIMIT" "MM1" __init__).2
           tick "SELL"%string 99%Q 5 "LIMIT"%string "User"%string).
  - exists [Submit tick "BUY" 100 10 "LIMIT" "MM1"]. reflexivity.
  - discriminate.
Defined.

(** C3: a MARKET submission with a resting order on the opposite side is
    accepted; it trades with the best-priced resting order of that side
    (lowest ask for a BUY, highest bid for a SELL) the smaller of the two
    quantities at the resting order's price, tags the trade with its own side,
    removes the resting order when it is left with nothing, and goes on until
    it is filled or the opposite side is exhausted; what remains is dropped:
    the order is neither indexed nor queued.  With only an ask of 10 at 100
    resting, MARKET BUY 15 is accepted, records one trade of 10 at 100 and
    leaves both queues empty. *)
Theorem C3_market_execution :
  (forall s clock sd p q who,
     reachable s -> sd = "BUY"%string \/ sd = "SELL"%string ->
     opposite sd s <> [] ->
     let r := add_order_api clock sd p q "MARKET" who s in
     r.1 = (true, Some (next_order_id s)) /\
     (exists remaining',
        market_execution sd q (set_next_order_id (next_order_id s + 1) s)
                         remaining' r.2) /\
     own sd r.2 = own sd s /\
     order_map r.2 !! next_order_id s = None /\
     next_order_id s ∉ ids (bids r.2) ++ ids (asks r.2)) /\
  (forall s clock p who k t o,
     bids s = [] -> asks s = [(k, t, o)] -> price o = 100%Q -> quantity o = 10 ->
     let r := add_order_api clock "BUY" p 15 "MARKET" who s in
     r.1 = (true, Some (next_order_id s)) /\
     (exists tr, trades r.2 = trades s ++ [tr] /\
        t_price tr = 100%Q /\ t_quantity tr = 10 /\ t_side tr = "BUY"%string) /\
     asks r.2 = [] /\ bids r.2 = []).
Proof.
  split.
  - intros s clock sd p q who Hs Hsd Hopp r.
    destruct (reachable_queues_ok s Hs) as [Hok _].
    destruct (market_order_never_rests clock sd p q who s Hs) as (_ & Hown & Hnone & Hids).
    fold r in Hown, Hnone, Hids.
    split; [|split; [|done]].
    + subst r. unfold add_order_api, add_order, _handle_market_order.
      cbn [order_type side String.eqb Ascii.eqb Bool.eqb andb].
      unfold opposite in Hopp.
      destruct (String.eqb sd "BUY"); cbn [asks bids set_next_order_id].
      * destruct (asks s) as [|e ra]; [done|].
        by destruct (market_buy_loop _ _ _ _).
      * destruct (bids s) as [|e rb]; [done|].
        by destruct (market_sell_loop _ _ _ _).
    + subst r. unfold add_order_api, add_order, _handle_market_order.
      cbn [order_type side quantity String.eqb Ascii.eqb Bool.eqb andb].
      set (s0 := set_next_order_id (next_order_id s + 1) s).
      assert (queues_ok s0) as Hok0 by done.
      destruct Hsd as [-> | ->]; cbn [String.eqb Ascii.eqb Bool.eqb andb];
        cbn [opposite String.eqb Ascii.eqb Bool.eqb andb] in Hopp.
      * change (asks s0) with (asks s).
        destruct (asks s) as [|e ra] eqn:Hasks; [done|]. rewrite <- Hasks.
        pose proof (market_buy_loop_execution (length (asks s)) (fun n => clock (S n)) q s0 Hok0
                      (or_introl (le_n _))) as H.
        destruct (market_buy_loop _ _ _ _) as [remaining' s']. cbn [fst snd negb] in *.
        by exists remaining'.
      * change (bids s0) with (bids s).
        destruct (bids s) as [|e rb] eqn:Hbids; [done|]. rewrite <- Hbids.
        pose proof (market_sell_loop_execution (length (bids s)) (fun n => clock (S n)) q s0 Hok0
                      (or_introl (le_n _))) as H.
        destruct (market_sell_loop _ _ _ _) as [remaining' s']. cbn [fst snd negb] in *.
        by exists remaining'.
  - intros s clock p who k t o Hbids Hasks Hprice Hq r. subst r.
    unfold add_order_api, add_order, _handle_market_order.
    cbn [order_type side quantity String.eqb Ascii.eqb Bool.eqb andb asks set_next_order_id].
    rewrite Hasks. cbn [length market_buy_loop Z.ltb Z.compare asks set_next_order_id].
    rewrite Hasks, take_ask_fields. cbn zeta. rewrite Hq, Hprice.
    cbn. rewrite Hasks, Hbids. cbn. split; [done|]. split; [|done].
    eexists. done.
Qed.

Lemma C3_market_execution_witness :
  let r := add_order_api tick "BUY" 0 15 "MARKET" "User" one_ask in
  (r.1 = (true, Some 2) /\
   (exists remaining',
      market_execution "BUY" 15 (set_next_order_id 3 one_ask) remaining' r.2) /\
   own "BUY" r.2 = own "BUY" one_ask /\
   order_map r.2 !! 2 = None /\
   2 ∉ ids (bids r.2) ++ ids (asks r.2)) /\
  (exists tr, trades r.2 = trades one_ask ++ [tr] /\
     t_price tr = 100%Q /\ t_quantity tr = 10 /\ t_side tr = "BUY"%string) /\
  asks r.2 = [] /\ bids r.2 = [].
Proof.
  destruct C3_market_execution as [H1 H2]. split.
  - apply (H1 one_ask tick "BUY"%string 0%Q 15 "User"%string).
    + eexists. reflexivity.
    + by left.
    + vm_compute. discriminate.
  - apply (H2 one_ask tick 0%Q "User"%string 100%Q 0%Q
             (mkOrder 1 "SELL" 100 10 "LIMIT" 0 "MM1")); reflexivity.
Defined.

(** C4 as stated fails: a rejected market order consumes an order id, so the
    engine is not left entirely unchanged. *)
Lemma C4_counterexample :
  asks __init__ = [] /\
  (add_order_api tick "BUY" 0 5 "MARKET" "User" __init__).1 = (false, None) /\
  (add_order_api tick "BUY" 0 5 "MARKET" "User" __init__).2 <> __init__.
Proof.
  split; [done|]. split; [done|].
  intros H. apply (f_equal next_order_id) in H. vm_compute in H. discriminate.
Qed.

(** C4 (amended): a MARKET order submitted when the opposite side has no
    resting order is rejected with no order id; bids, asks, the index, the
    trade log and the last trade price are unchanged, and only the id counter
    advances by one. *)
Theorem C4_rejected_market_order clock sd p q who s :
  opposite sd s = [] ->
  let r := add_order_api clock sd p q "MARKET" who s in
  r.1 = (false, None) /\
  bids r.2 = bids s /\ asks r.2 = asks s /\ order_map r.2 = order_map s /\
  trades r.2 = trades s /\ last_trade_price r.2 = last_trade_price s /\
  next_order_id r.2 = next_order_id s + 1.
Proof.
  unfold opposite, add_order_api, add_order, _handle_market_order.
  cbn [order_type side String.eqb Ascii.eqb Bool.eqb andb].
  destruct (String.eqb sd "BUY"); cbn [asks bids set_next_order_id];
    intros H; rewrite H; cbn; rewrite ?H; done.
Qed.

Lemma C4_rejected_market_order_witness :
  let r := add_order_api tick "BUY" 0 5 "MARKET" "User" __init__ in
  r.1 = (false, None) /\
  bids r.2 = bids __init__ /\ asks r.2 = asks __init__ /\
  order_map r.2 = order_map __init__ /\
  trades r.2 = trades __init__ /\
  last_trade_price r.2 = last_trade_price __init__ /\
  next_order_id r.2 = next_order_id __init__ + 1.
Proof. apply (C4_rejected_market_order tick "BUY" 0 5 "User" __init__). reflexivity. Defined.

(** C5 as stated fails: the id of a fully filled order stays in the index, so
    its cancellation returns true and changes the state. *)
Lemma C5_counterexample :
  reachable filled_pair /\
  bids filled_pair = [] /\ asks filled_pair = [] /\
  traded_quantity (trades filled_pair) = 5 /\
  (cancel_order 1 filled_pair).1 = true /\
  (cancel_order 1 filled_pair).2 <> filled_pair.
Proof.
  split; [eexists; reflexivity|]. do 4 (split; [by vm_compute|]).
  intros H. apply (f_equal (fun s => order_map s !! 1)) in H.
  vm_compute in H. discriminate.
Qed.

(** C5 (amended): in a reachable state, cancelling the id of a resting order
    returns true and takes the order, with all its remaining quantity, out of
    its queue and out of the index, leaving the other orders, the trade log and
    the prices alone; cancel returns true exactly for the ids in the index;
    for an id never issued, or cancelled before whatever happened since, it
    returns false and changes nothing; cancelling the same id twice returns
    false the second time and changes nothing.  A fully filled limit order
    stays in the index until it is cancelled: an indexed id stays indexed
    through every run that does not cancel it, a limit order is indexed on
    arrival even when it is filled at once, an order that an operation takes
    out of the queues without cancelling it is left in the index with
    quantity 0, and the cancel of such an order returns true, removes its
    index entry and leaves the resting orders, the trade log and the prices
    alone. *)
Theorem C5_cancel_semantics s :
  reachable s ->
  (forall o, o ∈ resting (bids s) ++ resting (asks s) ->
     let r := cancel_order (order_id o) s in
     r.1 = true /\
     order_map r.2 = delete (order_id o) (order_map s) /\
     resting (bids s) ++ resting (asks s)
       ≡ₚ o :: (resting (bids r.2) ++ resting (asks r.2)) /\
     trades r.2 = trades s /\ last_trade_price r.2 = last_trade_price s /\
     next_order_id r.2 = next_order_id s) /\
  (forall oid, (cancel_order oid s).1 = true <-> is_Some (order_map s !! oid)) /\
  (forall oid, (cancel_order oid s).1 = false -> (cancel_order oid s).2 = s) /\
  (forall oid, oid < 1 \/ next_order_id s <= oid -> cancel_order oid s = (false, s)) /\
  (forall oid ops, oid < next_order_id s ->
     let s' := run ops (cancel_order oid s).2 in
     cancel_order oid s' = (false, s')) /\
  (forall oid, let s' := (cancel_order oid s).2 in cancel_order oid s' = (false, s')) /\
  (forall ops i, is_Some (order_map s !! i) -> Cancel i ∉ ops ->
     is_Some (order_map (run ops s) !! i)) /\
  (forall clock sd p q ty who, ty <> "MARKET"%string ->
     is_Some (order_map (add_order_api clock sd p q ty who s).2 !! next_order_id s)) /\
  (forall op i, is_Some (order_map s !! i) -> op <> Cancel i ->
     i ∉ ids (bids (step op s)) ++ ids (asks (step op s)) ->
     exists o', order_map (step op s) !! i = Some o' /\ quantity o' = 0) /\
  (forall i o, order_map s !! i = Some o ->
     o ∉ resting (bids s) ++ resting (asks s) ->
     let r := cancel_order i s in
     quantity o = 0 /\ r.1 = true /\
     order_map r.2 = delete i (order_map s) /\
     resting (bids r.2) ++ resting (asks r.2) ≡ₚ resting (bids s) ++ resting (asks s) /\
     trades r.2 = trades s /\ last_trade_price r.2 = last_trade_price s /\
     next_order_id r.2 = next_order_id s).
Proof.
  intros Hs. destruct (reachable_index_ok s Hs) as [Hidx Hpos].
  split; [|split; [|split; [|split; [|split; [|split; [|split; [|split; [|split]]]]]]]].
  - intros o Ho r. subst r.
    split; [apply cancel_order_true; by rewrite (index_ok_resting s o)|].
    split; [apply cancel_order_map|].
    split; [by apply cancel_order_live|]. apply cancel_order_frame.
  - intros oid. split; [|apply cancel_order_true].
    destruct (order_map s !! oid) eqn:H; [by eauto|].
    by rewrite cancel_order_false.
  - intros oid. destruct (order_map s !! oid) eqn:H.
    + rewrite cancel_order_true; [done|by eauto].
    + by rewrite cancel_order_false.
  - intros oid Hoid. apply cancel_order_false.
    destruct (order_map s !! oid) as [o|] eqn:H; [|done].
    destruct Hidx as (_ & _ & _ & Hm). destruct (Hm _ _ H) as (_ & ? & _). lia.
  - intros oid ops Hlt s'. apply cancel_order_false. subst s'.
    apply run_absent.
    + by rewrite cancel_order_next.
    + rewrite cancel_order_map. apply lookup_delete_eq.
  - intros oid s'. apply cancel_order_false. subst s'.
    rewrite cancel_order_map. apply lookup_delete_eq.
  - intros ops i. apply run_keeps_index.
  - intros clock sd p q ty who. apply add_order_api_indexed.
  - intros op i Hi Hop Hout.
    destruct (step_keeps_index op s i Hi Hop) as [o' Ho']. exists o'. split; [done|].
    destruct (reachable_index_ok _ (reachable_step op s Hs)) as [Hidx' _].
    by apply (index_ok_gone (step op s) i o').
  - intros i o Ho Hout r. subst r.
    split.
    { apply (index_ok_gone s i o Hidx Ho). intros Hin. apply Hout.
      unfold ids in Hin. rewrite <- fmap_app in Hin.
      apply list_elem_of_fmap in Hin as (x & -> & Hx).
      pose proof (index_ok_resting s x Hidx Hx) as Hm. rewrite Ho in Hm.
      by injection Hm as ->. }
    split; [apply cancel_order_true; by rewrite Ho|].
    split; [apply cancel_order_map|].
    split; [by apply (cancel_order_gone s i o)|]. apply cancel_order_frame.
Qed.

Lemma C5_cancel_semantics_witness :
  ((cancel_order 1 two_sided).1 = true /\
   cancel_order 5 two_sided = (false, two_sided) /\
   cancel_order 1 (cancel_order 1 two_sided).2 = (false, (cancel_order 1 two_sided).2)) /\
  (is_Some (order_map (run [Submit tick "SELL" 100 5 "LIMIT" "User"]
                         (run [Submit tick "BUY" 100 5 "LIMIT" "MM1"] __init__)) !! 1) /\
   (cancel_order 1 filled_pair).1 = true /\
   order_map (cancel_order 1 filled_pair).2 = delete 1 (order_map filled_pair) /\
   resting (bids (cancel_order 1 filled_pair).2) ++ resting (asks (cancel_order 1 filled_pair).2)
   ≡ₚ resting (bids filled_pair) ++ resting (asks filled_pair)).
Proof.
  split.
  - destruct (C5_cancel_semantics two_sided) as (Hlive & _ & _ & Hnever & _ & Htwice & _).
    + eexists. reflexivity.
    + split; [|split].
      * apply (Hlive (mkOrder 1 "BUY" 99 5 "LIMIT" 0 "MM1")).
        vm_compute. apply list_elem_of_here.
      * apply Hnever. right. vm_compute. discriminate.
      * apply Htwice.
  - destruct (C5_cancel_semantics
                (run [Submit tick "BUY" 100 5 "LIMIT" "MM1"] __init__))
      as (_ & _ & _ & _ & _ & _ & Hstays & _).
    { eexists. reflexivity. }
    destruct (C5_cancel_semantics filled_pair)
      as (_ & _ & _ & _ & _ & _ & _ & _ & _ & Hfilled).
    { eexists. reflexivity. }
    destruct (Hfilled 1 (mkOrder 1 "BUY" 100 0 "LIMIT" 0 "MM1"))
      as (_ & Htrue & Hmap & Hrest & _).
    { vm_compute. reflexivity. }
    { vm_compute. apply not_elem_of_nil. }
    split; [|split; [exact Htrue|split; [exact Hmap|exact Hrest]]].
    apply (Hstays [Submit tick "SELL" 100 5 "LIMIT" "User"] 1).
    + vm_compute. by eexists.
    + intros Hin. apply list_elem_of_singleton in Hin. discriminate.
Defined.




(** C7 as stated fails: orders at the same price are not aggregated into one
    level. *)
Lemma C7_counterexample :
  reachable same_price /\
  (get_order_book same_price).1 = [(100%Q, 5); (100%Q, 3)] /\
  ~ NoDup (map fst (get_order_book same_price).1).
Proof.
  split; [eexists; reflexivity|]. split; [by vm_compute|].
  vm_compute. intros [H _]%NoDup_cons. apply H. apply list_elem_of_here.
Qed.

(** C7 (amended): in every reachable state [get_order_book] returns, per
    side, one (price, quantity) entry per resting order, bids sorted
    descending by price and asks ascending; when all submitted quantities were
    positive no entry has quantity zero.  The query is a function of the
    state and returns no state. *)
Theorem C7_get_order_book s :
  reachable s ->
  (get_order_book s).1 ≡ₚ map level_of (resting (bids s)) /\
  (get_order_book s).2 ≡ₚ map level_of (resting (asks s)) /\
  descending (get_order_book s).1 /\ ascending (get_order_book s).2 /\
  (reachable_positive s ->
   forall l, l ∈ (get_order_book s).1 ++ (get_order_book s).2 -> 0 < l.2).
Proof.
  intros Hs. destruct (reachable_queues_ok s Hs) as [(_ & _ & Kb & Ka) _].
  destruct (get_order_book_perm s Kb Ka) as [Pb Pa].
  destruct (get_order_book_sorted s) as [Sb Sa].
  repeat split; try done.
  intros Hpos%reachable_positive_quantities l. rewrite Pb, Pa, <- fmap_app.
  intros (o & -> & Ho)%list_elem_of_fmap. by apply Hpos.
Qed.

Lemma C7_get_order_book_witness :
  (get_order_book two_sided).1 ≡ₚ map level_of (resting (bids two_sided)) /\
  (get_order_book two_sided).2 ≡ₚ map level_of (resting (asks two_sided)) /\
  descending (get_order_book two_sided).1 /\ ascending (get_order_book two_sided).2 /\
  (forall l, l ∈ (get_order_book two_sided).1 ++ (get_order_book two_sided).2 -> 0 < l.2).
Proof.
  destruct (C7_get_order_book two_sided) as (Hb & Ha & Hd & Hu & Hq).
  - eexists. reflexivity.
  - split; [done|]. split; [done|]. split; [done|]. split; [done|].
    apply Hq. eexists. split; [|reflexivity].
    repeat constructor; cbn; lia.
Defined.

(** C8: in a reachable state with resting orders on both sides
    [get_mid_price] is [(best_bid + best_ask) / 2], the float sum of the
    highest bid price and the lowest ask price divided by 2 in float
    arithmetic, whatever that arithmetic rounds to; with a side empty it is
    the price of the most recent trade, and the default 100 when no trade was
    ever recorded.  It is a function of the two queues and the last trade
    price alone. *)
Theorem C8_get_mid_price {float_ops : FloatOps} s :
  reachable s ->
  (bids s <> [] -> asks s <> [] ->
   exists b a, highest_bid b (bids s) /\ lowest_ask a (asks s) /\
     get_mid_price s = float_div (float_add (price b) (price a)) 2) /\
  (bids s = [] \/ asks s = [] ->
   get_mid_price s = from_option t_price 100%Q (last (trades s))) /\
  (forall s', bids s' = bids s -> asks s' = asks s ->
     last_trade_price s' = last_trade_price s -> get_mid_price s' = get_mid_price s).
Proof.
  intros Hs. destruct (reachable_queues_ok s Hs) as [(_ & _ & Kb & Ka) _].
  split; [|split].
  - by apply get_mid_price_both.
  - intros Hempty. rewrite get_mid_price_empty by done. by apply reachable_last_ok.
  - intros s' Hb Ha Hl. unfold get_mid_price, get_order_book. by rewrite Hb, Ha, Hl.
Qed.

Lemma C8_get_mid_price_witness :
  exists b a, highest_bid b (bids two_sided) /\ lowest_ask a (asks two_sided) /\
    get_mid_price (float_ops := exact_arithmetic) two_sided
    = ((price b + price a) / 2)%Q.
Proof.
  apply (C8_get_mid_price (float_ops := exact_arithmetic) two_sided).
  - eexists. reflexivity.
  - vm_compute. discriminate.
  - vm_compute. discriminate.
Defined.

(** C9: every match event takes the traded quantity, the one recorded in the
    appended trade, out of both of its orders: out of the best bid and the
    best ask in a limit cross, out of the market order and the resting order
    in a market execution.  A submission fills no resting order of its own
    side, and what it takes out of the orders resting on the opposite side is
    what it adds to the trade log; so over any run from the empty book the
    quantity filled from resting orders equals the quantity in the trade
    log. *)
Theorem C9_quantity_conservation :
  (forall now s pb tb b rb pa ta a ra,
     bids s = (pb, tb, b) :: rb -> asks s = (pa, ta, a) :: ra ->
     exists t, trades (cross now b a s) = trades s ++ [t] /\
       t_quantity t = Z.min (quantity b) (quantity a) /\
       resting_quantity (bids (cross now b a s))
       = resting_quantity (bids s) - t_quantity t /\
       resting_quantity (asks (cross now b a s))
       = resting_quantity (asks s) - t_quantity t) /\
  (forall now remaining s pa ta a ra,
     asks s = (pa, ta, a) :: ra ->
     exists t, trades (take_ask now remaining a s).2 = trades s ++ [t] /\
       t_quantity t = Z.min remaining (quantity a) /\
       (take_ask now remaining a s).1 = remaining - t_quantity t /\
       resting_quantity (asks (take_ask now remaining a s).2)
       = resting_quantity (asks s) - t_quantity t /\
       bids (take_ask now remaining a s).2 = bids s) /\
  (forall now remaining s pb tb b rb,
     bids s = (pb, tb, b) :: rb ->
     exists t, trades (take_bid now remaining b s).2 = trades s ++ [t] /\
       t_quantity t = Z.min remaining (quantity b) /\
       (take_bid now remaining b s).1 = remaining - t_quantity t /\
       resting_quantity (bids (take_bid now remaining b s).2)
       = resting_quantity (bids s) - t_quantity t /\
       asks (take_bid now remaining b s).2 = asks s) /\
  (forall s clock sd p q ty who,
     reachable s ->
     forall o, order_id o <> next_order_id s ->
       (o ∈ resting (own sd s) <->
        o ∈ resting (own sd (add_order_api clock sd p q ty who s).2))) /\
  (forall op s,
     traded_quantity (trades (step op s))
     = traded_quantity (trades s) + passive_fill_step op s) /\
  (forall ops,
     passive_fill ops __init__ = traded_quantity (trades (run ops __init__))).
Proof.
  split; [|split; [|split; [|split; [|split]]]].
  - intros. by eapply cross_conserves.
  - intros. by eapply take_ask_conserves.
  - intros. by eapply take_bid_conserves.
  - intros. by apply add_order_api_own.
  - apply step_conserves.
  - intros ops. rewrite run_conserves. cbn. lia.
Qed.

Lemma C9_quantity_conservation_witness :
  passive_fill [Submit tick "BUY" 100 10 "LIMIT" "MM1";
                Submit tick "SELL" 99 5 "LIMIT" "User";
                Submit tick "SELL" 0 7 "MARKET" "User"] __init__ = 10 /\
  traded_quantity
    (trades (run [Submit tick "BUY" 100 10 "LIMIT" "MM1";
                  Submit tick "SELL" 99 5 "LIMIT" "User";
                  Submit tick "SELL" 0 7 "MARKET" "User"] __init__)) = 10.
Proof.
  destruct C9_quantity_conservation as (_ & _ & _ & _ & _ & H).
  split; [|rewrite <- H]; reflexivity.
Defined.

(** C10: the default reference price is 100: a fresh engine, and any reachable
    state without trades and with a side empty, report 100; once trades exist,
    the value reported with a side empty is the price of the latest trade, and
    every trade of a limit cross or of a market execution sets it. *)
Theorem C10_default_reference_price {float_ops : FloatOps} :
  get_mid_price __init__ = 100%Q /\
  (forall s, reachable s -> trades s = [] -> bids s = [] \/ asks s = [] ->
     get_mid_price s = 100%Q) /\
  (forall s t, reachable s -> last (trades s) = Some t -> bids s = [] \/ asks s = [] ->
     get_mid_price s = t_price t) /\
  (forall now b a s,
     last_trade_price (cross now b a s)
     = from_option t_price 100%Q (last (trades (cross now b a s)))) /\
  (forall now remaining o s,
     last_trade_price (take_ask now remaining o s).2
     = from_option t_price 100%Q (last (trades (take_ask now remaining o s).2)) /\
     last_trade_price (take_bid now remaining o s).2
     = from_option t_price 100%Q (last (trades (take_bid now remaining o s).2))).
Proof.
  split; [done|]. split; [|split; [|split]].
  - intros s Hs Ht Hempty. rewrite get_mid_price_empty by done.
    rewrite (reachable_last_ok s Hs), Ht. done.
  - intros s t Hs Ht Hempty. rewrite get_mid_price_empty by done.
    rewrite (reachable_last_ok s Hs), Ht. done.
  - intros. apply last_ok_cross.
  - intros. split; [apply last_ok_take_ask|apply last_ok_take_bid].
Qed.

Lemma C10_default_reference_price_witness :
  get_mid_price (float_ops := exact_arithmetic)
    (run [Submit tick "BUY" 100 10 "LIMIT" "MM1";
          Submit tick "SELL" 99 10 "LIMIT" "User"] __init__) = 99%Q.
Proof.
  destruct (C10_default_reference_price (float_ops := exact_arithmetic)) as (_ & _ & H & _).
  apply (H _ (mkTrade 1 99 10 "SELL")).
  - eexists. reflexivity.
  - reflexivity.
  - left. reflexivity.
Defined.

(** * Further properties of the engine *)

(** ** The outcome of a submission and the ids it issues *)

Lemma submissions_app ops ops' :
  submissions (ops ++ ops') = submissions ops + submissions ops'.
Proof.
  induction ops as [|[]]; cbn [submissions app]; lia.
Qed.

Lemma add_order_api_fst clock sd p q ty who s :
  (add_order_api clock sd p q ty who s).1.2
  = if (add_order_api clock sd p q ty who s).1.1 then Some (next_order_id s) else None.
Proof.
  unfold add_order_api. by destruct (add_order _ _ _) as [[] ?].
Qed.

Lemma add_order_api_rejected clock sd p q ty who s :
  (add_order_api clock sd p q ty who s).1.1 = false <->
  ty = "MARKET"%string /\ opposite sd s = [].
Proof.
  unfold add_order_api, add_order, _handle_market_order, opposite.
  cbn [order_type side asks bids set_next_order_id quantity].
  destruct (String.eqb_spec ty "MARKET") as [->|Hty].
  - destruct (String.eqb sd "BUY").
    + destruct (asks s) as [|e ra]; [done|].
      destruct (market_buy_loop _ _ _ _). cbn. split; [done|by intros [_ ?]].
    + destruct (bids s) as [|e rb]; [done|].
      destruct (market_sell_loop _ _ _ _). cbn. split; [done|by intros [_ ?]].
  - cbn. split; [done|by intros [? _]].
Qed.

(** X1: A submission is rejected exactly when it is a MARKET order that finds
    the opposite side empty, which is what the message of [app.py] on a
    rejection says; the id it returns is the counter it found when accepted
    and [None] when rejected, and the counter advances either way. *)
Theorem add_order_api_outcome clock sd p q ty who s :
  let r := add_order_api clock sd p q ty who s in
  (r.1.1 = false <-> ty = "MARKET"%string /\ opposite sd s = []) /\
  r.1.2 = (if r.1.1 then Some (next_order_id s) else None) /\
  next_order_id r.2 = next_order_id s + 1.
Proof.
  cbn zeta. split; [apply add_order_api_rejected|].
  split; [apply add_order_api_fst|apply add_order_api_next].
Qed.

Lemma run_next_order_id ops : forall s,
  next_order_id (run ops s) = next_order_id s + submissions ops.
Proof.
  induction ops as [|op ops IH] using rev_ind; intros s.
  { cbn. lia. }
  rewrite run_snoc, submissions_app.
  destruct op; cbn [step submissions].
  - rewrite add_order_api_next, IH. lia.
  - rewrite cancel_order_next, IH. lia.
Qed.

(** X2: Ids are issued in sequence and never reused: after a run from the
    fresh engine the counter is one more than the number of submissions of
    the run, accepted or not, and that is the id the next accepted submission
    gets. *)
Theorem order_ids_sequential ops clock sd p q ty who :
  let s := run ops __init__ in
  next_order_id s = 1 + submissions ops /\
  forall i, (add_order_api clock sd p q ty who s).1.2 = Some i -> i = 1 + submissions ops.
Proof.
  cbn zeta. pose proof (run_next_order_id ops __init__) as H. cbn [next_order_id __init__] in H.
  split; [done|]. intros i. rewrite add_order_api_fst.
  destruct (_.1.1); [|done]. intros [= <-]. done.
Qed.

(** ** What a submission trades *)

Lemma filled_in o q h h' : filled o q h h' -> o ∈ resting h.
Proof. intros (rest & Hh & _). rewrite Hh. by left. Qed.

Lemma filled_elem_of o q h h' x :
  filled o q h h' -> x ∈ resting h' ->
  x ∈ resting h \/ (x = set_quantity q o /\ q <> 0).
Proof.
  intros (rest & Hh & Hh') Hx. rewrite Hh' in Hx. rewrite Hh.
  destruct (q =? 0) eqn:Hq.
  - left. by right.
  - apply Z.eqb_neq in Hq. apply elem_of_cons in Hx as [->|Hx]; [by right|].
    left. by right.
Qed.

Lemma filled_price o q h h' x :
  filled o q h h' -> x ∈ resting h' ->
  exists x', x' ∈ resting h /\ price x' = price x.
Proof.
  intros Hf Hx. destruct (filled_elem_of _ _ _ _ _ Hf Hx) as [?|[-> _]]; [by exists x|].
  exists o. split; [by eapply filled_in|done].
Qed.

Lemma filled_positive o q h h' :
  filled o q h h' -> 0 <= q ->
  (forall x, x ∈ resting h -> 0 < quantity x) ->
  forall x, x ∈ resting h' -> 0 < quantity x.
Proof.
  intros Hf Hq Hh x Hx.
  destruct (filled_elem_of _ _ _ _ _ Hf Hx) as [?|[-> ?]]; [by apply Hh|].
  cbn [set_quantity quantity]. lia.
Qed.

Lemma filled_quantity o q h h' :
  filled o q h h' -> resting_quantity h' = resting_quantity h - quantity o + q.
Proof.
  intros (rest & Hh & Hh'). unfold resting_quantity.
  rewrite (total_perm _ _ (Permutation_map quantity Hh)).
  rewrite (total_perm _ _ (Permutation_map quantity Hh')).
  destruct (q =? 0) eqn:Hq.
  - apply Z.eqb_eq in Hq. unfold total. cbn [map foldr]. lia.
  - unfold total. cbn [map foldr set_quantity quantity]. lia.
Qed.

(** The trades of a round of limit matching, given an invariant [I] of the
    book that every trade preserves and that makes the trade satisfy [P]. *)
Lemma limit_matching_trace (I : OrderBook -> Prop) (P : Trade -> Prop) :
  (forall s s1 b a t, I s ->
     highest_bid b (bids s) -> lowest_ask a (asks s) -> (price a <= price b)%Q ->
     t_price t = price a -> t_quantity t = Z.min (quantity b) (quantity a) ->
     filled b (quantity b - t_quantity t) (bids s) (bids s1) ->
     filled a (quantity a - t_quantity t) (asks s) (asks s1) ->
     P t /\ I s1) ->
  forall s s', limit_matching s s' -> I s ->
    exists ts, trades s' = trades s ++ ts /\ Forall P ts /\ I s'.
Proof.
  intros Hstep s s' Hm. induction Hm as [s _|s s1 s' b a t Hb Ha Hcross Htr Hp Hq _ _ Hfb Hfa _ IH];
    intros HI.
  { exists []. by rewrite app_nil_r. }
  destruct (Hstep s s1 b a t HI Hb Ha Hcross Hp Hq Hfb Hfa) as [HP HI1].
  destruct (IH HI1) as (ts & Hts & HPs & HI').
  exists (t :: ts). rewrite Hts, Htr, <- app_assoc.
  split; [done|]. split; [by constructor|done].
Qed.

(** The same for the execution of a market order; the execution stops with
    the order filled or the opposite queue empty. *)
Lemma market_execution_trace sd (I : Z -> OrderBook -> Prop) (P : Trade -> Prop) :
  (forall remaining s s1 o t, I remaining s -> 0 < remaining ->
     best sd o (opposite sd s) ->
     t_price t = price o -> t_quantity t = Z.min remaining (quantity o) ->
     t_side t = sd ->
     filled o (quantity o - t_quantity t) (opposite sd s) (opposite sd s1) ->
     own sd s1 = own sd s ->
     P t /\ I (remaining - t_quantity t) s1) ->
  forall remaining s remaining' s',
    market_execution sd remaining s remaining' s' -> I remaining s ->
    exists ts, trades s' = trades s ++ ts /\ Forall P ts /\ I remaining' s' /\
      (remaining' <= 0 \/ opposite sd s' = []).
Proof.
  intros Hstep remaining s remaining' s' Hm.
  induction Hm as [remaining s Hdone|remaining s s1 remaining' s' o t Hrem Hbest Htr Hp Hq Hsd Hf Hown _ IH];
    intros HI.
  { exists []. by rewrite app_nil_r. }
  destruct (Hstep remaining s s1 o t HI Hrem Hbest Hp Hq Hsd Hf Hown) as [HP HI1].
  destruct (IH HI1) as (ts & Hts & HPs & HI' & Hexit).
  exists (t :: ts). rewrite Hts, Htr, <- app_assoc.
  split; [done|]. split; [by constructor|done].
Qed.

Lemma best_in sd o h : best sd o h -> o ∈ resting h.
Proof. unfold best. by destruct (String.eqb sd "BUY"); intros [? _]. Qed.

(** A limit submission pushes the order and runs a round of limit
    matching. *)
Lemma add_order_api_limit_matching clock sd p q ty who s :
  queues_ok s -> ty <> "MARKET"%string ->
  limit_matching
    (place (mkOrder (next_order_id s) sd p q ty (clock O) who)
           (set_next_order_id (next_order_id s + 1) s))
    (add_order_api clock sd p q ty who s).2.
Proof.
  intros Hok Hty. unfold add_order_api, add_order.
  cbn [order_type]. apply String.eqb_neq in Hty. rewrite Hty. cbn [snd].
  unfold match_orders. apply match_orders_loop_matching; [|done].
  by apply queues_ok_place.
Qed.

(** A market submission runs a market execution for BUY when its side is
    [BUY] and for SELL otherwise. *)
Lemma add_order_api_market_execution clock sd p q who s :
  queues_ok s ->
  exists sd' remaining',
    (sd' = "BUY" \/ sd' = "SELL")%string /\
    String.eqb sd' "BUY" = String.eqb sd "BUY" /\
    market_execution sd' q (set_next_order_id (next_order_id s + 1) s) remaining'
      (add_order_api clock sd p q "MARKET" who s).2.
Proof.
  intros Hok. unfold add_order_api, add_order, _handle_market_order.
  cbn [order_type side quantity String.eqb Ascii.eqb Bool.eqb andb].
  set (s0 := set_next_order_id (next_order_id s + 1) s).
  assert (queues_ok s0) as Hok0 by done.
  destruct (String.eqb sd "BUY") eqn:Hsd.
  - exists "BUY"%string. change (asks s0) with (asks s).
    destruct (asks s) as [|e ra] eqn:Hasks.
    { exists q. split; [by left|]. split; [done|]. cbn [snd negb].
      apply market_execution_done. by right. }
    rewrite <- Hasks.
    pose proof (market_buy_loop_execution (length (asks s)) (fun n => clock (S n)) q s0 Hok0
                  (or_introl (le_n _))) as H.
    destruct (market_buy_loop _ _ _ _) as [remaining' s']. cbn [fst snd negb] in *.
    exists remaining'. split; [by left|]. by split.
  - exists "SELL"%string. change (bids s0) with (bids s).
    destruct (bids s) as [|e rb] eqn:Hbids.
    { exists q. split; [by right|]. split; [done|]. cbn [snd negb].
      apply market_execution_done. by right. }
    rewrite <- Hbids.
    pose proof (market_sell_loop_execution (length (bids s)) (fun n => clock (S n)) q s0 Hok0
                  (or_introl (le_n _))) as H.
    destruct (market_sell_loop _ _ _ _) as [remaining' s']. cbn [fst snd negb] in *.
    exists remaining'. split; [by right|]. by split.
Qed.

Lemma opposite_eqb sd sd' s :
  String.eqb sd' "BUY" = String.eqb sd "BUY" -> opposite sd' s = opposite sd s.
Proof. unfold opposite. by intros ->. Qed.

Lemma own_eqb sd sd' s :
  String.eqb sd' "BUY" = String.eqb sd "BUY" -> own sd' s = own sd s.
Proof. unfold own. by intros ->. Qed.

Lemma elem_of_own_opposite sd s o :
  o ∈ resting (bids s) ++ resting (asks s) <->
  o ∈ resting (own sd s) \/ o ∈ resting (opposite sd s).
Proof.
  rewrite elem_of_app. unfold own, opposite. destruct (String.eqb sd "BUY"); tauto.
Qed.

(** ** Every trade has a positive quantity *)

Lemma limit_matching_positive s s' :
  limit_matching s s' -> quantities_ok s ->
  exists ts, trades s' = trades s ++ ts /\ Forall (fun t => 0 < t_quantity t) ts /\
    quantities_ok s'.
Proof.
  apply (limit_matching_trace quantities_ok (fun t => 0 < t_quantity t)).
  clear. intros s s1 b a t Hs [Hb _] [Ha _] _ _ Hq Hfb Hfa.
  assert (0 < quantity b) by (apply Hs, elem_of_app; by left).
  assert (0 < quantity a) by (apply Hs, elem_of_app; by right).
  split; [lia|].
  intros x [Hx|Hx]%elem_of_app.
  - eapply (filled_positive _ _ _ _ Hfb); [lia| |done].
    intros y Hy. apply Hs, elem_of_app. by left.
  - eapply (filled_positive _ _ _ _ Hfa); [lia| |done].
    intros y Hy. apply Hs, elem_of_app. by right.
Qed.

Lemma market_execution_positive sd remaining s remaining' s' :
  market_execution sd remaining s remaining' s' ->
  quantities_ok s -> 0 <= remaining ->
  exists ts, trades s' = trades s ++ ts /\ Forall (fun t => 0 < t_quantity t) ts /\
    (quantities_ok s' /\ 0 <= remaining') /\
    (remaining' <= 0 \/ opposite sd s' = []).
Proof.
  intros Hm Hs Hrem.
  apply (market_execution_trace sd (fun r s => quantities_ok s /\ 0 <= r)
           (fun t => 0 < t_quantity t)) in Hm; [done| |done].
  clear. intros remaining s s1 o t [Hs _] Hrem Hbest _ Hq _ Hf Hown.
  assert (0 < quantity o).
  { apply Hs, (elem_of_own_opposite sd). right. by eapply best_in. }
  split; [lia|]. split; [|lia].
  intros x [Hx|Hx]%(elem_of_own_opposite sd).
  - apply Hs, (elem_of_own_opposite sd). left. by rewrite <- Hown.
  - eapply (filled_positive _ _ _ _ Hf); [lia| |done].
    intros y Hy. apply Hs, (elem_of_own_opposite sd). by right.
Qed.

Lemma quantities_ok_place order s :
  0 < quantity order -> quantities_ok s -> quantities_ok (place order s).
Proof.
  intros Hq Hs x. rewrite (elem_of_own_opposite (side order)).
  destruct (place_spec order s) as (Hown & Hopp & _). rewrite Hown, Hopp.
  rewrite elem_of_cons. intros [[->|Hx]|Hx]; [done| |];
    apply Hs, (elem_of_own_opposite (side order)); [by left|by right].
Qed.

Lemma step_trades_positive op s :
  queues_ok s -> quantities_ok s -> positive_op op ->
  exists ts, trades (step op s) = trades s ++ ts /\
    Forall (fun t => 0 < t_quantity t) ts.
Proof.
  intros Hok Hs Hop. destruct op as [clock sd p q ty who|oid]; cbn [step positive_op] in *.
  - destruct (String.eqb_spec ty "MARKET") as [->|Hty].
    + destruct (add_order_api_market_execution clock sd p q who s Hok)
        as (sd' & remaining' & _ & _ & Hm).
      apply market_execution_positive in Hm as (ts & Hts & HP & _); [|done|lia].
      by exists ts.
    + pose proof (add_order_api_limit_matching clock sd p q ty who s Hok Hty) as Hm.
      apply limit_matching_positive in Hm as (ts & Hts & HP & _).
      * exists ts. by rewrite Hts, (proj1 (proj2 (proj2 (place_spec _ _)))).
      * by apply quantities_ok_place.
  - exists []. by rewrite app_nil_r, (proj1 (cancel_order_frame oid s)).
Qed.

(** X3: Under the input constraint every trade of the log has a positive
    quantity. *)
Theorem trades_positive s :
  reachable_positive s -> Forall (fun t => 0 < t_quantity t) (trades s).
Proof.
  intros (ops & Hops & ->).
  induction ops as [|op ops IH] using rev_ind; [by constructor|].
  apply Forall_app in Hops as [Hops Hop]. rewrite Forall_singleton in Hop.
  rewrite run_snoc.
  assert (reachable_positive (run ops __init__)) as Hs by by exists ops.
  destruct (step_trades_positive op (run ops __init__)) as (ts & -> & Hts); [| |done|].
  - by apply reachable_queues_ok, reachable_positive_reachable.
  - by apply reachable_positive_quantities.
  - apply Forall_app. split; [by apply IH|done].
Qed.

Lemma trades_positive_witness :
  Forall (fun t => 0 < t_quantity t) (trades filled_pair).
Proof.
  apply (trades_positive filled_pair). eexists. split; [|reflexivity].
  repeat constructor; cbn; lia.
Defined.

(** ** A limit order trades at its limit or better *)

Lemma limit_matching_limit_price (buy : bool) p s s' :
  limit_matching s s' ->
  (forall b a, b ∈ resting (bids s) -> a ∈ resting (asks s) -> (price a <= price b)%Q ->
     (price (if buy then b else a) == p)%Q) ->
  exists ts, trades s' = trades s ++ ts /\
    Forall (fun t => if buy then (t_price t <= p)%Q else (t_price t == p)%Q) ts.
Proof.
  intros Hm HI.
  apply (limit_matching_trace
           (fun s => forall b a, b ∈ resting (bids s) -> a ∈ resting (asks s) ->
              (price a <= price b)%Q -> (price (if buy then b else a) == p)%Q)
           (fun t => if buy then (t_price t <= p)%Q else (t_price t == p)%Q)) in Hm;
    [destruct Hm as (ts & ? & ? & _); by exists ts| |done].
  clear. intros s s1 b a t HI [Hb _] [Ha _] Hcross Hp _ Hfb Hfa. split.
  - specialize (HI b a Hb Ha Hcross). rewrite Hp. destruct buy; [|done].
    by rewrite <- HI.
  - intros b' a' Hb' Ha' Hcross'.
    destruct (filled_price _ _ _ _ _ Hfb Hb') as (b0 & Hb0 & Hpb).
    destruct (filled_price _ _ _ _ _ Hfa Ha') as (a0 & Ha0 & Hpa).
    assert (price a0 <= price b0)%Q as Hcross0 by by rewrite Hpa, Hpb.
    specialize (HI b0 a0 Hb0 Ha0 Hcross0). destruct buy; by rewrite <- ?Hpb, <- ?Hpa.
Qed.

(** X4: A limit order trades at its limit or better: the trades of a limit BUY
    at [p] are priced at most [p]; those of a limit SELL are priced exactly
    [p], the price of the ask. *)
Theorem limit_price_respected clock sd p q ty who s :
  reachable s -> ty <> "MARKET"%string ->
  exists ts, trades (add_order_api clock sd p q ty who s).2 = trades s ++ ts /\
    Forall (fun t => if String.eqb sd "BUY" then (t_price t <= p)%Q
                     else (t_price t == p)%Q) ts.
Proof.
  intros Hs Hty. destruct (reachable_queues_ok s Hs) as [Hok Hnc].
  pose proof (add_order_api_limit_matching clock sd p q ty who s Hok Hty) as Hm.
  set (order := mkOrder (next_order_id s) sd p q ty (clock O) who) in Hm.
  set (s1 := set_next_order_id (next_order_id s + 1) s) in Hm.
  destruct (place_spec order s1) as (Hown & Hopp & Htr & _).
  apply (limit_matching_limit_price (String.eqb sd "BUY") p) in Hm.
  { destruct Hm as (ts & Hts & HP). exists ts. by rewrite Hts, Htr. }
  intros b a Hb Ha Hcross. cbn [side order] in Hown, Hopp.
  unfold own, opposite in Hown, Hopp. destruct (String.eqb sd "BUY").
  - rewrite Hown in Hb. rewrite Hopp in Ha.
    apply elem_of_cons in Hb as [->|Hb]; [done|].
    specialize (Hnc b a Hb Ha). lra.
  - rewrite Hown in Ha. rewrite Hopp in Hb.
    apply elem_of_cons in Ha as [->|Ha]; [done|].
    specialize (Hnc b a Hb Ha). lra.
Qed.

Lemma limit_price_respected_witness :
  exists ts,
    trades (add_order_api tick "BUY" 102 3 "LIMIT" "User" two_sided).2
    = trades two_sided ++ ts /\
    Forall (fun t => (t_price t <= 102)%Q) ts.
Proof.
  apply (limit_price_respected tick "BUY" 102 3 "LIMIT" "User" two_sided).
  - eexists. reflexivity.
  - discriminate.
Defined.

(** ** A market order walks the book *)

Lemma worse_trans sd x y z : worse sd x y -> worse sd y z -> worse sd x z.
Proof. unfold worse. destruct (String.eqb sd "BUY"); lra. Qed.

Lemma best_worse sd o h x : best sd o h -> x ∈ resting h -> worse sd (price o) (price x).
Proof.
  unfold best, worse. destruct (String.eqb sd "BUY"); intros [_ H]; apply H.
Qed.

Lemma market_execution_walk sd remaining s remaining' s' :
  market_execution sd remaining s remaining' s' ->
  forall bound, (forall x, x ∈ resting (opposite sd s) -> worse sd bound (price x)) ->
  exists ts, trades s' = trades s ++ ts /\
    Forall (fun t => worse sd bound (t_price t) /\ t_side t = sd) ts /\
    StronglySorted (fun t1 t2 => worse sd (t_price t1) (t_price t2)) ts.
Proof.
  induction 1 as [remaining s Hdone|remaining s s1 remaining' s' o t Hrem Hbest Htr Hp Hq Hsd Hf Hown _ IH];
    intros bound Hbound.
  { exists []. rewrite app_nil_r. by repeat constructor. }
  destruct (IH (price o)) as (ts & Hts & HP & Hsorted).
  { intros x Hx. destruct (filled_price _ _ _ _ _ Hf Hx) as (x' & Hx' & <-).
    by eapply best_worse. }
  exists (t :: ts). rewrite Hts, Htr, <- app_assoc.
  assert (worse sd bound (t_price t)) as Hbt.
  { rewrite Hp. apply Hbound. by eapply best_in. }
  split; [done|]. split.
  - constructor; [done|]. eapply Forall_impl; [exact HP|].
    cbn. intros t' [Ht' ?]. split; [|done].
    eapply worse_trans; [exact Hbt|]. by rewrite Hp.
  - constructor; [done|]. eapply Forall_impl; [exact HP|].
    cbn. intros t' [Ht' _]. by rewrite Hp.
Qed.

(** X5: The trades of a market order are tagged with its side and walk the
    book from the best price on: the prices of a market BUY never decrease
    from one trade to the next, those of a market SELL never increase. *)
Theorem market_order_walks_the_book clock sd p q who s :
  reachable s ->
  exists ts, trades (add_order_api clock sd p q "MARKET" who s).2 = trades s ++ ts /\
    Forall (fun t => t_side t = if String.eqb sd "BUY" then "BUY"%string else "SELL"%string) ts /\
    StronglySorted (fun t1 t2 => if String.eqb sd "BUY" then (t_price t1 <= t_price t2)%Q
                                 else (t_price t2 <= t_price t1)%Q) ts.
Proof.
  intros Hs. destruct (reachable_queues_ok s Hs) as [Hok _].
  destruct (add_order_api_market_execution clock sd p q who s Hok)
    as (sd' & remaining' & Hsd' & Heqb & Hm).
  set (s1 := set_next_order_id (next_order_id s + 1) s) in Hm.
  destruct (opposite sd' s1) as [|[[k t] o] rest] eqn:Hopp.
  { inversion Hm as [? ? _|? ? ? ? ? o ? _ Hbest]; subst.
    - exists []. rewrite app_nil_r. by repeat constructor.
    - apply best_in in Hbest. rewrite Hopp in Hbest. by apply elem_of_nil in Hbest. }
  assert (best sd' o (opposite sd' s1)) as Hbest.
  { destruct Hok as (Hb & Ha & Kb & Ka). unfold best, opposite in *.
    destruct Hsd' as [-> | ->]; cbn [String.eqb Ascii.eqb Bool.eqb andb] in *;
      change (asks s1) with (asks s) in *; change (bids s1) with (bids s) in *;
      rewrite Hopp in *; (split; [by left|]); intros x Hx.
    - by eapply best_ask_lowest.
    - by eapply best_bid_highest. }
  destruct (market_execution_walk _ _ _ _ _ Hm (price o)) as (ts & Hts & HP & Hsorted).
  { intros x Hx. by eapply best_worse. }
  exists ts. split; [done|]. rewrite <- Heqb. split.
  - eapply Forall_impl; [exact HP|]. cbn. intros t' [_ ->].
    by destruct Hsd' as [-> | ->].
  - exact Hsorted.
Qed.

Lemma market_order_walks_the_book_witness :
  exists ts,
    trades (add_order_api (at_time 40) "BUY" 0 7 "MARKET" "User" three_asks).2
    = trades three_asks ++ ts /\
    Forall (fun t => t_side t = "BUY"%string) ts /\
    StronglySorted (fun t1 t2 => (t_price t1 <= t_price t2)%Q) ts.
Proof.
  apply (market_order_walks_the_book (at_time 40) "BUY" 0 7 "User" three_asks).
  eexists. reflexivity.
Defined.

(** ** How much a submission trades *)

Lemma total_nonneg l : Forall (fun q => 0 <= q) l -> 0 <= total l.
Proof. unfold total. induction 1; cbn [foldr]; lia. Qed.

Lemma traded_quantity_app ts ts' :
  traded_quantity (ts ++ ts') = traded_quantity ts + traded_quantity ts'.
Proof. unfold traded_quantity. by rewrite map_app, total_app. Qed.

Lemma traded_quantity_nonneg ts :
  Forall (fun t => 0 < t_quantity t) ts -> 0 <= traded_quantity ts.
Proof.
  intros H. apply total_nonneg, Forall_fmap. eapply Forall_impl; [exact H|].
  cbn. intros. lia.
Qed.

Lemma resting_quantity_nonneg h :
  (forall o, o ∈ resting h -> 0 < quantity o) -> 0 <= resting_quantity h.
Proof.
  intros H. apply total_nonneg, Forall_fmap, Forall_forall.
  intros o Ho. cbn. specialize (H o Ho). lia.
Qed.

Lemma market_execution_conserves sd remaining s remaining' s' :
  market_execution sd remaining s remaining' s' ->
  traded_quantity (trades s') - traded_quantity (trades s) = remaining - remaining' /\
  traded_quantity (trades s') - traded_quantity (trades s)
  = resting_quantity (opposite sd s) - resting_quantity (opposite sd s').
Proof.
  induction 1 as [remaining s Hdone|remaining s s1 remaining' s' o t Hrem Hbest Htr Hp Hq Hsd Hf Hown _ IH].
  { lia. }
  apply filled_quantity in Hf. rewrite Htr, traded_quantity_snoc in IH. lia.
Qed.

(** X6: A market order trades the smaller of its quantity and the quantity
    resting on the opposite side. *)
Theorem market_order_fill clock sd p q who s :
  reachable_positive s -> 0 < q ->
  traded_quantity (trades (add_order_api clock sd p q "MARKET" who s).2)
  = traded_quantity (trades s) + Z.min q (resting_quantity (opposite sd s)).
Proof.
  intros Hs Hq.
  destruct (reachable_queues_ok s (reachable_positive_reachable s Hs)) as [Hok _].
  pose proof (reachable_positive_quantities s Hs) as Hpos.
  destruct (add_order_api_market_execution clock sd p q who s Hok)
    as (sd' & remaining' & _ & Heqb & Hm).
  set (s1 := set_next_order_id (next_order_id s + 1) s) in Hm.
  set (s' := (add_order_api clock sd p q "MARKET" who s).2) in *.
  destruct (market_execution_conserves _ _ _ _ _ Hm) as [Hrem Hrest].
  apply market_execution_positive in Hm as (_ & _ & _ & [Hpos' Hrem'] & Hexit);
    [|done|lia].
  rewrite !(opposite_eqb sd sd') in * by done.
  change (trades s1) with (trades s) in *. change (opposite sd s1) with (opposite sd s) in *.
  assert (0 <= resting_quantity (opposite sd s')).
  { apply resting_quantity_nonneg. intros o Ho.
    apply Hpos', (elem_of_own_opposite sd). by right. }
  destruct Hexit as [Hexit|Hexit]; [lia|].
  rewrite Hexit in *. change (resting_quantity []) with 0 in *. lia.
Qed.

Lemma market_order_fill_witness :
  traded_quantity (trades (add_order_api tick "BUY" 0 15 "MARKET" "User" one_ask).2)
  = traded_quantity (trades one_ask) + Z.min 15 (resting_quantity (opposite "BUY" one_ask)).
Proof.
  apply (market_order_fill tick "BUY" 0 15 "User" one_ask).
  - eexists. split; [|reflexivity]. repeat constructor; cbn; lia.
  - lia.
Defined.

Lemma Permutation_total_quantity (l l' : list Order) :
  l ≡ₚ l' -> total (map quantity l) = total (map quantity l').
Proof. intros H. apply total_perm. by apply Permutation_map. Qed.

(** Orders that stay put do not lower the resting quantity. *)
Lemma resting_quantity_sub h h' :
  NoDup (resting h) -> (forall o, o ∈ resting h -> o ∈ resting h') ->
  (forall o, o ∈ resting h' -> 0 < quantity o) ->
  resting_quantity h <= resting_quantity h'.
Proof.
  intros Hnd Hsub Hpos.
  destruct (submseteq_Permutation (resting h) (resting h')) as (k & Hk).
  { by apply NoDup_submseteq. }
  unfold resting_quantity. rewrite (Permutation_total_quantity _ _ Hk), map_app, total_app.
  assert (0 <= total (map quantity k)); [|lia].
  apply total_nonneg, Forall_fmap, Forall_forall. intros o Ho. cbn.
  assert (0 < quantity o); [|lia]. apply Hpos. rewrite Hk, elem_of_app. by right.
Qed.

(** X7: A limit order never trades more than its quantity, nor more than
    rests on the opposite side. *)
Theorem limit_order_fill_bound clock sd p q ty who s :
  reachable_positive s -> 0 < q -> ty <> "MARKET"%string ->
  0 <= traded_quantity (trades (add_order_api clock sd p q ty who s).2)
       - traded_quantity (trades s)
    <= Z.min q (resting_quantity (opposite sd s)).
Proof.
  intros Hs Hq Hty.
  pose proof (reachable_positive_reachable s Hs) as Hr.
  destruct (reachable_queues_ok s Hr) as [Hok _].
  destruct (reachable_index_ok s Hr) as [Hidx _].
  pose proof (reachable_positive_quantities s Hs) as Hpos.
  set (op := Submit clock sd p q ty who).
  assert (reachable_positive (step op s)) as Hs'.
  { destruct Hs as (ops & Hops & ->). exists (ops ++ [op]).
    split; [|by rewrite run_snoc]. apply Forall_app. split; [done|].
    by apply Forall_singleton. }
  pose proof (reachable_positive_quantities _ Hs') as Hpos'.
  destruct (step_trades_positive op s Hok Hpos Hq) as (ts & Hts & HP).
  apply traded_quantity_nonneg in HP.
  change (step op s) with (add_order_api clock sd p q ty who s).2 in *.
  set (s' := (add_order_api clock sd p q ty who s).2) in *.
  rewrite Hts, traded_quantity_app. split; [lia|].
  (* against the opposite side *)
  pose proof (step_conserves op s) as Hopp. unfold op in Hopp.
  cbn [passive_fill_step] in Hopp.
  change (step (Submit clock sd p q ty who) s) with s' in Hopp. rewrite Hts, traded_quantity_app in Hopp.
  assert (0 <= resting_quantity (opposite sd s')).
  { apply resting_quantity_nonneg. intros o Ho.
    apply Hpos', (elem_of_own_opposite sd). by right. }
  (* against the own side *)
  assert (traded_quantity ts = resting_quantity (own sd s) + q - resting_quantity (own sd s'))
    as Hown.
  { subst s'. unfold add_order_api, add_order in *. cbn [order_type] in *.
    apply String.eqb_neq in Hty. rewrite Hty in *. cbn [snd] in *.
    destruct (place_spec (mkOrder (next_order_id s) sd p q ty (clock O) who)
                (set_next_order_id (next_order_id s + 1) s)) as (Hown & _ & Htr & _).
    cbn [side] in Hown.
    remember (place (mkOrder (next_order_id s) sd p q ty (clock O) who)
                (set_next_order_id (next_order_id s + 1) s)) as s0 eqn:Hs0.
    unfold match_orders in *.
    destruct (match_orders_loop_conserves (length (bids s0) + length (asks s0))
                (fun n => clock (S n)) s0) as [Hb Ha]. cbn zeta in Hb, Ha.
    rewrite Hts, Htr, traded_quantity_app in Hb, Ha.
    change (trades (set_next_order_id (next_order_id s + 1) s)) with (trades s) in *.
    assert (resting_quantity (own sd s0) = q + resting_quantity (own sd s)) as Hq0.
    { unfold resting_quantity. by rewrite (Permutation_total_quantity _ _ Hown). }
    unfold own in *. destruct (String.eqb sd "BUY"); clear -Hb Ha Hq0; lia. }
  assert (resting_quantity (own sd s) <= resting_quantity (own sd s')); [|lia].
  apply resting_quantity_sub.
  - pose proof (index_ok_NoDup s Hidx) as Hnd. apply NoDup_app in Hnd as (Hb & _ & Ha).
    unfold own. by destruct (String.eqb sd "BUY").
  - intros o Ho. apply (add_order_api_own clock sd p q ty who s Hr); [|done].
    assert (order_map s !! order_id o = Some o) as Hm.
    { apply index_ok_resting; [done|]. apply (elem_of_own_opposite sd). by left. }
    destruct Hidx as (_ & _ & _ & Hi). destruct (Hi _ _ Hm) as (_ & ? & _). lia.
  - intros o Ho. apply Hpos', (elem_of_own_opposite sd). by left.
Qed.

Lemma limit_order_fill_bound_witness :
  0 <= traded_quantity (trades (add_order_api tick "BUY" 101 3 "LIMIT" "User" two_sided).2)
       - traded_quantity (trades two_sided)
    <= Z.min 3 (resting_quantity (opposite "BUY" two_sided)).
Proof.
  apply (limit_order_fill_bound tick "BUY" 101 3 "LIMIT" "User" two_sided).
  - eexists. split; [|reflexivity]. repeat constructor; cbn; lia.
  - lia.
  - discriminate.
Defined.

(** ** The trade log only grows *)

Lemma match_orders_loop_prefix fuel : forall clock s,
  trades s `prefix_of` trades (match_orders_loop fuel clock s).
Proof.
  induction fuel as [|fuel IH]; intros clock s; cbn [match_orders_loop]; [done|].
  destruct (bids s) as [|[[pb tb] b] rb]; [done|].
  destruct (asks s) as [|[[pa ta] a] ra]; [done|].
  destruct (Qle_bool (price a) (price b)); [|done].
  etrans; [|apply IH]. rewrite cross_fields. cbn [trades]. by apply prefix_app_r.
Qed.

Lemma market_buy_loop_prefix fuel : forall clock remaining s,
  trades s `prefix_of` trades (market_buy_loop fuel clock remaining s).2.
Proof.
  induction fuel as [|fuel IH]; intros clock remaining s; cbn [market_buy_loop]; [done|].
  destruct (0 <? remaining); [|done].
  destruct (asks s) as [|[[pa ta] a] ra]; [done|].
  rewrite take_ask_fields. cbn zeta.
  etrans; [|apply IH]. cbn [trades]. by apply prefix_app_r.
Qed.

Lemma market_sell_loop_prefix fuel : forall clock remaining s,
  trades s `prefix_of` trades (market_sell_loop fuel clock remaining s).2.
Proof.
  induction fuel as [|fuel IH]; intros clock remaining s; cbn [market_sell_loop]; [done|].
  destruct (0 <? remaining); [|done].
  destruct (bids s) as [|[[pb tb] b] rb]; [done|].
  rewrite take_bid_fields. cbn zeta.
  etrans; [|apply IH]. cbn [trades]. by apply prefix_app_r.
Qed.

Lemma add_order_api_prefix clock sd p q ty who s :
  trades s `prefix_of` trades (add_order_api clock sd p q ty who s).2.
Proof.
  unfold add_order_api, add_order, _handle_market_order, match_orders, place.
  cbn [order_type side quantity].
  set (s1 := set_next_order_id (next_order_id s + 1) s).
  change (trades s) with (trades s1).
  destruct (String.eqb ty "MARKET").
  - destruct (String.eqb sd "BUY").
    + destruct (asks s1) as [|e ra] eqn:Hasks; [done|]. rewrite <- Hasks.
      pose proof (market_buy_loop_prefix (length (asks s1)) (fun n => clock (S n)) q s1).
      by destruct (market_buy_loop _ _ _ _).
    + destruct (bids s1) as [|e rb] eqn:Hbids; [done|]. rewrite <- Hbids.
      pose proof (market_sell_loop_prefix (length (bids s1)) (fun n => clock (S n)) q s1).
      by destruct (market_sell_loop _ _ _ _).
  - cbn [snd]. etrans; [|apply match_orders_loop_prefix].
    by destruct (String.eqb sd "BUY").
Qed.

Lemma step_prefix op s : trades s `prefix_of` trades (step op s).
Proof.
  destruct op; cbn [step]; [apply add_order_api_prefix|].
  by rewrite (proj1 (cancel_order_frame _ _)).
Qed.

(** X8: The trade log is append-only: whatever is submitted or cancelled
    later, the trades recorded so far stay where they are. *)
Theorem trades_append_only ops s : trades s `prefix_of` trades (run ops s).
Proof.
  induction ops as [|op ops IH] using rev_ind; [done|].
  rewrite run_snoc. etrans; [exact IH|apply step_prefix].
Qed.

(** ** Edge cases of a submission *)

(** X9: A market order without a positive quantity that finds the opposite
    side non-empty is accepted and given an id although it trades nothing. *)
Theorem market_order_without_quantity clock sd p q who s :
  q <= 0 -> opposite sd s <> [] ->
  add_order_api clock sd p q "MARKET" who s
  = ((true, Some (next_order_id s)), set_next_order_id (next_order_id s + 1) s).
Proof.
  intros Hq Hopp. unfold add_order_api, add_order, _handle_market_order.
  cbn [order_type side quantity String.eqb Ascii.eqb Bool.eqb andb].
  unfold opposite in Hopp. apply Z.ltb_ge in Hq.
  destruct (String.eqb sd "BUY"); cbn [asks bids set_next_order_id].
  - destruct (asks s) as [|e ra]; [done|]. cbn [length market_buy_loop]. by rewrite Hq.
  - destruct (bids s) as [|e rb]; [done|]. cbn [length market_sell_loop]. by rewrite Hq.
Qed.

Lemma market_order_without_quantity_witness :
  add_order_api tick "BUY" 0 0 "MARKET" "User" one_ask
  = ((true, Some (next_order_id one_ask)),
     set_next_order_id (next_order_id one_ask + 1) one_ask).
Proof.
  apply (market_order_without_quantity tick "BUY" 0 0 "User" one_ask).
  - lia.
  - vm_compute. discriminate.
Defined.

Lemma match_orders_loop_no_cross fuel clock s :
  no_cross s -> match_orders_loop fuel clock s = s.
Proof.
  intros Hnc. destruct fuel as [|fuel]; cbn [match_orders_loop]; [done|].
  destruct (bids s) as [|[[pb tb] b] rb] eqn:Hbids; [done|].
  destruct (asks s) as [|[[pa ta] a] ra] eqn:Hasks; [done|].
  destruct (Qle_bool (price a) (price b)) eqn:Hle; [|done].
  apply Qle_bool_iff in Hle.
  assert (price b < price a)%Q; [|lra].
  apply Hnc; [rewrite Hbids|rewrite Hasks]; by left.
Qed.

Lemma no_cross_place order s :
  no_cross s ->
  (forall o, o ∈ resting (opposite (side order) s) ->
     ~ reaches (side order) (price order) (price o)) ->
  no_cross (place order s).
Proof.
  intros Hnc Hp b a Hb Ha.
  destruct (place_spec order s) as (Hown & Hopp & _).
  unfold own, opposite, reaches in *. destruct (String.eqb (side order) "BUY").
  - rewrite Hown in Hb. rewrite Hopp in Ha.
    apply elem_of_cons in Hb as [->|Hb]; [|by apply Hnc].
    specialize (Hp a Ha). lra.
  - rewrite Hown in Ha. rewrite Hopp in Hb.
    apply elem_of_cons in Ha as [->|Ha]; [|by apply Hnc].
    specialize (Hp b Hb). lra.
Qed.

(** X10: A limit order trades on arrival exactly when its price reaches an
    order of the opposite side; when it does not, it rests as submitted and
    the rest of the engine is as before. *)
Theorem limit_order_trades_iff_reached clock sd p q ty who s :
  reachable s -> ty <> "MARKET"%string ->
  let order := mkOrder (next_order_id s) sd p q ty (clock O) who in
  let r := add_order_api clock sd p q ty who s in
  (trades r.2 = trades s <->
   forall o, o ∈ resting (opposite sd s) -> ~ reaches sd p (price o)) /\
  (trades r.2 = trades s ->
   r.2 = place order (set_next_order_id (next_order_id s + 1) s) /\
   resting (own sd r.2) ≡ₚ order :: resting (own sd s) /\
   opposite sd r.2 = opposite sd s /\
   order_map r.2 = <[next_order_id s := order]> (order_map s) /\
   last_trade_price r.2 = last_trade_price s).
Proof.
  intros Hs Hty order r. destruct (reachable_queues_ok s Hs) as [Hok Hnc].
  set (s1 := set_next_order_id (next_order_id s + 1) s).
  pose proof (add_order_api_limit_matching clock sd p q ty who s Hok Hty) as Hm.
  fold order s1 r in Hm.
  destruct (place_spec order s1) as (Hown & Hopp & Htr & Hmap).
  cbn [side order order_id] in Hown, Hopp, Hmap.
  assert ((forall o, o ∈ resting (opposite sd s) -> ~ reaches sd p (price o)) ->
          r.2 = place order s1) as Hrest.
  { intros Hp. subst r. unfold add_order_api, add_order. fold order s1.
    cbn [order_type order]. apply String.eqb_neq in Hty. rewrite Hty. cbn [snd].
    apply match_orders_loop_no_cross, no_cross_place; [done|].
    exact Hp. }
  assert (trades r.2 = trades s ->
          forall o, o ∈ resting (opposite sd s) -> ~ reaches sd p (price o)) as Hback.
  { intros Heq o Ho Hreach.
    inversion Hm as [s0 Hdone|s0 s2 s' b a t Hb Ha Hcross Htr2 _ _ _ _ _ _ Hm2]; subst.
    - assert (no_cross (place order s1)) as Hnc1.
      { destruct Hdone as [Hdone|[Hdone|Hdone]]; [| |done].
        - intros b' a' Hb'. rewrite Hdone in Hb'. by apply elem_of_nil in Hb'.
        - intros b' a' _ Ha'. rewrite Hdone in Ha'. by apply elem_of_nil in Ha'. }
      unfold own, opposite, reaches in *. destruct (String.eqb sd "BUY").
      + assert (price order < price o)%Q; [|cbn in *; lra].
        apply Hnc1; [rewrite Hown; by left|by rewrite Hopp].
      + assert (price o < price order)%Q; [|cbn in *; lra].
        apply Hnc1; [by rewrite Hopp|rewrite Hown; by left].
    - pose proof (limit_matching_trace (fun _ => True) (fun _ => True)) as Htrace.
      destruct (Htrace (fun _ _ _ _ _ _ _ _ _ _ _ _ _ => conj I I) _ _ Hm2 I)
        as (ts & Hts & _).
      rewrite Hts, Htr2, Htr in Heq. change (trades s1) with (trades s) in Heq.
      apply (f_equal length) in Heq. rewrite !length_app in Heq. cbn in Heq. lia. }
  split.
  - split; [exact Hback|]. intros Hp. by rewrite (Hrest Hp), Htr.
  - intros Heq. specialize (Hrest (Hback Heq)). rewrite Hrest.
    split; [done|]. split; [exact Hown|]. split; [exact Hopp|]. split; [exact Hmap|].
    unfold place. by destruct (String.eqb (side order) "BUY").
Qed.

Lemma limit_order_trades_iff_reached_witness :
  trades (add_order_api tick "BUY" 100 1 "LIMIT" "User" two_sided).2 = trades two_sided <->
  forall o, o ∈ resting (opposite "BUY" two_sided) -> ~ reaches "BUY" 100 (price o).
Proof.
  apply (limit_order_trades_iff_reached tick "BUY" 100 1 "LIMIT" "User" two_sided).
  - eexists. reflexivity.
  - discriminate.
Defined.

(** ** Price, then time *)

Lemma stamped_entry_set_quantity q p t o :
  stamped_entry (p, t, o) -> stamped_entry (p, t, set_quantity q o).
Proof. done. Qed.

Lemma stamped_settle q h : Forall stamped_entry h -> Forall stamped_entry (settle q h).
Proof. apply settle_Forall. intros. by apply stamped_entry_set_quantity. Qed.

Lemma stamped_cross now b a s : stamped s -> stamped (cross now b a s).
Proof.
  intros [Hb Ha]. rewrite cross_fields. cbn zeta. split; cbn [bids asks];
    by apply stamped_settle.
Qed.

Lemma stamped_take_ask now remaining a s :
  stamped s -> stamped (take_ask now remaining a s).2.
Proof.
  intros [Hb Ha]. rewrite take_ask_fields. cbn zeta. split; cbn [snd bids asks];
    [done|by apply stamped_settle].
Qed.

Lemma stamped_take_bid now remaining b s :
  stamped s -> stamped (take_bid now remaining b s).2.
Proof.
  intros [Hb Ha]. rewrite take_bid_fields. cbn zeta. split; cbn [snd bids asks];
    [by apply stamped_settle|done].
Qed.

Lemma match_orders_loop_stamped fuel : forall clock s,
  stamped s -> stamped (match_orders_loop fuel clock s).
Proof.
  induction fuel as [|fuel IH]; intros clock s Hs; cbn [match_orders_loop]; [done|].
  destruct (bids s) as [|[[pb tb] b] rb]; [done|].
  destruct (asks s) as [|[[pa ta] a] ra]; [done|].
  destruct (Qle_bool (price a) (price b)); [|done].
  by apply IH, stamped_cross.
Qed.

Lemma market_buy_loop_stamped fuel : forall clock remaining s,
  stamped s -> stamped (market_buy_loop fuel clock remaining s).2.
Proof.
  induction fuel as [|fuel IH]; intros clock remaining s Hs; cbn [market_buy_loop]; [done|].
  destruct (0 <? remaining); [|done].
  destruct (asks s) as [|[[pa ta] a] ra]; [done|].
  pose proof (stamped_take_ask (clock O) remaining a s Hs).
  destruct (take_ask (clock O) remaining a s). by apply IH.
Qed.

Lemma market_sell_loop_stamped fuel : forall clock remaining s,
  stamped s -> stamped (market_sell_loop fuel clock remaining s).2.
Proof.
  induction fuel as [|fuel IH]; intros clock remaining s Hs; cbn [market_sell_loop]; [done|].
  destruct (0 <? remaining); [|done].
  destruct (bids s) as [|[[pb tb] b] rb]; [done|].
  pose proof (stamped_take_bid (clock O) remaining b s Hs).
  destruct (take_bid (clock O) remaining b s). by apply IH.
Qed.

Lemma add_order_stamped clock order s : stamped s -> stamped (add_order clock order s).2.
Proof.
  intros Hs. unfold add_order, place, _handle_market_order.
  destruct (String.eqb (order_type order) "MARKET").
  - destruct (String.eqb (side order) "BUY").
    + destruct (asks s) as [|e ra] eqn:Hasks; [done|]. rewrite <- Hasks.
      pose proof (market_buy_loop_stamped (length (asks s)) clock (quantity order) s Hs).
      by destruct (market_buy_loop _ _ _ _).
    + destruct (bids s) as [|e rb] eqn:Hbids; [done|]. rewrite <- Hbids.
      pose proof (market_sell_loop_stamped (length (bids s)) clock (quantity order) s Hs).
      by destruct (market_sell_loop _ _ _ _).
  - cbn [snd]. apply match_orders_loop_stamped. destruct Hs as [Hb Ha].
    destruct (String.eqb (side order) "BUY"); split;
      cbn [bids asks set_bids set_asks set_order_map]; try done;
      rewrite heappush_perm; by constructor.
Qed.

Lemma cancel_order_stamped oid s : stamped s -> stamped (cancel_order oid s).2.
Proof.
  intros [Hb Ha]. unfold cancel_order.
  destruct (order_map s !! oid) as [order|]; [|done].
  destruct (String.eqb (side order) "BUY"); split;
    cbn [snd bids asks set_bids set_asks set_order_map]; try done;
    rewrite heapify_perm; by apply Forall_keep.
Qed.

Lemma reachable_stamped s : reachable s -> stamped s.
Proof.
  revert s. apply reachable_ind'; [by split|].
  intros [clock sd p q ty who|oid] s _ Hs; cbn [step].
  - unfold add_order_api.
    match goal with |- context [add_order ?c ?o ?s0] =>
      pose proof (add_order_stamped c o s0 Hs); by destruct (add_order c o s0) end.
  - by apply cancel_order_stamped.
Qed.

Lemma head_first e rest o :
  Heapq.is_heap entry_lt (e :: rest) -> Forall stamped_entry (e :: rest) ->
  o ∈ resting (e :: rest) ->
  exists e', e' ∈ e :: rest /\ entry_order e' = o /\
    (entry_key e < entry_key e' \/
     (entry_key e == entry_key e' /\
      timestamp (entry_order e) <= timestamp o))%Q.
Proof.
  intros Hh Ht (e' & -> & He')%list_elem_of_fmap. exists e'. split; [done|]. split; [done|].
  pose proof (entry_root_min _ _ _ Hh He') as Hle. apply entry_le_spec in Hle.
  rewrite Forall_forall in Ht.
  pose proof (Ht e (list_elem_of_here _ _)) as Hte. pose proof (Ht e' He') as Hte'.
  unfold stamped_entry in *. rewrite Hte, Hte' in Hle.
  destruct Hle as [?|[? [?|[_ ?]]]]; [by left|right..]; split; (done || lra).
Qed.

(** X12: Price, then time: the order at the head of a queue, the one the
    engine trades against, is the best priced of its side and, among the
    orders at that price, one with the earliest timestamp. *)
Theorem price_time_priority s :
  reachable s ->
  (forall k t a rest o, asks s = (k, t, a) :: rest -> o ∈ resting (asks s) ->
     (price a < price o)%Q \/
     ((price a == price o)%Q /\ (timestamp a <= timestamp o)%Q)) /\
  (forall k t b rest o, bids s = (k, t, b) :: rest -> o ∈ resting (bids s) ->
     (price o < price b)%Q \/
     ((price o == price b)%Q /\ (timestamp b <= timestamp o)%Q)).
Proof.
  intros Hs. destruct (reachable_queues_ok s Hs) as [(Hb & Ha & Kb & Ka) _].
  destruct (reachable_stamped s Hs) as [Tb Ta].
  split.
  - intros k t a rest o Hasks Ho. rewrite Hasks in *.
    destruct (head_first _ _ _ Ha Ta Ho) as (e' & He' & <- & Hle).
    rewrite Forall_forall in Ka.
    pose proof (Ka _ (list_elem_of_here _ _)) as K. pose proof (Ka _ He') as K'.
    unfold ask_entry in *. rewrite K, K' in Hle. cbn [entry_order snd] in Hle.
    destruct Hle as [?|[? ?]]; [by left|by right].
  - intros k t b rest o Hbids Ho. rewrite Hbids in *.
    destruct (head_first _ _ _ Hb Tb Ho) as (e' & He' & <- & Hle).
    rewrite Forall_forall in Kb.
    pose proof (Kb _ (list_elem_of_here _ _)) as K. pose proof (Kb _ He') as K'.
    unfold bid_entry in *. rewrite K, K' in Hle. cbn [entry_order snd] in Hle.
    destruct Hle as [?|[? ?]]; [left|right]; [lra|]. split; [lra|done].
Qed.

Lemma price_time_priority_witness :
  (price (mkOrder 3 "SELL" 99 5 "LIMIT" 30 "MM1")
   < price (mkOrder 1 "SELL" 100 5 "LIMIT" 10 "MM1"))%Q \/
  ((price (mkOrder 3 "SELL" 99 5 "LIMIT" 30 "MM1")
    == price (mkOrder 1 "SELL" 100 5 "LIMIT" 10 "MM1"))%Q /\
   (timestamp (mkOrder 3 "SELL" 99 5 "LIMIT" 30 "MM1")
    <= timestamp (mkOrder 1 "SELL" 100 5 "LIMIT" 10 "MM1"))%Q).
Proof.
  eapply (proj1 (price_time_priority three_asks (ex_intro _ _ eq_refl))).
  - vm_compute. reflexivity.
  - vm_compute. apply list_elem_of_further, list_elem_of_further, list_elem_of_here.
Defined.

(** ** Fills only shrink an order *)

Lemma shrunk_refl o : shrunk o o.
Proof. by destruct o. Qed.

Lemma shrunk_trans o1 o2 o3 : shrunk o1 o2 -> shrunk o2 o3 -> shrunk o1 o3.
Proof.
  intros (H1 & ? & ?) (H2 & ? & ?). split; [|split; [lia|tauto]].
  rewrite H2, H1. by destruct o1.
Qed.

Lemma write_quantity_lookup b q m i o' :
  m !! order_id b = Some b -> 0 <= q <= quantity b ->
  write_quantity b q m !! i = Some o' ->
  exists o, m !! i = Some o /\ shrunk o o'.
Proof.
  intros Hb Hq. unfold write_quantity. destruct (decide (i = order_id b)) as [->|Hi].
  - rewrite lookup_alter_eq, Hb. intros [= <-]. exists b. split; [done|].
    split; [done|]. cbn [set_quantity quantity]. lia.
  - rewrite lookup_alter_ne by done. intros Ho. exists o'. split; [done|apply shrunk_refl].
Qed.

Lemma cross_lookup now pb tb b rb pa ta a ra s i o' :
  bids s = (pb, tb, b) :: rb -> asks s = (pa, ta, a) :: ra ->
  index_ok s -> quantities_ok s ->
  order_map (cross now b a s) !! i = Some o' ->
  exists o, order_map s !! i = Some o /\ shrunk o o'.
Proof.
  intros Hbids Hasks Hidx Hpos. rewrite cross_fields. cbn zeta. cbn [order_map].
  assert (0 < quantity b) by (apply Hpos; rewrite Hbids; apply elem_of_app; left; by left).
  assert (0 < quantity a) by (apply Hpos; rewrite Hasks; apply elem_of_app; right; by left).
  unfold index_ok in Hidx. rewrite Hbids, Hasks in Hidx.
  pose proof (index_inv_settle is_buy is_sell _ _ _ _ _ _ _
                (quantity b - Z.min (quantity b) (quantity a))
                (is_buy_set_quantity _) Hidx) as (_ & _ & Ha' & _).
  destruct Hidx as (_ & Hb' & _).
  intros Ho'.
  apply write_quantity_lookup in Ho' as (o1 & Ho1 & H1); [| |lia].
  2:{ apply Ha'. by left. }
  apply write_quantity_lookup in Ho1 as (o & Ho & H2); [| |lia].
  2:{ apply Hb'. by left. }
  exists o. split; [done|]. by eapply shrunk_trans.
Qed.

Lemma take_ask_lookup now remaining pa ta a ra s i o' :
  asks s = (pa, ta, a) :: ra -> 0 < remaining ->
  index_ok s -> quantities_ok s ->
  order_map (take_ask now remaining a s).2 !! i = Some o' ->
  exists o, order_map s !! i = Some o /\ shrunk o o'.
Proof.
  intros Hasks Hrem Hidx Hpos. rewrite take_ask_fields. cbn zeta. cbn [snd order_map].
  assert (0 < quantity a) by (apply Hpos; rewrite Hasks; apply elem_of_app; right; by left).
  destruct Hidx as (_ & _ & Ha' & _). rewrite Hasks in Ha'.
  apply write_quantity_lookup; [|lia]. apply Ha'. by left.
Qed.

Lemma take_bid_lookup now remaining pb tb b rb s i o' :
  bids s = (pb, tb, b) :: rb -> 0 < remaining ->
  index_ok s -> quantities_ok s ->
  order_map (take_bid now remaining b s).2 !! i = Some o' ->
  exists o, order_map s !! i = Some o /\ shrunk o o'.
Proof.
  intros Hbids Hrem Hidx Hpos. rewrite take_bid_fields. cbn zeta. cbn [snd order_map].
  assert (0 < quantity b) by (apply Hpos; rewrite Hbids; apply elem_of_app; left; by left).
  destruct Hidx as (_ & Hb' & _). rewrite Hbids in Hb'.
  apply write_quantity_lookup; [|lia]. apply Hb'. by left.
Qed.

Lemma match_orders_loop_lookup fuel i o' : forall clock s,
  index_ok s -> quantities_ok s ->
  order_map (match_orders_loop fuel clock s) !! i = Some o' ->
  exists o, order_map s !! i = Some o /\ shrunk o o'.
Proof.
  induction fuel as [|fuel IH]; intros clock s Hidx Hpos; cbn [match_orders_loop].
  { intros Ho. exists o'. split; [done|apply shrunk_refl]. }
  destruct (bids s) as [|[[pb tb] b] rb] eqn:Hbids.
  { intros Ho. exists o'. split; [done|apply shrunk_refl]. }
  destruct (asks s) as [|[[pa ta] a] ra] eqn:Hasks.
  { intros Ho. exists o'. split; [done|apply shrunk_refl]. }
  destruct (Qle_bool (price a) (price b)).
  2:{ intros Ho. exists o'. split; [done|apply shrunk_refl]. }
  intros Ho. apply IH in Ho as (o1 & Ho1 & H1).
  - eapply cross_lookup in Ho1 as (o & Ho & H0); [|done..].
    exists o. split; [done|]. by eapply shrunk_trans.
  - by eapply index_ok_cross.
  - by eapply quantities_ok_cross.
Qed.

Lemma market_buy_loop_lookup fuel i o' : forall clock remaining s,
  index_ok s -> quantities_ok s ->
  order_map (market_buy_loop fuel clock remaining s).2 !! i = Some o' ->
  exists o, order_map s !! i = Some o /\ shrunk o o'.
Proof.
  induction fuel as [|fuel IH]; intros clock remaining s Hidx Hpos; cbn [market_buy_loop].
  { intros Ho. exists o'. split; [done|apply shrunk_refl]. }
  destruct (0 <? remaining) eqn:Hrem.
  2:{ intros Ho. exists o'. split; [done|apply shrunk_refl]. }
  apply Z.ltb_lt in Hrem.
  destruct (asks s) as [|[[pa ta] a] ra] eqn:Hasks.
  { intros Ho. exists o'. split; [done|apply shrunk_refl]. }
  pose proof (index_ok_take_ask (clock O) remaining _ _ _ _ _ Hasks Hidx) as Hidx1.
  pose proof (quantities_ok_take_ask (clock O) remaining _ _ _ _ _ Hasks Hrem Hpos) as Hpos1.
  pose proof (fun o1 => take_ask_lookup (clock O) remaining _ _ _ _ _ i o1 Hasks Hrem Hidx Hpos)
    as Hstep.
  destruct (take_ask (clock O) remaining a s) as [remaining1 s1]. cbn [snd] in *.
  intros Ho. apply IH in Ho as (o1 & Ho1 & H1); [|done..].
  apply Hstep in Ho1 as (o & Ho & H0).
  exists o. split; [done|]. by eapply shrunk_trans.
Qed.

Lemma market_sell_loop_lookup fuel i o' : forall clock remaining s,
  index_ok s -> quantities_ok s ->
  order_map (market_sell_loop fuel clock remaining s).2 !! i = Some o' ->
  exists o, order_map s !! i = Some o /\ shrunk o o'.
Proof.
  induction fuel as [|fuel IH]; intros clock remaining s Hidx Hpos; cbn [market_sell_loop].
  { intros Ho. exists o'. split; [done|apply shrunk_refl]. }
  destruct (0 <? remaining) eqn:Hrem.
  2:{ intros Ho. exists o'. split; [done|apply shrunk_refl]. }
  apply Z.ltb_lt in Hrem.
  destruct (bids s) as [|[[pb tb] b] rb] eqn:Hbids.
  { intros Ho. exists o'. split; [done|apply shrunk_refl]. }
  pose proof (index_ok_take_bid (clock O) remaining _ _ _ _ _ Hbids Hidx) as Hidx1.
  pose proof (quantities_ok_take_bid (clock O) remaining _ _ _ _ _ Hbids Hrem Hpos) as Hpos1.
  pose proof (fun o1 => take_bid_lookup (clock O) remaining _ _ _ _ _ i o1 Hbids Hrem Hidx Hpos)
    as Hstep.
  destruct (take_bid (clock O) remaining b s) as [remaining1 s1]. cbn [snd] in *.
  intros Ho. apply IH in Ho as (o1 & Ho1 & H1); [|done..].
  apply Hstep in Ho1 as (o & Ho & H0).
  exists o. split; [done|]. by eapply shrunk_trans.
Qed.

Lemma index_ok_place order s :
  index_inv is_buy is_sell (bids s) (asks s) (order_map s) (order_id order) ->
  next_order_id s = order_id order + 1 -> 1 <= order_id order ->
  order_type order <> "MARKET"%string ->
  index_ok (place order s).
Proof.
  intros Hs Hnext Hpos Hty. unfold place.
  destruct (String.eqb (side order) "BUY") eqn:Hside; unfold index_ok;
    cbn [bids asks order_map next_order_id set_bids set_asks set_order_map];
    rewrite Hnext.
  - apply String.eqb_eq in Hside. by apply index_inv_push.
  - apply String.eqb_neq in Hside. apply index_inv_sym.
    apply index_inv_push; [done|done|done|by apply index_inv_sym].
Qed.

(** The order a submission finds under an id after it ran is the one that
    was there before, shrunk, or the submitted order itself, shrunk. *)
Lemma add_order_api_lookup clock sd p q ty who s i o' :
  1 <= next_order_id s -> index_ok s -> quantities_ok s -> 0 < q ->
  order_map (add_order_api clock sd p q ty who s).2 !! i = Some o' ->
  exists o, shrunk o o' /\
    (order_map s !! i = Some o \/
     (i = next_order_id s /\ o = mkOrder (next_order_id s) sd p q ty (clock O) who)).
Proof.
  intros Hn Hidx Hpos Hq. unfold add_order_api, add_order, _handle_market_order.
  cbn [order_type side quantity].
  set (s1 := set_next_order_id (next_order_id s + 1) s).
  assert (index_ok s1) as Hidx1.
  { unfold index_ok, s1. cbn [bids asks order_map next_order_id set_next_order_id].
    eapply index_inv_mono; [|exact Hidx]. lia. }
  assert (quantities_ok s1) as Hpos1 by done.
  change (order_map s) with (order_map s1).
  destruct (String.eqb ty "MARKET") eqn:Hty.
  - destruct (String.eqb sd "BUY").
    + destruct (asks s1) as [|e ra] eqn:Hasks.
      { cbn [snd negb]. intros Ho. exists o'. split; [apply shrunk_refl|by left]. }
      rewrite <- Hasks.
      pose proof (market_buy_loop_lookup (length (asks s1)) i o' (fun n => clock (S n)) q s1
                    Hidx1 Hpos1) as H.
      destruct (market_buy_loop _ _ _ _) as [remaining' s']. cbn [snd negb] in *.
      intros Ho. destruct (H Ho) as (o & ? & ?). exists o. split; [done|by left].
    + destruct (bids s1) as [|e rb] eqn:Hbids.
      { cbn [snd negb]. intros Ho. exists o'. split; [apply shrunk_refl|by left]. }
      rewrite <- Hbids.
      pose proof (market_sell_loop_lookup (length (bids s1)) i o' (fun n => clock (S n)) q s1
                    Hidx1 Hpos1) as H.
      destruct (market_sell_loop _ _ _ _) as [remaining' s']. cbn [snd negb] in *.
      intros Ho. destruct (H Ho) as (o & ? & ?). exists o. split; [done|by left].
  - cbn [snd]. apply String.eqb_neq in Hty.
    set (order := mkOrder (next_order_id s) sd p q ty (clock O) who).
    intros Ho. apply match_orders_loop_lookup in Ho as (o0 & Ho & Hsh).
    + exists o0. split; [done|].
      rewrite (proj2 (proj2 (proj2 (place_spec order s1)))) in Ho. cbn [order_id order] in Ho.
      destruct (decide (i = next_order_id s)) as [->|Hi].
      * rewrite lookup_insert_eq in Ho. right. split; [done|congruence].
      * rewrite lookup_insert_ne in Ho by done. by left.
    + by apply index_ok_place.
    + by apply quantities_ok_place.
Qed.

Lemma step_lookup op s i o' :
  1 <= next_order_id s -> index_ok s -> quantities_ok s -> positive_op op ->
  i < next_order_id s ->
  order_map (step op s) !! i = Some o' ->
  exists o, order_map s !! i = Some o /\ shrunk o o'.
Proof.
  intros Hn Hidx Hpos Hop Hi. destruct op as [clock sd p q ty who|oid]; cbn [step].
  - intros Ho. apply add_order_api_lookup in Ho as (o & Hsh & [Ho|[-> _]]); [|lia|done..].
    by exists o.
  - rewrite cancel_order_map. intros Ho. exists o'. split; [|apply shrunk_refl].
    apply lookup_delete_Some in Ho. tauto.
Qed.

Lemma reachable_positive_step op s :
  reachable_positive s -> positive_op op -> reachable_positive (step op s).
Proof.
  intros (ops & Hops & ->) Hop. exists (ops ++ [op]).
  split; [|by rewrite run_snoc]. apply Forall_app. split; [done|].
  by apply Forall_singleton.
Qed.

Lemma reachable_positive_run ops : forall s,
  reachable_positive s -> Forall positive_op ops -> reachable_positive (run ops s).
Proof.
  induction ops as [|op ops IH] using rev_ind; intros s Hs Hops; [done|].
  apply Forall_app in Hops as [Hops Hop]. rewrite Forall_singleton in Hop.
  rewrite run_snoc. apply reachable_positive_step; [|done]. by apply IH.
Qed.

Lemma step_next_order_id op s : next_order_id s <= next_order_id (step op s).
Proof.
  destruct op; cbn [step]; [rewrite add_order_api_next|rewrite cancel_order_next]; lia.
Qed.

Lemma run_next_order_id_le ops s : next_order_id s <= next_order_id (run ops s).
Proof.
  induction ops as [|op ops IH] using rev_ind; [done|].
  rewrite run_snoc. etrans; [exact IH|apply step_next_order_id].
Qed.

Lemma reachable_positive_index_quantities s i o :
  reachable_positive s -> order_map s !! i = Some o -> 0 <= quantity o.
Proof.
  intros (ops & Hops & ->). revert i o.
  induction ops as [|op ops IH] using rev_ind; intros i o; [done|].
  apply Forall_app in Hops as [Hops Hop]. rewrite Forall_singleton in Hop.
  specialize (IH Hops). rewrite run_snoc.
  assert (reachable_positive (run ops __init__)) as Hs by by exists ops.
  pose proof (reachable_positive_reachable _ Hs) as Hr.
  destruct (reachable_index_ok _ Hr) as [Hidx Hn].
  pose proof (reachable_positive_quantities _ Hs) as Hpos.
  destruct op as [clock sd p q ty who|oid]; cbn [step positive_op] in *.
  - intros Ho. apply add_order_api_lookup in Ho as (o0 & (_ & _ & Hsh) & [Ho|[-> ->]]);
      [| |done..].
    + apply Hsh. by eapply IH.
    + apply Hsh. cbn. lia.
  - rewrite cancel_order_map. intros (_ & Ho)%lookup_delete_Some. by eapply IH.
Qed.

(** X13: Fills only shrink an order: under the input constraint an order that
    is indexed before and after a run is, after it, the same order with a
    quantity that has not grown and is not negative; its price, side, type,
    owner and timestamp never change. *)
Theorem orders_only_shrink ops s i o o' :
  reachable_positive s -> Forall positive_op ops ->
  order_map s !! i = Some o -> order_map (run ops s) !! i = Some o' ->
  o' = set_quantity (quantity o') o /\ 0 <= quantity o' <= quantity o.
Proof.
  intros Hs Hops Ho Ho'.
  assert (shrunk o o') as (? & ? & ?).
  { revert o' Ho'. induction ops as [|op ops IH] using rev_ind; intros o' Ho'.
    { cbn in Ho'. replace o' with o by congruence. apply shrunk_refl. }
    apply Forall_app in Hops as [Hops Hop]. rewrite Forall_singleton in Hop.
    rewrite run_snoc in Ho'.
    pose proof (reachable_positive_run ops s Hs Hops) as Hs1.
    pose proof (reachable_positive_reachable _ Hs1) as Hr1.
    destruct (reachable_index_ok _ Hr1) as [Hidx1 Hn1].
    pose proof (reachable_positive_quantities _ Hs1) as Hpos1.
    apply step_lookup in Ho' as (o1 & Ho1 & Hsh); [|done..|].
    - eapply shrunk_trans; [|exact Hsh]. by apply IH.
    - destruct (reachable_index_ok _ (reachable_positive_reachable _ Hs))
        as [(_ & _ & _ & Hi) _].
      destruct (Hi _ _ Ho) as (_ & ? & _).
      pose proof (run_next_order_id_le ops s). lia. }
  split; [done|]. split; [|done].
  eapply reachable_positive_index_quantities; [|exact Ho'].
  by apply reachable_positive_run.
Qed.

Lemma orders_only_shrink_witness :
  mkOrder 1 "BUY" 100 5 "LIMIT" 0 "MM1"
  = set_quantity (quantity (mkOrder 1 "BUY" 100 5 "LIMIT" 0 "MM1"))
      (mkOrder 1 "BUY" 100 10 "LIMIT" 0 "MM1") /\
  0 <= quantity (mkOrder 1 "BUY" 100 5 "LIMIT" 0 "MM1")
    <= quantity (mkOrder 1 "BUY" 100 10 "LIMIT" 0 "MM1").
Proof.
  apply (orders_only_shrink [Submit tick "SELL" 99 5 "LIMIT" "User"]
           (run [Submit tick "BUY" 100 10 "LIMIT" "MM1"] __init__) 1).
  - eexists. split; [|reflexivity]. repeat constructor; cbn; lia.
  - repeat constructor; cbn; lia.
  - vm_compute. reflexivity.
  - vm_compute. reflexivity.
Defined.

(** * The table of recent trades of [app.py] *)

(** X14: The table of recent trades shows the last ten trades of the log (all
    of them when there are fewer), the newest first; the price of its first
    row is the last trade price, which is what the mid price falls back to
    when a side of the book is empty. *)
Theorem recent_trades_newest_first s :
  reachable s ->
  length (recent_trades s) = Nat.min 10 (length (trades s)) /\
  (forall k, (k < length (recent_trades s))%nat ->
     recent_trades s !! k = trades s !! (length (trades s) - 1 - k)%nat) /\
  from_option t_price 100%Q (head (recent_trades s)) = last_trade_price s.
Proof.
  intros Hs. unfold recent_trades.
  set (ts := trades s). set (n := (length ts - 10)%nat).
  assert (length (drop n ts) = Nat.min 10 (length ts)) as Hlen.
  { rewrite length_drop. lia. }
  split; [by rewrite length_reverse|]. split.
  - intros k Hk. rewrite length_reverse in Hk.
    rewrite reverse_lookup by lia. rewrite lookup_drop. f_equal. lia.
  - rewrite head_reverse, (reachable_last_ok s Hs). fold ts. f_equal.
    rewrite !last_lookup, lookup_drop, length_drop. f_equal.
    subst n. lia.
Qed.

Lemma recent_trades_newest_first_witness :
  length (recent_trades filled_pair) = Nat.min 10 (length (trades filled_pair)) /\
  (forall k, (k < length (recent_trades filled_pair))%nat ->
     recent_trades filled_pair !! k
     = trades filled_pair !! (length (trades filled_pair) - 1 - k)%nat) /\
  from_option t_price 100%Q (head (recent_trades filled_pair))
  = last_trade_price filled_pair.
Proof.
  apply (recent_trades_newest_first filled_pair). eexists. reflexivity.
Defined.

(** * The market maker *)

Lemma dict_pop_all l : forall d,
  (forall k, k ∈ d -> k ∈ l) -> foldl (fun d k => dict_pop k d) d l = [].
Proof.
  induction l as [|k l IH]; intros d Hd; cbn [foldl].
  - destruct d as [|x d]; [done|]. specialize (Hd x (list_elem_of_here _ _)).
    by apply elem_of_nil in Hd.
  - apply IH. intros x [Hne Hx]%list_elem_of_filter.
    specialize (Hd x Hx). apply elem_of_cons in Hd as [->|Hd]; done.
Qed.

Lemma cancel_all_orders_fold l : forall self ob,
  let r := foldl (fun '(self, order_book) order_id =>
                    let order_book := (cancel_order order_id order_book).2 in
                    let d := dict_pop order_id (MarketMaker.active_orders self) in
                    (MarketMaker.set_participant
                       (MarketParticipant.set_active_orders d (MarketMaker.participant self))
                       self,
                     order_book)) (self, ob) l in
  r.2 = run (map Cancel l) ob /\
  r.1 = MarketMaker.set_participant
          (MarketParticipant.set_active_orders
             (foldl (fun d k => dict_pop k d) (MarketMaker.active_orders self) l)
             (MarketMaker.participant self)) self.
Proof.
  induction l as [|k l IH]; intros self ob; cbn [foldl map].
  - split; [done|]. by destruct self as [[]].
  - destruct (IH (MarketMaker.set_participant
                    (MarketParticipant.set_active_orders
                       (dict_pop k (MarketMaker.active_orders self))
                       (MarketMaker.participant self)) self)
                 (cancel_order k ob).2) as [H1 H2].
    cbn zeta in *. split; [exact H1|]. rewrite H2. done.
Qed.

Lemma run_cancel_map l : forall s,
  order_map (run (map Cancel l) s) = foldl (fun m k => delete k m) (order_map s) l.
Proof.
  induction l as [|k l IH]; intros s; [done|].
  cbn [map foldl]. change (run (Cancel k :: map Cancel l) s)
    with (run (map Cancel l) (step (Cancel k) s)).
  rewrite IH. cbn [step]. by rewrite cancel_order_map.
Qed.

Lemma lookup_delete_all l : forall (m : gmap Z Order) i,
  foldl (fun m k => delete k m) m l !! i = if decide (i ∈ l) then None else m !! i.
Proof.
  induction l as [|k l IH]; intros m i; cbn [foldl].
  - destruct (decide (i ∈ [])) as [H|_]; [by apply elem_of_nil in H|done].
  - rewrite IH. destruct (decide (i ∈ l)) as [Hl|Hl].
    + rewrite decide_True; [done|by right].
    + destruct (decide (i = k)) as [->|Hk].
      * rewrite decide_True by by left. apply lookup_delete_eq.
      * rewrite decide_False; [by apply lookup_delete_ne|].
        intros [?|?]%elem_of_cons; done.
Qed.

Lemma run_cancel_frame l : forall s,
  trades (run (map Cancel l) s) = trades s /\
  last_trade_price (run (map Cancel l) s) = last_trade_price s /\
  next_order_id (run (map Cancel l) s) = next_order_id s.
Proof.
  induction l as [|k l IH]; intros s; [done|].
  change (run (map Cancel (k :: l)) s) with (run (map Cancel l) (step (Cancel k) s)).
  destruct (IH (step (Cancel k) s)) as (-> & -> & ->). apply cancel_order_frame.
Qed.

Lemma run_cancel_resting l : forall s,
  index_ok s ->
  forall o, o ∈ resting (bids (run (map Cancel l) s)) ++ resting (asks (run (map Cancel l) s))
    <-> o ∈ resting (bids s) ++ resting (asks s) /\ order_id o ∉ l.
Proof.
  induction l as [|k l IH]; intros s Hidx o.
  { cbn. split; [intros ?; split; [done|apply not_elem_of_nil]|by intros [? _]]. }
  change (run (map Cancel (k :: l)) s) with (run (map Cancel l) (step (Cancel k) s)).
  rewrite IH by by apply cancel_order_index. cbn [step].
  rewrite cancel_order_resting by done. rewrite not_elem_of_cons. tauto.
Qed.

Lemma reachable_run ops s : reachable s -> reachable (run ops s).
Proof.
  intros Hs. induction ops as [|op ops IH] using rev_ind; [done|].
  rewrite run_snoc. by apply reachable_step.
Qed.

(** X15: [cancel_all_orders] leaves the market maker without tracked orders
    and the book without the orders it tracked, resting or filled; it is the
    run of one cancellation per tracked id, so it touches no other order and
    records no trade. *)
Theorem cancel_all_orders_clears self ob :
  reachable ob ->
  let r := MarketMaker.cancel_all_orders self ob in
  MarketMaker.active_orders r.1 = [] /\
  r.2 = run (map Cancel (MarketMaker.active_orders self)) ob /\
  (forall i, i ∈ MarketMaker.active_orders self -> order_map r.2 !! i = None) /\
  (forall i, i ∉ MarketMaker.active_orders self -> order_map r.2 !! i = order_map ob !! i) /\
  (forall o, o ∈ resting (bids r.2) ++ resting (asks r.2) <->
     o ∈ resting (bids ob) ++ resting (asks ob) /\
     order_id o ∉ MarketMaker.active_orders self) /\
  trades r.2 = trades ob /\ last_trade_price r.2 = last_trade_price ob /\
  next_order_id r.2 = next_order_id ob.
Proof.
  intros Hob r. subst r. unfold MarketMaker.cancel_all_orders.
  destruct (cancel_all_orders_fold (MarketMaker.active_orders self) self ob) as [H2 H1].
  cbn zeta in H1, H2. rewrite H1, H2. cbn [fst snd].
  split.
  { unfold MarketMaker.active_orders at 1. cbn. by apply dict_pop_all. }
  split; [done|].
  split.
  { intros i Hi. rewrite run_cancel_map, lookup_delete_all. by rewrite decide_True. }
  split.
  { intros i Hi. rewrite run_cancel_map, lookup_delete_all. by rewrite decide_False. }
  split.
  { apply run_cancel_resting. by apply reachable_index_ok. }
  apply run_cancel_frame.
Qed.

Lemma cancel_all_orders_clears_witness :
  MarketMaker.active_orders (MarketMaker.cancel_all_orders tracking_two_sided two_sided).1 = [] /\
  order_map (MarketMaker.cancel_all_orders tracking_two_sided two_sided).2 !! 1 = None /\
  trades (MarketMaker.cancel_all_orders tracking_two_sided two_sided).2 = trades two_sided.
Proof.
  destruct (cancel_all_orders_clears tracking_two_sided two_sided)
    as (Hd & _ & Hgone & _ & _ & Htr & _).
  - eexists. reflexivity.
  - split; [exact Hd|]. split; [|exact Htr].
    apply Hgone. apply list_elem_of_here.
Defined.

(** ** The rolling window of mid prices *)

Lemma update_price_history_spec self p :
  (length (MarketMaker.price_history self) <= Z.to_nat (MarketMaker.volatility_window self))%nat ->
  let h := MarketMaker.price_history self ++ [p] in
  MarketMaker.price_history (MarketMaker.update_price_history self p)
  = drop (length h - Z.to_nat (MarketMaker.volatility_window self)) h /\
  MarketMaker.volatility_window (MarketMaker.update_price_history self p)
  = MarketMaker.volatility_window self.
Proof.
  intros Hlen h. unfold MarketMaker.update_price_history. fold h.
  assert (length h = S (length (MarketMaker.price_history self))) as Hh.
  { unfold h. rewrite length_app. cbn. lia. }
  destruct (Z.ltb_spec (MarketMaker.volatility_window self) (Z.of_nat (length h))) as [Hlt|Hge];
    cbn [MarketMaker.price_history MarketMaker.volatility_window MarketMaker.set_price_history].
  - split; [|done].
    replace (length h - Z.to_nat (MarketMaker.volatility_window self))%nat with 1%nat by lia.
    by destruct h.
  - split; [|done].
    replace (length h - Z.to_nat (MarketMaker.volatility_window self))%nat with 0%nat by lia.
    done.
Qed.

(** X16: The price history is a rolling window: fed with mid prices one after
    the other it holds the last [volatility_window] of them, oldest first. *)
Theorem price_history_window prices : forall self,
  (length (MarketMaker.price_history self) <= Z.to_nat (MarketMaker.volatility_window self))%nat ->
  let h := MarketMaker.price_history self ++ prices in
  MarketMaker.price_history (foldl MarketMaker.update_price_history self prices)
  = drop (length h - Z.to_nat (MarketMaker.volatility_window self)) h.
Proof.
  induction prices as [|p prices IH]; intros self Hlen h; cbn [foldl].
  { subst h. rewrite app_nil_r.
    replace (_ - _)%nat with 0%nat by lia. done. }
  destruct (update_price_history_spec self p Hlen) as [Hh Hw]. cbn zeta in Hh.
  assert (length (MarketMaker.price_history self ++ [p]) =
          S (length (MarketMaker.price_history self))) as Hl.
  { rewrite length_app. cbn. lia. }
  rewrite IH.
  - cbn zeta. rewrite Hw, Hh.
    set (w := Z.to_nat (MarketMaker.volatility_window self)) in *.
    set (h0 := MarketMaker.price_history self) in *.
    subst h. replace (h0 ++ p :: prices) with ((h0 ++ [p]) ++ prices) by by rewrite <- app_assoc.
    set (h1 := h0 ++ [p]) in *.
    rewrite <- (drop_app_le h1 prices) by lia.
    rewrite drop_drop. f_equal. rewrite !length_app, !length_drop, !length_app. lia.
  - rewrite Hw, Hh, length_drop. lia.
Qed.

Lemma price_history_window_witness :
  MarketMaker.price_history
    (foldl MarketMaker.update_price_history
       (MarketMaker.__init__ "MM1" 1 100 3 (5, 15) 2 (5 # 100) (1 # 2))
       [100; 101; 102]%Q)
  = drop (length ([] ++ [100; 101; 102]%Q) - Z.to_nat 2) ([] ++ [100; 101; 102]%Q).
Proof.
  apply (price_history_window [100; 101; 102]%Q
           (MarketMaker.__init__ "MM1" 1 100 3 (5, 15) 2 (5 # 100) (1 # 2))).
  cbn. lia.
Defined.

(** ** The spread *)

Lemma true_div_Some a b :
  b <> 0 -> true_div a b = Some (inject_Z a / inject_Z b)%Q.
Proof. intros Hb. unfold true_div. by rewrite (proj2 (Z.eqb_neq b 0) Hb). Qed.






(** ** Quoting *)

Lemma run_app ops ops' s : run (ops ++ ops') s = run ops' (run ops s).
Proof. unfold run. apply fold_left_app. Qed.

Lemma add_order_api_limit clock sd p q who s :
  let r := add_order_api clock sd p q "LIMIT" who s in
  r.1 = (true, Some (next_order_id s)) /\
  is_Some (order_map r.2 !! next_order_id s).
Proof.
  unfold add_order_api, add_order, match_orders.
  cbn [order_type String.eqb Ascii.eqb Bool.eqb andb fst snd].
  split; [done|].
  set (order := mkOrder (next_order_id s) sd p q "LIMIT" (clock O) who).
  set (s0 := place order (set_next_order_id (next_order_id s + 1) s)).
  apply elem_of_dom.
  rewrite (proj2 (match_orders_loop_frame _ _ s0)).
  unfold s0. rewrite (proj2 (proj2 (proj2 (place_spec order _)))).
  apply elem_of_dom. cbn [order_id order]. rewrite lookup_insert_eq. by eexists.
Qed.

Lemma dict_set_fresh k d : Forall (fun i => i < k) d -> dict_set k d = d ++ [k].
Proof.
  intros Hd. unfold dict_set. rewrite decide_False; [done|].
  intros Hk. rewrite Forall_forall in Hd. specialize (Hd k Hk). lia.
Qed.

Lemma tracking_tracking d d' self : tracking d (tracking d' self) = tracking d self.
Proof. done. Qed.

Lemma active_orders_tracking d self : MarketMaker.active_orders (tracking d self) = d.
Proof. done. Qed.

Lemma name_tracking d self : MarketMaker.name (tracking d self) = MarketMaker.name self.
Proof. done. Qed.

Lemma quote_of_tracking d self op : quote_of (tracking d self) op <-> quote_of self op.
Proof. done. Qed.

Lemma tracking_self self : tracking (MarketMaker.active_orders self) self = self.
Proof. by destruct self as [[]]. Qed.

Lemma submit_spec clock sd p size self ob :
  Forall (fun i => i < next_order_id ob) (MarketMaker.active_orders self) ->
  MarketMaker.submit clock sd p size self ob
  = Some (tracking (MarketMaker.active_orders self ++ [next_order_id ob]) self,
          step (Submit clock sd p size "LIMIT" (MarketMaker.name self)) ob).
Proof.
  intros Hd. unfold MarketMaker.submit. cbn [step].
  destruct (add_order_api_limit clock sd p size (MarketMaker.name self) ob) as [H1 [o Ho]].
  destruct (add_order_api _ _ _ _ _ _ _) as [[success order_id] ob']. cbn [fst snd] in *.
  injection H1 as -> ->. unfold MarketParticipant.track. rewrite Ho. cbn.
  fold (MarketMaker.active_orders self). by rewrite dict_set_fresh.
Qed.

Lemma quote_prices_Some round self mid_price spread level :
  MarketMaker.inventory self = 0 \/ MarketMaker.inventory_limit self <> 0 ->
  is_Some (MarketMaker.quote_prices round self mid_price spread level).
Proof.
  intros H. unfold MarketMaker.quote_prices.
  destruct (Z.ltb_spec 0 (MarketMaker.inventory self)).
  { rewrite true_div_Some by lia. by eexists. }
  destruct (Z.ltb_spec (MarketMaker.inventory self) 0).
  { rewrite true_div_Some by lia. by eexists. }
  by eexists.
Qed.

Lemma randint_Some a b draw :
  a <= b -> exists size, randint a b draw = Some size /\ a <= size <= b.
Proof.
  intros Hab. unfold randint. rewrite (proj2 (Z.leb_le a b) Hab). eexists. split; [done|].
  pose proof (Z.mod_pos_bound draw (b - a + 1)). lia.
Qed.

Lemma place_level_spec round mid_price spread level draw clock_bid clock_ask self ob :
  (MarketMaker.size_range self).1 <= (MarketMaker.size_range self).2 ->
  MarketMaker.inventory self = 0 \/ MarketMaker.inventory_limit self <> 0 ->
  Forall (fun i => i < next_order_id ob) (MarketMaker.active_orders self) ->
  exists ops,
    MarketMaker.place_level round mid_price spread level draw clock_bid clock_ask self ob
    = Some (tracking (MarketMaker.active_orders self
                      ++ [next_order_id ob; next_order_id ob + 1]) self,
            run ops ob) /\
    Forall (quote_of self) ops /\ length ops = 2%nat.
Proof.
  intros Hab Hinv Hd. unfold MarketMaker.place_level.
  destruct (randint_Some _ _ draw Hab) as (size & -> & Hsize).
  destruct (quote_prices_Some round self mid_price spread level Hinv) as [[bp ap] ->].
  cbn [mbind option_bind]. rewrite submit_spec by done. cbn [mbind option_bind].
  rewrite submit_spec.
  2:{ rewrite active_orders_tracking. cbn [step]. rewrite add_order_api_next.
      apply Forall_app. split.
      - eapply Forall_impl; [exact Hd|]. cbn. intros i Hi. lia.
      - apply Forall_singleton. lia. }
  exists [Submit clock_bid "BUY" bp size "LIMIT" (MarketMaker.name self);
          Submit clock_ask "SELL" ap size "LIMIT" (MarketMaker.name self)].
  split; [|split; [|done]].
  - rewrite active_orders_tracking, name_tracking, tracking_tracking.
    cbn [step]. rewrite add_order_api_next. by rewrite <- app_assoc.
  - apply Forall_cons. split; [done|]. apply Forall_cons. split; [done|]. constructor.
Qed.

Lemma place_levels_spec round mid_price spread draws clocks levels : forall self ob,
  levels = [] \/ (MarketMaker.size_range self).1 <= (MarketMaker.size_range self).2 ->
  levels = [] \/ MarketMaker.inventory self = 0 \/ MarketMaker.inventory_limit self <> 0 ->
  Forall (fun i => i < next_order_id ob) (MarketMaker.active_orders self) ->
  exists ops,
    MarketMaker.place_levels round mid_price spread levels draws clocks self ob
    = Some (tracking (MarketMaker.active_orders self
                      ++ seqZ (next_order_id ob) (2 * Z.of_nat (length levels))) self,
            run ops ob) /\
    Forall (quote_of self) ops /\ length ops = (2 * length levels)%nat.
Proof.
  induction levels as [|level levels IH]; intros self ob Hab Hinv Hd.
  { exists []. cbn. rewrite app_nil_r, tracking_self. done. }
  destruct Hab as [?|Hab]; [done|]. destruct Hinv as [?|Hinv]; [done|].
  cbn [MarketMaker.place_levels].
  destruct (place_level_spec round mid_price spread level (draws level)
              (clocks (2 * level)%nat) (clocks (2 * level + 1)%nat) self ob Hab Hinv Hd)
    as (ops1 & -> & Hq1 & Hl1).
  cbn [mbind option_bind].
  assert (next_order_id (run ops1 ob) = next_order_id ob + 2) as Hnext.
  { destruct ops1 as [|op1 [|op2 [|]]]; try done.
    apply Forall_cons in Hq1 as [H1 Hq1]. apply Forall_cons in Hq1 as [H2 _].
    destruct op1, op2; try done. cbn. rewrite !add_order_api_next. lia. }
  destruct (IH (tracking (MarketMaker.active_orders self
                          ++ [next_order_id ob; next_order_id ob + 1]) self)
               (run ops1 ob)) as (ops2 & -> & Hq2 & Hl2).
  - by right.
  - by right.
  - rewrite active_orders_tracking, Hnext. apply Forall_app. split.
    + eapply Forall_impl; [exact Hd|]. cbn. lia.
    + repeat constructor; lia.
  - exists (ops1 ++ ops2). split; [|split].
    + rewrite run_app, tracking_tracking, active_orders_tracking. do 2 f_equal.
      rewrite <- app_assoc. f_equal.
      rewrite Hnext. cbn [length].
      rewrite (seqZ_cons (next_order_id ob)) by lia.
      rewrite (seqZ_cons (Z.succ (next_order_id ob))) by lia. cbn [app].
      repeat (f_equal; try lia).
    + apply Forall_app. split; [done|exact Hq2].
    + rewrite length_app. cbn [length]. lia.
Qed.

Lemma place_quotes_spec round draws clocks self ob mid_price spread :
  MarketMaker.num_levels self <= 0 \/
    (MarketMaker.size_range self).1 <= (MarketMaker.size_range self).2 ->
  MarketMaker.num_levels self <= 0 \/
    MarketMaker.inventory self = 0 \/ MarketMaker.inventory_limit self <> 0 ->
  Forall (fun i => i < next_order_id ob) (MarketMaker.active_orders self) ->
  exists ops,
    MarketMaker.place_quotes round draws clocks self ob mid_price spread
    = Some (tracking (MarketMaker.active_orders self
                      ++ seqZ (next_order_id ob) (2 * Z.max 0 (MarketMaker.num_levels self)))
                     self,
            run ops ob) /\
    Forall (quote_of self) ops /\
    Z.of_nat (length ops) = 2 * Z.max 0 (MarketMaker.num_levels self).
Proof.
  intros Hab Hinv Hd. unfold MarketMaker.place_quotes.
  destruct (place_levels_spec round mid_price spread draws clocks
              (seq 0 (Z.to_nat (MarketMaker.num_levels self))) self ob) as (ops & -> & Hq & Hl).
  - destruct Hab as [?|?]; [left|by right]. by replace (Z.to_nat _) with 0%nat by lia.
  - destruct Hinv as [?|?]; [left|by right]. by replace (Z.to_nat _) with 0%nat by lia.
  - done.
  - rewrite length_seq in *. exists ops. split; [|split; [done|lia]].
    replace (2 * Z.of_nat (Z.to_nat (MarketMaker.num_levels self)))
      with (2 * Z.max 0 (MarketMaker.num_levels self)) by lia. done.
Qed.

Lemma quotes_positive self ops :
  0 < (MarketMaker.size_range self).1 -> Forall (quote_of self) ops ->
  Forall positive_op ops.
Proof.
  intros Ha Hq. eapply Forall_impl; [exact Hq|].
  intros [clock sd p q ty who|oid]; cbn; [|done].
  intros (_ & _ & ?). lia.
Qed.

Lemma quotes_submissions self ops :
  Forall (quote_of self) ops -> submissions ops = Z.of_nat (length ops).
Proof.
  induction 1 as [|[clock sd p q ty who|oid] ops Hop _ IH]; cbn [submissions length];
    [done| |done]. lia.
Qed.

(** Every id a run of quotes issues is indexed after the run. *)
Lemma run_quotes_indexed self ops : forall s i,
  Forall (quote_of self) ops ->
  next_order_id s <= i < next_order_id s + Z.of_nat (length ops) ->
  is_Some (order_map (run ops s) !! i).
Proof.
  induction ops as [|op ops IH] using rev_ind; intros s i Hq Hi.
  { cbn in Hi. lia. }
  apply Forall_app in Hq as [Hq Hop]. rewrite Forall_singleton in Hop.
  rewrite run_snoc. rewrite length_app in Hi. cbn [length] in Hi.
  destruct op as [clock sd p q ty who|oid]; [|done]. destruct Hop as (-> & _ & _).
  cbn [step].
  destruct (decide (i < next_order_id s + Z.of_nat (length ops))) as [Hlt|Hge].
  - apply elem_of_dom. apply (add_order_api_keeps_index clock sd p q "LIMIT" who).
    apply elem_of_dom. apply IH; [done|lia].
  - replace i with (next_order_id (run ops s)).
    + apply add_order_api_limit.
    + rewrite run_next_order_id, (quotes_submissions self) by done. lia.
Qed.

Lemma cancel_all_orders_spec self ob :
  MarketMaker.cancel_all_orders self ob
  = (tracking [] self, run (map Cancel (MarketMaker.active_orders self)) ob).
Proof.
  unfold MarketMaker.cancel_all_orders.
  destruct (cancel_all_orders_fold (MarketMaker.active_orders self) self ob) as [H2 H1].
  cbn zeta in H1, H2. apply injective_projections; cbn [fst snd]; [|done].
  rewrite H1. unfold tracking. by rewrite dict_pop_all.
Qed.

Lemma update_price_history_tracking d self p :
  MarketMaker.update_price_history (tracking d self) p
  = tracking d (MarketMaker.update_price_history self p).
Proof.
  unfold MarketMaker.update_price_history. cbn.
  by destruct (_ <? _).
Qed.

Lemma update_price_history_fields self p :
  let self' := MarketMaker.update_price_history self p in
  MarketMaker.participant self' = MarketMaker.participant self /\
  MarketMaker.inventory self' = MarketMaker.inventory self /\
  MarketMaker.inventory_limit self' = MarketMaker.inventory_limit self /\
  MarketMaker.num_levels self' = MarketMaker.num_levels self /\
  MarketMaker.size_range self' = MarketMaker.size_range self.
Proof. unfold MarketMaker.update_price_history. by destruct (_ <? _). Qed.

Lemma quote_of_fields self self' op :
  MarketMaker.participant self' = MarketMaker.participant self ->
  MarketMaker.size_range self' = MarketMaker.size_range self ->
  quote_of self' op -> quote_of self op.
Proof.
  intros Hp Hr. destruct op; [|done]. unfold quote_of, MarketMaker.name.
  by rewrite Hp, Hr.
Qed.

Lemma place_quotes_fails round draws clocks self ob mid_price spread :
  0 < MarketMaker.num_levels self ->
  (MarketMaker.size_range self).2 < (MarketMaker.size_range self).1 ->
  MarketMaker.place_quotes round draws clocks self ob mid_price spread = None.
Proof.
  intros Hl Hab. unfold MarketMaker.place_quotes.
  destruct (Z.to_nat (MarketMaker.num_levels self)) as [|k] eqn:Hk; [lia|].
  cbn [seq MarketMaker.place_levels]. unfold MarketMaker.place_level, randint.
  by rewrite (proj2 (Z.leb_gt _ _) Hab).
Qed.

Lemma act_result d m self self1 :
  MarketMaker.participant self1 = MarketMaker.participant self ->
  MarketMaker.set_participant
    (MarketParticipant.set_last_mid_price m
       (MarketMaker.participant (tracking d (tracking [] self1))))
    (tracking d (tracking [] self1))
  = MarketMaker.set_participant (MarketParticipant.mk (MarketMaker.name self) d m) self1.
Proof.
  intros Hp. unfold MarketMaker.name. rewrite <- Hp. by destruct self1 as [[]].
Qed.

(** What [act] does when it succeeds. *)
Lemma act_spec {float_ops : FloatOps} pstdev round draws clocks self ob :
  MarketMaker.inventory_limit self <> 0 ->
  MarketMaker.num_levels self <= 0 \/
    (MarketMaker.size_range self).1 <= (MarketMaker.size_range self).2 ->
  let ob1 := run (map Cancel (MarketMaker.active_orders self)) ob in
  let mid_price := get_mid_price ob1 in
  let self1 := MarketMaker.update_price_history self mid_price in
  exists ops,
    MarketMaker.act pstdev round draws clocks self ob
    = Some (MarketMaker.set_participant
              (MarketParticipant.mk (MarketMaker.name self)
                 (seqZ (next_order_id ob) (2 * Z.max 0 (MarketMaker.num_levels self)))
                 (Some mid_price)) self1,
            run ops ob1) /\
    Forall (quote_of self) ops /\
    Z.of_nat (length ops) = 2 * Z.max 0 (MarketMaker.num_levels self).
Proof.
  intros Hlim Hab ob1 mid_price self1. unfold MarketMaker.act.
  rewrite cancel_all_orders_spec. fold ob1 mid_price.
  rewrite update_price_history_tracking. fold self1.
  destruct (update_price_history_fields self mid_price) as (Hp & Hi & Hl & Hn & Hr).
  fold self1 in Hp, Hi, Hl, Hn, Hr.
  unfold MarketMaker.calculate_spread.
  rewrite true_div_Some by (cbn; by rewrite Hl). cbn [mbind option_bind].
  match goal with |- context [MarketMaker.place_quotes _ _ _ _ _ _ ?sp] =>
    destruct (place_quotes_spec round draws clocks (tracking [] self1) ob1 mid_price sp)
      as (ops & -> & Hq & Hlen) end.
  - cbn. by rewrite Hn, Hr.
  - cbn. rewrite Hn, Hl. right. by right.
  - by rewrite active_orders_tracking.
  - cbn [mbind option_bind]. exists ops. split; [|split].
    + rewrite active_orders_tracking. cbn [app]. f_equal. f_equal.
      rewrite tracking_tracking, <- (tracking_tracking _ [] self1).
      rewrite (act_result _ _ self) by done.
      change (MarketMaker.num_levels (tracking [] self1))
        with (MarketMaker.num_levels self1). rewrite Hn.
      unfold ob1. by rewrite (proj2 (proj2 (run_cancel_frame _ ob))).
    + eapply Forall_impl; [exact Hq|]. intros op Hop.
      apply quote_of_tracking in Hop. by eapply quote_of_fields.
    + cbn in Hlen. by rewrite Hn in Hlen.
Qed.

(** X19: [place_quotes] never fails on a missing id: with a non-empty size
    range and a usable inventory limit it submits two LIMIT orders per level,
    all accepted, tracks every id it was given, and every tracked id is
    indexed by the engine, filled or not. *)
Theorem place_quotes_tracks round draws clocks self ob mid_price spread :
  MarketMaker.num_levels self <= 0 \/
    (MarketMaker.size_range self).1 <= (MarketMaker.size_range self).2 ->
  MarketMaker.num_levels self <= 0 \/
    MarketMaker.inventory self = 0 \/ MarketMaker.inventory_limit self <> 0 ->
  Forall (fun i => i < next_order_id ob) (MarketMaker.active_orders self) ->
  let n := 2 * Z.max 0 (MarketMaker.num_levels self) in
  exists self' ob' ops,
    MarketMaker.place_quotes round draws clocks self ob mid_price spread = Some (self', ob') /\
    ob' = run ops ob /\ Forall (quote_of self) ops /\ Z.of_nat (length ops) = n /\
    MarketMaker.active_orders self'
    = MarketMaker.active_orders self ++ seqZ (next_order_id ob) n /\
    next_order_id ob' = next_order_id ob + n /\
    (forall i, next_order_id ob <= i < next_order_id ob + n ->
       is_Some (order_map ob' !! i)).
Proof.
  intros Hab Hinv Hd n.
  destruct (place_quotes_spec round draws clocks self ob mid_price spread Hab Hinv Hd)
    as (ops & Hpq & Hq & Hlen). fold n in Hpq, Hlen.
  eexists _, _, ops. split; [exact Hpq|]. split; [done|]. split; [done|]. split; [done|].
  split; [done|]. split.
  - rewrite run_next_order_id, (quotes_submissions self) by done. lia.
  - intros i Hi. apply (run_quotes_indexed self); [done|lia].
Qed.

Lemma place_quotes_tracks_witness :
  exists self' ob' ops,
    MarketMaker.place_quotes no_round (fun _ => 0) ticks (MarketMaker.default "MM1")
      __init__ 100 1 = Some (self', ob') /\
    ob' = run ops __init__ /\ Forall (quote_of (MarketMaker.default "MM1")) ops /\
    Z.of_nat (length ops) = 6 /\
    MarketMaker.active_orders self' = [] ++ seqZ 1 6 /\
    next_order_id ob' = 1 + 6 /\
    (forall i, 1 <= i < 1 + 6 -> is_Some (order_map ob' !! i)).
Proof.
  apply (place_quotes_tracks no_round (fun _ => 0) ticks (MarketMaker.default "MM1")
           __init__ 100 1).
  - right. cbn. lia.
  - right. by left.
  - constructor.
Defined.

(** X20: [act] succeeds exactly when the inventory limit is not zero and,
    if there are levels to quote, the size range is not empty. *)
Theorem act_succeeds_iff {float_ops : FloatOps} pstdev round draws clocks self ob :
  is_Some (MarketMaker.act pstdev round draws clocks self ob) <->
  MarketMaker.inventory_limit self <> 0 /\
  (MarketMaker.num_levels self <= 0 \/
   (MarketMaker.size_range self).1 <= (MarketMaker.size_range self).2).
Proof.
  split.
  - intros Hsome. unfold MarketMaker.act in Hsome.
    rewrite cancel_all_orders_spec, update_price_history_tracking in Hsome.
    set (ob1 := run _ ob) in Hsome.
    set (self1 := MarketMaker.update_price_history self (get_mid_price ob1)) in Hsome.
    destruct (update_price_history_fields self (get_mid_price ob1)) as (_ & _ & Hl & Hn & Hr).
    fold self1 in Hl, Hn, Hr.
    unfold MarketMaker.calculate_spread, true_div in Hsome.
    change (MarketMaker.inventory_limit (tracking [] self1))
      with (MarketMaker.inventory_limit self1) in Hsome. rewrite Hl in Hsome.
    destruct (Z.eqb_spec (MarketMaker.inventory_limit self) 0) as [Heq|Hne].
    { cbn in Hsome. by destruct Hsome. }
    split; [done|]. cbn [mbind option_bind] in Hsome.
    destruct (decide (MarketMaker.num_levels self <= 0)) as [?|Hlev]; [by left|right].
    destruct (decide ((MarketMaker.size_range self).1 <= (MarketMaker.size_range self).2))
      as [?|Hab]; [done|].
    rewrite place_quotes_fails in Hsome.
    + cbn in Hsome. by destruct Hsome.
    + change (MarketMaker.num_levels (tracking [] self1)) with (MarketMaker.num_levels self1).
      rewrite Hn. lia.
    + change (MarketMaker.size_range (tracking [] self1)) with (MarketMaker.size_range self1).
      rewrite Hr. lia.
  - intros [Hlim Hab].
    destruct (act_spec pstdev round draws clocks self ob Hlim Hab) as (ops & -> & _).
    by eexists.
Qed.

(** X21: [act] replaces the quotes: afterwards the market maker tracks exactly
    the ids of its two new LIMIT orders per level, all of them indexed; the
    orders it tracked before are gone from the index; the book is one the
    engine can reach, and under a positive size range one it can reach under
    the input constraint. *)
Theorem act_requotes {float_ops : FloatOps} pstdev round draws clocks self ob :
  reachable ob ->
  MarketMaker.inventory_limit self <> 0 ->
  MarketMaker.num_levels self <= 0 \/
    (MarketMaker.size_range self).1 <= (MarketMaker.size_range self).2 ->
  Forall (fun i => i < next_order_id ob) (MarketMaker.active_orders self) ->
  let n := 2 * Z.max 0 (MarketMaker.num_levels self) in
  exists self' ob',
    MarketMaker.act pstdev round draws clocks self ob = Some (self', ob') /\
    reachable ob' /\
    (0 < (MarketMaker.size_range self).1 -> reachable_positive ob ->
     reachable_positive ob') /\
    MarketMaker.active_orders self' = seqZ (next_order_id ob) n /\
    next_order_id ob' = next_order_id ob + n /\
    (forall i, i ∈ MarketMaker.active_orders self' -> is_Some (order_map ob' !! i)) /\
    (forall i, i ∈ MarketMaker.active_orders self -> order_map ob' !! i = None) /\
    MarketMaker.inventory self' = MarketMaker.inventory self.
Proof.
  intros Hob Hlim Hab Hd n.
  destruct (act_spec pstdev round draws clocks self ob Hlim Hab) as (ops & Hact & Hq & Hlen).
  cbn zeta in Hact. fold n in Hact, Hlen.
  set (ob1 := run (map Cancel (MarketMaker.active_orders self)) ob) in *.
  destruct (run_cancel_frame (MarketMaker.active_orders self) ob) as (_ & _ & Hn1).
  fold ob1 in Hn1.
  eexists _, _. split; [exact Hact|].
  split. { by apply reachable_run, reachable_run. }
  split.
  { intros Ha Hpos. apply reachable_positive_run; [|by eapply quotes_positive].
    apply reachable_positive_run; [done|].
    apply Forall_fmap, Forall_forall. by intros. }
  split; [done|].
  split. { rewrite run_next_order_id, (quotes_submissions self), Hn1 by done. lia. }
  split.
  { intros i Hi%elem_of_seqZ. apply (run_quotes_indexed self); [done|]. rewrite Hn1. lia. }
  split.
  { intros i Hi. apply run_absent.
    - rewrite Hn1. rewrite Forall_forall in Hd. by apply Hd.
    - unfold ob1. rewrite run_cancel_map, lookup_delete_all. by rewrite decide_True. }
  change (MarketMaker.inventory (MarketMaker.update_price_history self (get_mid_price ob1))
          = MarketMaker.inventory self).
  by destruct (update_price_history_fields self (get_mid_price ob1)) as (_ & -> & _).
Qed.

Lemma act_requotes_witness :
  exists self' ob',
    first_quotes = Some (self', ob') /\
    reachable ob' /\
    (0 < 5 -> reachable_positive __init__ -> reachable_positive ob') /\
    MarketMaker.active_orders self' = seqZ 1 6 /\
    next_order_id ob' = 1 + 6 /\
    (forall i, i ∈ MarketMaker.active_orders self' -> is_Some (order_map ob' !! i)) /\
    (forall i, i ∈ [] -> order_map ob' !! i = None) /\
    MarketMaker.inventory self' = 0.
Proof.
  apply (act_requotes (float_ops := exact_arithmetic) (fun _ => 0%Q) no_round
           (fun _ => 0) ticks (MarketMaker.default "MM1") __init__).
  - apply reachable_init.
  - cbn. lia.
  - right. cbn. lia.
  - constructor.
Defined.

(** * The random trader *)




Lemma elem_of_dict_set i k d : i ∈ dict_set k d <-> i = k \/ i ∈ d.
Proof.
  unfold dict_set. destruct (decide (k ∈ d)) as [Hk|Hk].
  - split; [by right|]. by intros [->|?].
  - rewrite elem_of_app, list_elem_of_singleton. tauto.
Qed.

Lemma should_trade_None exp self current_time random :
  RandomTrader.should_trade exp self current_time random = None <->
  (RandomTrader.mean_time_between_trades self == 0)%Q.
Proof.
  unfold RandomTrader.should_trade.
  destruct (Qeq_bool (RandomTrader.mean_time_between_trades self) 0) eqn:Heq.
  - apply Qeq_bool_iff in Heq. by split.
  - apply Qeq_bool_false in Heq. by split.
Qed.

(** What a call of [act] that succeeds leaves behind: nothing changed but
    possibly the time of the last trade, or one submission of a positive
    size, tracked when it is a LIMIT order. *)
Lemma random_trader_act_spec {float_ops : FloatOps} exp round d self ob self' ob' :
  RandomTrader.act exp round d self ob = Some (self', ob') ->
  (ob' = ob /\ RandomTrader.active_orders self' = RandomTrader.active_orders self) \/
  (exists sd p,
     ob' = step (Submit (RandomTrader.clock d) sd p
                   (RandomTrader.generate_order_size self (RandomTrader.power d))
                   "MARKET" (RandomTrader.name self)) ob /\
     RandomTrader.active_orders self' = RandomTrader.active_orders self) \/
  (exists sd p,
     ob' = step (Submit (RandomTrader.clock d) sd p
                   (RandomTrader.generate_order_size self (RandomTrader.power d))
                   "LIMIT" (RandomTrader.name self)) ob /\
     RandomTrader.active_orders self'
     = dict_set (next_order_id ob) (RandomTrader.active_orders self)).
Proof.
  unfold RandomTrader.act.
  destruct (RandomTrader.should_trade _ _ _ _) as [go|]; [|done]. cbn [mbind option_bind].
  destruct go; cbn [negb].
  2:{ intros H. injection H as <- <-. by left. }
  intros Hact. right. revert Hact. destruct (Qltb _ _); intros Hact.
  - left.
    match type of Hact with context [add_order_api ?c ?sd ?p ?q ?ty ?who ob] =>
      exists sd, p; cbn [step];
      destruct (add_order_api c sd p q ty who ob) as [res ob1] end.
    cbn in Hact. injection Hact as <- <-. by split.
  - right.
    match type of Hact with context [add_order_api ?c ?sd ?p ?q ?ty ?who ob] =>
      exists sd, p; cbn [step];
      destruct (add_order_api_limit c sd p q who ob) as [H1 Hsome];
      destruct (add_order_api c sd p q ty who ob) as [[success order_id] ob1] end.
    cbn [fst snd] in *. injection H1 as -> ->.
    rewrite decide_True in Hact by done. unfold MarketParticipant.track in Hact.
    destruct Hsome as [o Ho]. rewrite Ho in Hact. cbn in Hact.
    injection Hact as <- <-. by split.
Qed.

(** X23: [act] of a random trader fails exactly when the mean time between
    trades is zero.  When it succeeds the book is again one the engine
    reaches under the input constraint, no id left the index, and the trader
    tracks, besides what it tracked, the id it was given exactly when the
    engine indexed it: every LIMIT order and no MARKET order. *)
Theorem random_trader_act {float_ops : FloatOps} exp round d self ob :
  reachable ob ->
  (RandomTrader.act exp round d self ob = None <->
   (RandomTrader.mean_time_between_trades self == 0)%Q) /\
  (forall self' ob', RandomTrader.act exp round d self ob = Some (self', ob') ->
     reachable ob' /\
     (reachable_positive ob -> reachable_positive ob') /\
     dom (order_map ob) ⊆ dom (order_map ob') /\
     next_order_id ob <= next_order_id ob' <= next_order_id ob + 1 /\
     (forall i, i ∈ RandomTrader.active_orders self' <->
        i ∈ RandomTrader.active_orders self \/
        (i = next_order_id ob /\ is_Some (order_map ob' !! i)))).
Proof.
  intros Hob.
  assert (order_map ob !! next_order_id ob = None) as Hfresh.
  { destruct (reachable_index_ok ob Hob) as [(_ & _ & _ & Hi) _].
    destruct (order_map ob !! next_order_id ob) as [o|] eqn:Ho; [|done].
    destruct (Hi _ _ Ho) as (_ & ? & _). lia. }
  split.
  - rewrite <- (should_trade_None exp self (RandomTrader.current_time d)
                  (RandomTrader.random_trade d)).
    unfold RandomTrader.act.
    destruct (RandomTrader.should_trade _ _ _ _) as [go|]; [|done]. cbn [mbind option_bind].
    split; [|done]. destruct go; cbn [negb]; [|done].
    destruct (Qltb _ _).
    + by destruct (add_order_api _ _ _ _ _ _ _).
    + match goal with |- context [add_order_api ?c ?sd ?p ?q ?ty ?who ob] =>
        destruct (add_order_api_limit c sd p q who ob) as [H1 Hsome];
        destruct (add_order_api c sd p q ty who ob) as [[success order_id] ob1] end.
      cbn [fst snd] in *. injection H1 as -> ->.
      rewrite decide_True by done. unfold MarketParticipant.track.
      by destruct Hsome as [o ->].
  - intros self' ob' Hact.
    assert (1 <= RandomTrader.generate_order_size self (RandomTrader.power d)) as Hsize.
    { unfold RandomTrader.generate_order_size. lia. }
    apply random_trader_act_spec in Hact
      as [[-> Hd]|[(sd & p & -> & Hd)|(sd & p & -> & Hd)]].
    + split; [done|]. split; [done|]. split; [done|]. split; [lia|].
      intros i. rewrite Hd. split; [by left|]. intros [?|[-> Hsome]]; [done|].
      rewrite Hfresh in Hsome. by destruct Hsome.
    + split; [by apply reachable_step|].
      split. { intros Hpos. apply reachable_positive_step; [done|]. cbn. lia. }
      cbn [step]. split; [apply add_order_api_keeps_index|].
      rewrite add_order_api_next. split; [lia|].
      intros i. rewrite Hd. split; [by left|]. intros [?|[-> Hsome]]; [done|].
      destruct (market_order_never_rests (RandomTrader.clock d) sd p
                  (RandomTrader.generate_order_size self (RandomTrader.power d))
                  (RandomTrader.name self) ob Hob) as (_ & _ & Hnone & _).
      rewrite Hnone in Hsome. by destruct Hsome.
    + split; [by apply reachable_step|].
      split. { intros Hpos. apply reachable_positive_step; [done|]. cbn. lia. }
      cbn [step]. split; [apply add_order_api_keeps_index|].
      rewrite add_order_api_next. split; [lia|].
      intros i. rewrite Hd, elem_of_dict_set.
      split; [|tauto]. intros [->|?]; [right|by left].
      split; [done|]. apply add_order_api_limit.
Qed.

Lemma random_trader_act_witness :
  RandomTrader.act (float_ops := exact_arithmetic) (fun _ => 0%Q) no_round limit_draws
    (RandomTrader.default 0 "T") two_sided
  = None <-> (5 == 0)%Q.
Proof.
  apply (random_trader_act (float_ops := exact_arithmetic) (fun _ => 0%Q) no_round
           limit_draws (RandomTrader.default 0 "T") two_sided).
  eexists. reflexivity.
Defined.
